(** * Resumable zip extraction

    A shallow embedding of [zipextractor.Resume]
    (vendor/github.com/itchio/savior/zipextractor/zipextractor.go) together
    with models of the collaborators it drives: the archive reader, the
    [savior] sources, the copier, the sink and the save consumer.

    Layout: machine integers and progress values; the archive ([zip]); the
    [savior] data model, sink, consumer, sources and copier; the extractor
    itself; then the theorems. *)

From Stdlib Require Import ZArith QArith Lia String Ascii.
From Stdlib Require Import Init.Byte.
From stdpp Require Import base option list gmap strings.

Local Open Scope Z_scope.

(** ** Machine integers

    Go's [int64] arithmetic wraps around; [int64] is also the conversion
    [int64(x)] from a [uint64] or an [int]. *)

Definition int64 (z : Z) : Z := (z + 2 ^ 63) mod 2 ^ 64 - 2 ^ 63.
Definition add64 (a b : Z) : Z := int64 (a + b).
Definition sub64 (a b : Z) : Z := int64 (a - b).

(** ** Progress values

    [float64(a) / float64(b)] for two [int64] operands.  The special values
    of IEEE division are kept (0/0 is NaN, x/0 is an infinity); a finite
    quotient is kept exact as a rational.  Rounding to nearest is monotone
    and leaves 0 and 1 fixed, so order facts about the exact quotients carry
    over to the rounded ones. *)

Inductive float64 :=
| NaN
| Inf (negative : bool)
| Fin (q : Q).

Definition float64_div (a b : Z) : float64 :=
  if b =? 0 then (if a =? 0 then NaN else Inf (a <? 0))
  else Fin (inject_Z a / inject_Z b).

(** ** The archive: [github.com/itchio/arkive/zip] *)

Module zip.

Definition Store : Z := 0.
Definition Deflate : Z := 8.

(** One member of the central directory.  [Mode] is the value of
    [zf.Mode()], an [os.FileMode].  [Payload] is the member's decoded
    content: what [zf.Open()] yields, and what a source over the member's
    data section produces.  [Blocks] are the offsets, in the decoded
    stream, at which a deflate stream can be saved.  The two flags say
    whether [zf.DataOffset()] and [zf.Open()] fail. *)
Record File := {
  Name : string;
  Method : Z;
  CompressedSize64 : Z;
  UncompressedSize64 : Z;
  Mode : Z;
  Payload : list byte;
  Blocks : list Z;
  DataOffsetFails : bool;
  OpenFails : bool
}.

End zip.

(** [os.ModeDir] and [os.ModeSymlink]. *)
Definition ModeDir : Z := 2 ^ 31.
Definition ModeSymlink : Z := 2 ^ 27.

(** [filepath.Separator] and [filepath.ToSlash], for a host whose separator
    is the slash. *)
Definition Separator : ascii := "/"%char.

Fixpoint replaceChar (old new : ascii) (s : string) : string :=
  match s with
  | EmptyString => EmptyString
  | String c rest =>
      String (if Ascii.eqb c old then new else c) (replaceChar old new rest)
  end.

Definition ToSlash (path : string) : string :=
  if Ascii.eqb Separator "/"%char then path
  else replaceChar Separator "/"%char path.

(** ** [github.com/itchio/savior] *)

Module savior.

Inductive EntryKind := EntryKindDir | EntryKindSymlink | EntryKindFile.

Record Entry := {
  CanonicalPath : string;
  Kind : EntryKind;
  CompressedSize : Z;
  UncompressedSize : Z;
  Mode : Z;
  WriteOffset : Z
}.

Definition withWriteOffset (w : Z) (e : Entry) : Entry :=
  {| CanonicalPath := CanonicalPath e; Kind := Kind e;
     CompressedSize := CompressedSize e;
     UncompressedSize := UncompressedSize e;
     Mode := Mode e; WriteOffset := w |}.

Record SourceCheckpoint := { Offset : Z }.

(** The fields [Entry] and [SourceCheckpoint] carry a trailing underscore:
    the plain names are those of the types. *)
Record ExtractorCheckpoint := {
  EntryIndex : Z;
  Progress : float64;
  Entry_ : option Entry;
  SourceCheckpoint_ : option SourceCheckpoint
}.

Definition withEntryIndex (i : Z) (c : ExtractorCheckpoint) :=
  {| EntryIndex := i; Progress := Progress c; Entry_ := Entry_ c;
     SourceCheckpoint_ := SourceCheckpoint_ c |}.
Definition withProgress (p : float64) (c : ExtractorCheckpoint) :=
  {| EntryIndex := EntryIndex c; Progress := p; Entry_ := Entry_ c;
     SourceCheckpoint_ := SourceCheckpoint_ c |}.
Definition withEntry (e : option Entry) (c : ExtractorCheckpoint) :=
  {| EntryIndex := EntryIndex c; Progress := Progress c; Entry_ := e;
     SourceCheckpoint_ := SourceCheckpoint_ c |}.
Definition withSourceCheckpoint (s : option SourceCheckpoint)
    (c : ExtractorCheckpoint) :=
  {| EntryIndex := EntryIndex c; Progress := Progress c;
     Entry_ := Entry_ c; SourceCheckpoint_ := s |}.

Record ExtractorResult := { Entries : list Entry }.

Inductive AfterSaveAction := AfterSaveContinue | AfterSaveStop.

(** *** Sink calls, errors and the trace *)

Inductive SinkCall :=
| CallPreallocate (e : Entry)
| CallMkdir (e : Entry)
| CallSymlink (e : Entry) (linkname : string)
| CallGetWriter (e : Entry)
| CallWrite (path : string) (off : Z) (data : list byte)
| CallSync (path : string).

Inductive error :=
| ErrStop
| ErrSink (c : SinkCall)
| ErrSave
| ErrDecode
| ErrUnexpectedEOF
| ErrDataOffset
| ErrOpen
| Wrapped (e : error).

(** [errors.Wrap(err, 0)] of go-errors: an error that is wrapped already
    is returned as it is. *)
Definition Wrap (e : error) : error :=
  match e with
  | Wrapped _ => e
  | _ => Wrapped e
  end.

Inductive SaveAnswer :=
| SaveAction (a : AfterSaveAction)
| SaveFails.

(** The lines the extractor writes through [consumer.Infof],
    [consumer.Debugf], [consumer.Statf] and [savior.Debugf]. *)
Inductive LogLine :=
| LogStartingFresh
| LogResuming (progress : float64)
| LogPreallocating (totalBytes : Z)
| LogPreallocated
| LogDoingEntryIndex (entryIndex : Z)
| LogEntry (e : Entry)
| LogDiscarding (path : string) (delta : Z)
| LogSourceResumedAt (path : string) (offset writeOffset : Z)
| LogResumingFrom (path : string) (writeOffset : Z)
| LogSaving (path : string) (hasSourceCheckpoint : bool)
| LogSourceCheckpointAt (path : string) (offset : Z)
| LogExtracted (entries : list Entry).

(** Everything a run does to the outside, in order. *)
Inductive Event :=
| EvLog (l : LogLine)
| EvSink (c : SinkCall) (ok : bool)
| EvSourceResume (sc : option SourceCheckpoint) (offset : option Z)
| EvDiscard (n : Z)
| EvShouldSave (n : Z) (answer : bool)
| EvSave (c : ExtractorCheckpoint) (answer : SaveAnswer)
| EvProgress (p : float64).

(** *** The sink

    Modelled from the spec: the Sink is an external collaborator, given
    only by its contract (Preallocate, Mkdir, Symlink, GetWriter, and a
    writer with positional writes and Sync).  This one keeps the
    destination tree in memory: file contents by path, the set of
    directories, link targets by path.  [faulty] says which calls fail; a
    failing call changes nothing. *)
Record Sink := {
  files : gmap string (list byte);
  dirs : gset string;
  links : gmap string string;
  faulty : SinkCall -> bool
}.

(** Writing [bs] at offset [off] of a file holding [f]: the bytes before
    [off] stay (a gap is filled with zeroes), as do those after the
    written range. *)
Definition write_at (f : list byte) (off : nat) (bs : list byte) : list byte :=
  take off f ++ replicate (off - length f) x00 ++ bs
    ++ drop (off + length bs) f.

Definition withFiles (fs : gmap string (list byte)) (s : Sink) : Sink :=
  {| files := fs; dirs := dirs s; links := links s; faulty := faulty s |}.

(** The effect of a call that succeeds.  Preallocate sizes the file to the
    entry's uncompressed size; GetWriter creates the file when it is
    missing and keeps its content otherwise. *)
Definition applyCall (c : SinkCall) (s : Sink) : Sink :=
  match c with
  | CallPreallocate e =>
      withFiles (<[CanonicalPath e :=
                    resize (Z.to_nat (UncompressedSize e)) x00
                      (files s !!! CanonicalPath e)]> (files s)) s
  | CallMkdir e =>
      {| files := files s; dirs := {[CanonicalPath e]} ∪ dirs s;
         links := links s; faulty := faulty s |}
  | CallSymlink e linkname =>
      {| files := files s; dirs := dirs s;
         links := <[CanonicalPath e := linkname]> (links s);
         faulty := faulty s |}
  | CallGetWriter e =>
      withFiles (<[CanonicalPath e := files s !!! CanonicalPath e]> (files s)) s
  | CallWrite path off data =>
      withFiles (<[path := write_at (files s !!! path) (Z.to_nat off) data]>
                   (files s)) s
  | CallSync _ => s
  end.

(** *** The save consumer

    Modelled from the spec: the SaveConsumer is the policy object behind
    [ShouldSave] and [Save].  Along one run a policy is the sequence of
    its answers; when a script runs out the consumer asks for no save and
    lets the extraction continue. *)
Record SaveConsumer := {
  shouldSaveScript : list bool;
  saveScript : list SaveAnswer
}.

Definition NopSaveConsumer : SaveConsumer :=
  {| shouldSaveScript := []; saveScript := [] |}.

(** *** The machine state

    [sink], [saveConsumer] and [trace] are the outside; [checkpoint] is the
    checkpoint object the caller and the extractor share; [doneBytes],
    [stopError] and [copierStop] are the variables of [Resume] that its
    closures capture and update. *)
Record State := {
  sink : Sink;
  saveConsumer : SaveConsumer;
  trace : list Event;
  checkpoint : ExtractorCheckpoint;
  doneBytes : Z;
  stopError : option error;
  copierStop : bool
}.

Definition withSink (s : Sink) (st : State) : State :=
  {| sink := s; saveConsumer := saveConsumer st; trace := trace st;
     checkpoint := checkpoint st; doneBytes := doneBytes st;
     stopError := stopError st; copierStop := copierStop st |}.
Definition withSaveConsumer (c : SaveConsumer) (st : State) : State :=
  {| sink := sink st; saveConsumer := c; trace := trace st;
     checkpoint := checkpoint st; doneBytes := doneBytes st;
     stopError := stopError st; copierStop := copierStop st |}.
Definition withTrace (t : list Event) (st : State) : State :=
  {| sink := sink st; saveConsumer := saveConsumer st; trace := t;
     checkpoint := checkpoint st; doneBytes := doneBytes st;
     stopError := stopError st; copierStop := copierStop st |}.
Definition withCheckpoint (c : ExtractorCheckpoint) (st : State) : State :=
  {| sink := sink st; saveConsumer := saveConsumer st; trace := trace st;
     checkpoint := c; doneBytes := doneBytes st;
     stopError := stopError st; copierStop := copierStop st |}.
Definition withDoneBytes (d : Z) (st : State) : State :=
  {| sink := sink st; saveConsumer := saveConsumer st; trace := trace st;
     checkpoint := checkpoint st; doneBytes := d;
     stopError := stopError st; copierStop := copierStop st |}.
Definition withStop (e : option error) (b : bool) (st : State) : State :=
  {| sink := sink st; saveConsumer := saveConsumer st; trace := trace st;
     checkpoint := checkpoint st; doneBytes := doneBytes st;
     stopError := e; copierStop := b |}.

(** *** A state and error monad

    A computation ends with a value, with an error, or with a Go panic. *)
Inductive res (A : Type) :=
| Ok (a : A)
| Err (e : error)
| Panic.
Arguments Ok {A} a.
Arguments Err {A} e.
Arguments Panic {A}.

Definition M (A : Type) : Type := State -> res A * State.

Definition ret {A} (a : A) : M A := fun st => (Ok a, st).

Definition bind {A B} (m : M A) (k : A -> M B) : M B :=
  fun st =>
    match m st with
    | (Ok a, st') => k a st'
    | (Err e, st') => (Err e, st')
    | (Panic, st') => (Panic, st')
    end.

Definition raise {A} (e : error) : M A := fun st => (Err e, st).
Definition panic {A} : M A := fun st => (Panic, st).
Definition gets {A} (f : State -> A) : M A := fun st => (Ok (f st), st).
Definition modify (f : State -> State) : M unit := fun st => (Ok tt, f st).
Definition emit (ev : Event) : M unit :=
  modify (fun st => withTrace (trace st ++ [ev]) st).
Definition logf (l : LogLine) : M unit := emit (EvLog l).

(** [if err != nil { return errors.Wrap(err, 0) }] around a call. *)
Definition wrap {A} (m : M A) : M A :=
  fun st =>
    match m st with
    | (Err e, st') => (Err (Wrap e), st')
    | r => r
    end.

#[global] Instance M_ret : MRet M := @ret.
#[global] Instance M_bind : MBind M := fun A B k m => bind m k.

(** *** Sink and writer operations *)

Definition sinkCall (c : SinkCall) : M unit :=
  fun st =>
    if faulty (sink st) c
    then (Err (ErrSink c), withTrace (trace st ++ [EvSink c false]) st)
    else (Ok tt, withTrace (trace st ++ [EvSink c true])
                   (withSink (applyCall c (sink st)) st)).

Definition Preallocate (e : Entry) : M unit := sinkCall (CallPreallocate e).
Definition Mkdir (e : Entry) : M unit := sinkCall (CallMkdir e).
Definition Symlink (e : Entry) (linkname : string) : M unit :=
  sinkCall (CallSymlink e linkname).

(** A writer is positioned where the entry's [WriteOffset] says. *)
Record EntryWriter := { writerPath : string; writerOffset : Z }.

Definition GetWriter (e : Entry) : M EntryWriter :=
  sinkCall (CallGetWriter e);;
  mret {| writerPath := CanonicalPath e; writerOffset := WriteOffset e |}.

(** [Write] returns the number of bytes written and moves the writer. *)
Definition Write (w : EntryWriter) (p : list byte) : M (Z * EntryWriter) :=
  sinkCall (CallWrite (writerPath w) (writerOffset w) p);;
  let n := Z.of_nat (length p) in
  mret (n, {| writerPath := writerPath w;
              writerOffset := writerOffset w + n |}).

Definition Sync (w : EntryWriter) : M unit := sinkCall (CallSync (writerPath w)).

(** *** Save consumer operations *)

Definition ShouldSave (n : Z) : M bool :=
  fun st =>
    let sc := saveConsumer st in
    let b := default false (head (shouldSaveScript sc)) in
    (Ok b, withTrace (trace st ++ [EvShouldSave n b])
             (withSaveConsumer
                {| shouldSaveScript := tail (shouldSaveScript sc);
                   saveScript := saveScript sc |} st)).

(** [Save] receives the checkpoint as it is at the time of the call. *)
Definition Save (c : ExtractorCheckpoint) : M AfterSaveAction :=
  fun st =>
    let sc := saveConsumer st in
    let a := default (SaveAction AfterSaveContinue) (head (saveScript sc)) in
    let st' := withTrace (trace st ++ [EvSave c a])
                 (withSaveConsumer
                    {| shouldSaveScript := shouldSaveScript sc;
                       saveScript := tail (saveScript sc) |} st) in
    match a with
    | SaveAction act => (Ok act, st')
    | SaveFails => (Err ErrSave, st')
    end.

(** *** Sources

    Modelled from the spec: a Source produces the bytes of one member in
    sequence and can be resumed.  The raw strategy resumes at any offset;
    the decompressing strategy only at a block boundary, so the checkpoint
    it hands out names the last boundary at or before the offset it has
    produced.  [srcBlocks] is [None] for the raw strategy. *)
Record Source := {
  srcData : list byte;
  srcBlocks : option (list Z);
  srcOffset : Z;
  srcWantSave : bool
}.

Definition withOffset (o : Z) (s : Source) : Source :=
  {| srcData := srcData s; srcBlocks := srcBlocks s; srcOffset := o;
     srcWantSave := srcWantSave s |}.
Definition withWantSave (b : bool) (s : Source) : Source :=
  {| srcData := srcData s; srcBlocks := srcBlocks s;
     srcOffset := srcOffset s; srcWantSave := b |}.

Definition lastBoundary (bs : list Z) (o : Z) : Z :=
  foldr Z.max 0 (filter (λ b, 0 ≤ b ≤ o) bs).

(** The offset of the checkpoint a source hands out when asked to save. *)
Definition savePoint (src : Source) : Z :=
  match srcBlocks src with
  | None => srcOffset src
  | Some bs => lastBoundary bs (srcOffset src)
  end.

Definition validOffset (src : Source) (off : Z) : bool :=
  bool_decide (0 ≤ off ≤ Z.of_nat (length (srcData src)))
  && match srcBlocks src with
     | None => true
     | Some bs => bool_decide (off = 0 ∨ off ∈ bs)
     end.

(** [src.Resume(checkpoint)]: the offset the source will produce from
    next, or a decode error for a checkpoint that does not fit it. *)
Definition SourceResume (src : Source) (sc : option SourceCheckpoint)
    : M (Z * Source) :=
  match sc with
  | None =>
      emit (EvSourceResume None (Some 0));;
      mret (0, withOffset 0 src)
  | Some c =>
      if validOffset src (Offset c)
      then emit (EvSourceResume sc (Some (Offset c)));;
           mret (Offset c, withOffset (Offset c) src)
      else emit (EvSourceResume sc None);;
           raise ErrDecode
  end.

(** Modelled from the spec: [savior.DiscardByRead(src, delta)] reads
    [delta] bytes from the source and drops them; it fails when the source
    ends before. *)
Definition DiscardByRead (src : Source) (delta : Z) : M Source :=
  let avail := Z.of_nat (length (srcData src)) - srcOffset src in
  let n := Z.max 0 delta in
  if n <=? avail
  then emit (EvDiscard n);; mret (withOffset (srcOffset src + n) src)
  else emit (EvDiscard (Z.max 0 avail));; raise ErrUnexpectedEOF.

(** *** Reading in chunks *)

Fixpoint chunksFrom (size : nat) (fuel : nat) (l : list byte)
    : list (list byte) :=
  match fuel with
  | O => []
  | S fuel' =>
      match l with
      | [] => []
      | _ => take size l :: chunksFrom size fuel' (drop size l)
      end
  end.

(** The successive results of [Read] on a buffer of [size] bytes. *)
Definition chunks (size : positive) (l : list byte) : list (list byte) :=
  chunksFrom (Pos.to_nat size) (length l) l.

(** [io.Copy(writer, rc)]: its buffer holds 32 KiB. *)
Definition ioCopyBufferSize : positive := 32768.

Fixpoint ioCopyLoop (chs : list (list byte)) (w : EntryWriter) : M unit :=
  match chs with
  | [] => mret tt
  | c :: rest => '(_, w') ← Write w c; ioCopyLoop rest w'
  end.

Definition ioCopy (w : EntryWriter) (rc : list byte) : M unit :=
  ioCopyLoop (chunks ioCopyBufferSize rc) w.

(** *** The copier

    Modelled from the spec: the Copier moves the bytes of one entry from a
    Source to a writer, chunk by chunk.  After each chunk it adds the
    number of bytes written to the entry's [WriteOffset] and emits
    progress; it asks the save consumer whether to save and, if so, the
    source serves the request at its next read by calling the registered
    callback.  A stop request is seen between chunks only. *)
Section Copier.

(** The size of the copy buffer. *)
Variable bufSize : positive.

(** [params.Entry.WriteOffset += int64(m)]; the entry is the one the
    checkpoint points to. *)
Definition advanceWriteOffset (m : Z) (st : State) : State :=
  withCheckpoint
    (withEntry
       ((fun e => withWriteOffset (add64 (WriteOffset e) (int64 m)) e)
          <$> Entry_ (checkpoint st))
       (checkpoint st)) st.

(** The start of [Src.Read]: a pending save request is served first,
    through the callback given to [SetSourceSaveConsumer]. *)
Definition serveSave (onSave : option SourceCheckpoint -> M unit)
    (src : Source) : M Source :=
  if srcWantSave src
  then onSave (Some {| Offset := savePoint src |});;
       mret (withWantSave false src)
  else mret src.

(** One chunk: write it, count it, emit progress, ask whether to save. *)
Definition copyChunk (emitProgress : M unit) (c : list byte)
    (src : Source) (w : EntryWriter) : M (Source * EntryWriter) :=
  '(m, w') ← Write w c;
  modify (advanceWriteOffset m);;
  emitProgress;;
  save ← ShouldSave (Z.of_nat (length c));
  mret (withWantSave (save || srcWantSave src)
          (withOffset (srcOffset src + Z.of_nat (length c)) src), w').

Fixpoint copyLoop (onSave : option SourceCheckpoint -> M unit)
    (emitProgress : M unit) (chs : list (list byte)) (src : Source)
    (w : EntryWriter) : M unit :=
  stop ← gets copierStop;
  if (stop : bool) then mret tt
  else
    src ← serveSave onSave src;
    match chs with
    | [] => mret tt
    | c :: rest =>
        '(src', w') ← copyChunk emitProgress c src w;
        copyLoop onSave emitProgress rest src' w'
    end.

Definition CopierDo (onSave : option SourceCheckpoint -> M unit)
    (emitProgress : M unit) (src : Source) (w : EntryWriter) : M unit :=
  copyLoop onSave emitProgress
    (chunks bufSize (drop (Z.to_nat (srcOffset src)) (srcData src)))
    src w.

End Copier.

End savior.

Import savior.

Module seeksource.
(** Modelled from the spec: the raw strategy, a window over the member's
    data section. *)
Definition NewWithSize (section : list byte) : Source :=
  {| srcData := section; srcBlocks := None; srcOffset := 0;
     srcWantSave := false |}.
End seeksource.

Module flatesource.
(** Modelled from the spec: the decompressing strategy over a raw source;
    it produces the decoded stream and resumes at [blocks] only. *)
Definition New (decoded : Source) (blocks : list Z) : Source :=
  {| srcData := srcData decoded; srcBlocks := Some blocks; srcOffset := 0;
     srcWantSave := false |}.
End flatesource.

(** ** The zip extractor *)

Module zipextractor.

Definition defaultFlateThreshold : Z := 1 * 1024 * 1024.

(** The archive reader stands for [zr] (and for [reader], whose bytes the
    payloads of the members are); the trace of the run stands for
    [consumer]. *)
Record ZipExtractor := {
  zr : list zip.File;
  saveConsumer : SaveConsumer;
  flateThreshold : Z
}.

Definition New (files : list zip.File) : ZipExtractor :=
  {| zr := files; saveConsumer := NopSaveConsumer; flateThreshold := 0 |}.

Definition SetSaveConsumer (sc : SaveConsumer) (ze : ZipExtractor) :=
  {| zr := zr ze; saveConsumer := sc; flateThreshold := flateThreshold ze |}.

Definition SetFlateThreshold (t : Z) (ze : ZipExtractor) :=
  {| zr := zr ze; saveConsumer := saveConsumer ze; flateThreshold := t |}.

Definition FlateThreshold (ze : ZipExtractor) : Z :=
  if flateThreshold ze >? 0 then flateThreshold ze
  else defaultFlateThreshold.

Definition zipFileEntry (zf : zip.File) : Entry :=
  let mode := zip.Mode zf in
  {| CanonicalPath := ToSlash (zip.Name zf);
     CompressedSize := int64 (zip.CompressedSize64 zf);
     UncompressedSize := int64 (zip.UncompressedSize64 zf);
     Mode := mode;
     Kind := if negb (Z.land mode ModeDir =? 0) then EntryKindDir
             else if Z.land mode ModeSymlink >? 0 then EntryKindSymlink
             else EntryKindFile;
     WriteOffset := 0 |}.

(** The first loop of [Resume]: [(doneBytes, totalBytes)] after the
    members from index [i] on.  The index is a Go [int], within the
    slice, and [int64(i)] is its value. *)
Fixpoint countBytes (files : list zip.File) (i entryIndex : Z)
    (acc : Z * Z) : Z * Z :=
  match files with
  | [] => acc
  | zf :: rest =>
      let size := int64 (zip.UncompressedSize64 zf) in
      countBytes rest (i + 1) entryIndex
        (if i <? entryIndex then add64 acc.1 size else acc.1,
         add64 acc.2 size)
  end.

(** The pre-allocation loop. *)
Fixpoint preallocateAll (files : list zip.File) : M unit :=
  match files with
  | [] => mret tt
  | zf :: rest =>
      let entry := zipFileEntry zf in
      match Kind entry with
      | EntryKindFile => wrap (Preallocate entry)
      | _ => mret tt
      end;;
      preallocateAll rest
  end.

(** [zf.DataOffset()] and [zf.Open()]. *)
Definition DataOffset (zf : zip.File) : M unit :=
  if zip.DataOffsetFails zf then raise ErrDataOffset else mret tt.
Definition Open (zf : zip.File) : M (list byte) :=
  if zip.OpenFails zf then raise ErrOpen else mret (zip.Payload zf).

(** [entry := checkpoint.Entry]: the entry is read through the checkpoint
    each time, as the pointer is in the source. *)
Definition currentEntry : M Entry :=
  ck ← gets checkpoint;
  match Entry_ ck with
  | Some e => mret e
  | None => panic
  end.

Definition setWriteOffset (w : Z) (st : State) : State :=
  withCheckpoint
    (withEntry (withWriteOffset w <$> Entry_ (checkpoint st))
       (checkpoint st)) st.

Section Extractor.

Variable bufSize : positive.

(** [computeProgress] of the source. *)
Definition computeProgress (totalBytes : Z) : M float64 :=
  entry ← currentEntry;
  done ← gets doneBytes;
  let actualDoneBytes := add64 done (WriteOffset entry) in
  mret (float64_div actualDoneBytes totalBytes).

(** The [OnSave] callback given to [SetSourceSaveConsumer]. *)
Definition OnSave (writer : EntryWriter) (totalBytes : Z)
    (sourceCheckpoint : option SourceCheckpoint) : M unit :=
  entry ← currentEntry;
  logf (LogSaving (CanonicalPath entry)
          (bool_decide (is_Some sourceCheckpoint)));;
  match sourceCheckpoint with
  | Some sc => logf (LogSourceCheckpointAt (CanonicalPath entry) (Offset sc))
  | None => mret tt
  end;;
  modify (fun st =>
    withCheckpoint (withSourceCheckpoint sourceCheckpoint (checkpoint st)) st);;
  wrap (Sync writer);;
  p ← computeProgress totalBytes;
  modify (fun st => withCheckpoint (withProgress p (checkpoint st)) st);;
  ck ← gets checkpoint;
  action ← wrap (Save ck);
  match action with
  | AfterSaveStop => modify (withStop (Some ErrStop) true)
  | AfterSaveContinue => mret tt
  end.

(** The [EmitProgress] callback of the copy parameters. *)
Definition EmitProgress (totalBytes : Z) : M unit :=
  p ← computeProgress totalBytes;
  emit (EvProgress p).

(** The choice of a source, by storage method: [None] stands for the
    [nil] source of a method that can be neither saved nor resumed. *)
Definition openSource (zf : zip.File) : M (option Source) :=
  if (zip.Method zf =? zip.Store) || (zip.Method zf =? zip.Deflate)
  then
    wrap (DataOffset zf);;
    let rawSource := seeksource.NewWithSize (zip.Payload zf) in
    if zip.Method zf =? zip.Store then mret (Some rawSource)
    else mret (Some (flatesource.New rawSource (zip.Blocks zf)))
  else mret None.

(** The branch [src == nil]: a plain copy of the whole member. *)
Definition copyFallback (zf : zip.File) : M unit :=
  modify (setWriteOffset 0);;
  rc ← wrap (Open zf);
  entry ← currentEntry;
  writer ← wrap (GetWriter entry);
  wrap (ioCopy writer rc).

(** The branch with a source: resume it, align it with the writer,
    and drive the copier. *)
Definition copyResumable (src : Source) (entry : Entry)
    (sourceCheckpoint : option SourceCheckpoint) (totalBytes : Z)
    : M unit :=
  '(offset, src) ← wrap (SourceResume src sourceCheckpoint);
  src ← (if offset <? WriteOffset entry
         then
           let delta := sub64 (WriteOffset entry) offset in
           logf (LogDiscarding (CanonicalPath entry) delta);;
           logf (LogSourceResumedAt (CanonicalPath entry) offset
                   (WriteOffset entry));;
           wrap (DiscardByRead src delta)
         else mret src);
  logf (LogResumingFrom (CanonicalPath entry) (WriteOffset entry));;
  writer ← wrap (GetWriter entry);
  wrap (CopierDo bufSize (OnSave writer totalBytes)
          (EmitProgress totalBytes) src writer).

(** The body of the closure that [Resume] runs for each entry. *)
Definition extractEntry (zf : zip.File) (entryIndex totalBytes : Z)
    : M unit :=
  modify (fun st =>
    withCheckpoint (withEntryIndex entryIndex (checkpoint st)) st);;
  ck ← gets checkpoint;
  match Entry_ ck with
  | None =>
      modify (fun st =>
        withCheckpoint
          (withEntry (Some (zipFileEntry zf)) (checkpoint st)) st)
  | Some _ => mret tt
  end;;
  entry ← currentEntry;
  logf (LogEntry entry);;
  match Kind entry with
  | EntryKindDir => wrap (Mkdir entry)
  | EntryKindSymlink =>
      linkname ← wrap (Open zf);
      wrap (Symlink entry (string_of_list_byte linkname))
  | EntryKindFile =>
      src ← openSource zf;
      match src with
      | None => copyFallback zf
      | Some src =>
          copyResumable src entry (SourceCheckpoint_ ck) totalBytes
      end
  end;;
  modify (fun st =>
    withDoneBytes (add64 (doneBytes st) (int64 (zip.UncompressedSize64 zf)))
      st).

(** The entry loop, over the members from [entryIndex] on. *)
Fixpoint entryLoop (files : list zip.File) (entryIndex totalBytes : Z)
    : M unit :=
  match files with
  | [] => mret tt
  | zf :: rest =>
      stop ← gets stopError;
      match stop with
      | Some _ => mret tt
      | None =>
          logf (LogDoingEntryIndex entryIndex);;
          wrap (extractEntry zf entryIndex totalBytes);;
          modify (fun st =>
            withCheckpoint
              (withEntry None
                 (withSourceCheckpoint None (checkpoint st))) st);;
          entryLoop rest (entryIndex + 1) totalBytes
      end
  end.

(** The loop starts at [checkpoint.EntryIndex]; indexing [zr.File] with
    a negative index panics. *)
Definition runEntries (files : list zip.File) (start totalBytes : Z)
    : M unit :=
  if start <? 0
  then logf (LogDoingEntryIndex start);; panic
  else entryLoop (drop (Z.to_nat start) files) start totalBytes.

(** The end of [Resume]: the stop sentinel, or the result that lists
    every entry of the archive. *)
Definition finishResume (files : list zip.File) : M ExtractorResult :=
  stop ← gets stopError;
  match stop with
  | Some _ => raise ErrStop
  | None =>
      let entries := zipFileEntry <$> files in
      logf (LogExtracted entries);;
      mret {| Entries := entries |}
  end.

Definition resumeBody (files : list zip.File) (isFresh : bool)
    : M ExtractorResult :=
  ck ← gets checkpoint;
  (if isFresh then logf LogStartingFresh
   else logf (LogResuming (Progress ck)));;
  let counted := countBytes files 0 (EntryIndex ck) (0, 0) in
  let totalBytes := counted.2 in
  modify (withDoneBytes counted.1);;
  (if isFresh
   then logf (LogPreallocating totalBytes);;
        preallocateAll files;;
        logf LogPreallocated
   else mret tt);;
  runEntries files (EntryIndex ck) totalBytes;;
  finishResume files.

(** [Resume(checkpoint, sink)].  The result comes with the final state:
    the sink, the consumer, the trace, and the checkpoint object as the
    run left it. *)
Definition Resume (ze : ZipExtractor)
    (checkpoint : option ExtractorCheckpoint) (sink : Sink)
    : res ExtractorResult * State :=
  let isFresh := match checkpoint with None => true | Some _ => false end in
  let ck := default {| EntryIndex := 0; Progress := Fin 0;
                       Entry_ := None; SourceCheckpoint_ := None |}
              checkpoint in
  resumeBody (zr ze) isFresh
    {| sink := sink; savior.saveConsumer := saveConsumer ze; trace := [];
       savior.checkpoint := ck; doneBytes := 0; stopError := None;
       copierStop := false |}.

End Extractor.

End zipextractor.

Import zipextractor.

Arguments int64 : simpl never.
Arguments add64 : simpl never.
Arguments sub64 : simpl never.
Arguments float64_div : simpl never.
Arguments applyCall : simpl never.
Arguments write_at : simpl never.
Arguments chunks : simpl never.
Arguments lastBoundary : simpl never.
Arguments Wrap : simpl never.
Arguments zipFileEntry : simpl never.

(** ** Observations on a run *)

(** The source that [Resume] builds for a member stored or deflated. *)
Definition entrySource (zf : zip.File) : Source :=
  if zip.Method zf =? zip.Store
  then seeksource.NewWithSize (zip.Payload zf)
  else flatesource.New (seeksource.NewWithSize (zip.Payload zf)) (zip.Blocks zf).

Definition resumable (zf : zip.File) : bool :=
  (zip.Method zf =? zip.Store) || (zip.Method zf =? zip.Deflate).

Definition isFileKind (e : Entry) : bool :=
  match Kind e with EntryKindFile => true | _ => false end.

(** The entries handed to [Preallocate], in order. *)
Definition preallocations (t : list Event) : list Entry :=
  omap (λ ev, match ev with
              | EvSink (CallPreallocate e) _ => Some e
              | _ => None
              end) t.



Definition isDiscard (ev : Event) : bool :=
  match ev with EvDiscard _ => true | _ => false end.

Definition isSave (ev : Event) : bool :=
  match ev with EvSave _ _ => true | _ => false end.

Definition isStopAnswer (ev : Event) : bool :=
  match ev with EvSave _ (SaveAction AfterSaveStop) => true | _ => false end.

(** The indices announced by "doing entryIndex", in order. *)
Definition doingIndices (t : list Event) : list Z :=
  omap (λ ev, match ev with
              | EvLog (LogDoingEntryIndex i) => Some i
              | _ => None
              end) t.

(** The checkpoints offered to the save consumer, and the last of them. *)
Definition savedCheckpoints (t : list Event) : list ExtractorCheckpoint :=
  omap (λ ev, match ev with EvSave c _ => Some c | _ => None end) t.

Definition lastSaved (t : list Event) : option ExtractorCheckpoint :=
  last (savedCheckpoints t).

(** The progress values of a run: those given to [consumer.Progress] and
    those recorded in the checkpoints offered. *)
Definition progressReports (t : list Event) : list float64 :=
  omap (λ ev, match ev with
              | EvProgress p => Some p
              | EvSave c _ => Some (Progress c)
              | _ => None
              end) t.

Arguments preallocations : simpl never.
Arguments doingIndices : simpl never.
Arguments savedCheckpoints : simpl never.
Arguments progressReports : simpl never.


(** What the entry loop may emit: all but the lines and calls of the
    prologue and epilogue of [Resume]. *)
Definition loopEvent (ev : Event) : Prop :=
  match ev with
  | EvSink (CallPreallocate _) _ => False
  | EvLog LogStartingFresh | EvLog (LogResuming _)
  | EvLog (LogPreallocating _) | EvLog LogPreallocated
  | EvLog (LogExtracted _) => False
  | _ => True
  end.

(** What the closure of one entry may emit. *)
Definition entryEvent (ev : Event) : Prop :=
  loopEvent ev ∧
  match ev with EvLog (LogDoingEntryIndex _) => False | _ => True end.

(** Every computation only appends to the trace; [emits P m] says that
    what [m] appends satisfies [P]. *)
Definition emits (P : Event → Prop) {A} (m : M A) : Prop :=
  ∀ st, ∃ evs, trace (m st).2 = trace st ++ evs ∧ Forall P evs.

(** ** Example archives *)

Definition mkFile (name : string) (method size mode : Z)
    (payload : list byte) (blocks : list Z) : zip.File :=
  {| zip.Name := name; zip.Method := method; zip.CompressedSize64 := size;
     zip.UncompressedSize64 := size; zip.Mode := mode;
     zip.Payload := payload; zip.Blocks := blocks;
     zip.DataOffsetFails := false; zip.OpenFails := false |}.

(** "a.txt", stored, holding "abcde". *)
Definition ex_a : zip.File :=
  mkFile "a.txt" zip.Store 5 420 [x61; x62; x63; x64; x65] [].
(** "b/", a directory. *)
Definition ex_b : zip.File := mkFile "b/" zip.Store 0 (ModeDir + 493) [] [].
(** "c.bin", deflated, six bytes, one block boundary at offset 3. *)
Definition ex_c : zip.File :=
  mkFile "c.bin" zip.Deflate 6 420 [x01; x02; x03; x04; x05; x06] [3].
(** "l", a symbolic link to "a". *)
Definition ex_l : zip.File :=
  mkFile "l" zip.Store 1 (ModeSymlink + 511) [x61] [].
(** "z", three bytes in LZMA (method 14). *)
Definition ex_z : zip.File := mkFile "z" 14 3 420 [x07; x08; x09] [].

Definition ex_sink : Sink :=
  {| files := ∅; dirs := ∅; links := ∅; faulty := λ _, false |}.


(** The calls of a pre-allocation pass that meets no failure. *)
Definition preallocEvents (files : list zip.File) : list Event :=
  (λ e, EvSink (CallPreallocate e) true)
    <$> List.filter isFileKind (zipFileEntry <$> files).

Definition totalBytesOf (files : list zip.File) : Z :=
  (countBytes files 0 0 (0, 0)).2.

(** The state in which a run over a checkpoint enters the entry loop, and
    the state in which a fresh run starts to pre-allocate. *)
Definition resumedState (ze : ZipExtractor) (ck : ExtractorCheckpoint)
    (sink : Sink) : State :=
  {| sink := sink; savior.saveConsumer := saveConsumer ze;
     trace := [EvLog (LogResuming (Progress ck))];
     checkpoint := ck;
     doneBytes := (countBytes (zr ze) 0 (EntryIndex ck) (0, 0)).1;
     stopError := None; copierStop := false |}.

Definition freshCheckpoint : ExtractorCheckpoint :=
  {| EntryIndex := 0; Progress := Fin 0; Entry_ := None;
     SourceCheckpoint_ := None |}.

Definition freshState (ze : ZipExtractor) (sink : Sink) : State :=
  {| sink := sink; savior.saveConsumer := saveConsumer ze;
     trace := [EvLog LogStartingFresh;
               EvLog (LogPreallocating (totalBytesOf (zr ze)))];
     checkpoint := freshCheckpoint;
     doneBytes := (countBytes (zr ze) 0 0 (0, 0)).1;
     stopError := None; copierStop := false |}.

(** The sum of the uncompressed sizes of some members, as [int64] values
    added without wrap-around. *)
Definition sumSizes (files : list zip.File) : Z :=
  foldr Z.add 0 ((λ zf, int64 (zip.UncompressedSize64 zf)) <$> files).

Definition notDoing (ev : Event) : Prop :=
  match ev with EvLog (LogDoingEntryIndex _) => False | _ => True end.

(** The offset [src.Resume] answers with, when it accepts the checkpoint. *)
Definition resumeOffset (src : Source) (sc : option SourceCheckpoint)
    : option Z :=
  match sc with
  | None => Some 0
  | Some c => if validOffset src (Offset c) then Some (Offset c) else None
  end.




(** ** Stopping *)

(** No save so far was answered with the stop verdict. *)
Definition unstopped (t : list Event) : Prop :=
  Forall (λ ev, isStopAnswer ev = false) t.

(** An event that neither starts an entry nor offers a checkpoint. *)
Definition quietEvent (ev : Event) : Prop :=
  notDoing ev ∧ isSave ev = false.

(** One save was answered with the stop verdict, and since then no entry
    was started and no checkpoint offered. *)
Definition stoppedTrace (t : list Event) : Prop :=
  ∃ pre c post,
    t = pre ++ EvSave c (SaveAction AfterSaveStop) :: post
    ∧ unstopped pre ∧ Forall quietEvent post.






(** [keeps m]: [m] leaves the stop request and the failures of the sink as
    they are. *)
Definition keeps {A} (m : M A) : Prop :=
  ∀ st, stopError (m st).2 = stopError st
        ∧ copierStop (m st).2 = copierStop st
        ∧ faulty (sink (m st).2) = faulty (sink st).

(** The state in which the closure of an entry reaches its [switch]: the
    checkpoint holds the index and the entry, and the entry is logged. *)
Definition enteredEntry (zf : zip.File) (st : State) : Entry :=
  default (zipFileEntry zf) (Entry_ (checkpoint st)).

Definition entered (zf : zip.File) (entryIndex : Z) (st : State) : State :=
  {| sink := sink st; savior.saveConsumer := savior.saveConsumer st;
     trace := trace st ++ [EvLog (LogEntry (enteredEntry zf st))];
     checkpoint :=
       withEntry (Some (enteredEntry zf st))
         (withEntryIndex entryIndex (checkpoint st));
     doneBytes := doneBytes st; stopError := stopError st;
     copierStop := copierStop st |}.

(** The [switch] of the closure, for the entry [e]. *)
Definition entryBody (bufSize : positive) (zf : zip.File) (e : Entry)
    (sc : option SourceCheckpoint) (totalBytes : Z) : M unit :=
  match Kind e with
  | EntryKindDir => wrap (Mkdir e)
  | EntryKindSymlink =>
      linkname ← wrap (Open zf);
      wrap (Symlink e (string_of_list_byte linkname))
  | EntryKindFile =>
      src ← openSource zf;
      match src with
      | None => copyFallback zf
      | Some src => copyResumable bufSize src e sc totalBytes
      end
  end.

Definition countEntry (zf : zip.File) (st : State) : State :=
  withDoneBytes (add64 (doneBytes st) (int64 (zip.UncompressedSize64 zf))) st.

(** What the closure of an entry emits outside the save callback. *)
Definition plainEvent (ev : Event) : Prop :=
  entryEvent ev ∧ isSave ev = false.




(** An extractor over "a.txt" whose consumer asks to save after the first
    chunk and answers the save with the stop verdict. *)
Definition ex_stopper : ZipExtractor :=
  SetSaveConsumer
    {| shouldSaveScript := [true];
       saveScript := [SaveAction AfterSaveStop] |}
    (New [ex_a]).

(** The checkpoint offered at that save: two bytes of "a.txt" written, the
    raw source at offset 2. *)
Definition ex_ckStop : ExtractorCheckpoint :=
  {| EntryIndex := 0; Progress := Fin (2 # 5);
     Entry_ := Some (withWriteOffset 2 (zipFileEntry ex_a));
     SourceCheckpoint_ := Some {| Offset := 2 |} |}.


Fixpoint writeAll (path : string) (off : Z) (chs : list (list byte))
    (s : Sink) : Sink :=
  match chs with
  | [] => s
  | c :: rest =>
      writeAll path (off + Z.of_nat (length c)) rest
        (applyCall (CallWrite path off c) s)
  end.

(** ** What an extraction leaves in the sink *)

(** The effect of one entry extracted in full. *)
Definition entryEffect (zf : zip.File) (s : Sink) : Sink :=
  let e := zipFileEntry zf in
  match Kind e with
  | EntryKindDir => applyCall (CallMkdir e) s
  | EntryKindSymlink =>
      applyCall (CallSymlink e (string_of_list_byte (zip.Payload zf))) s
  | EntryKindFile =>
      applyCall (CallWrite (CanonicalPath e) 0 (zip.Payload zf))
        (applyCall (CallGetWriter e) s)
  end.

(** The effect of the entries [zfs], in order. *)
Definition extracted (zfs : list zip.File) (s : Sink) : Sink :=
  foldl (λ s zf, entryEffect zf s) s zfs.

(** The effect of a file entry whose first [x] bytes are written. *)
Definition partlyWritten (zf : zip.File) (x : Z) (s : Sink) : Sink :=
  let e := zipFileEntry zf in
  applyCall (CallWrite (CanonicalPath e) 0 (take (Z.to_nat x) (zip.Payload zf)))
    (applyCall (CallGetWriter e) s).

(** The effect of the pre-allocation pass. *)
Definition preallocated (zfs : list zip.File) (s : Sink) : Sink :=
  foldl (λ s zf, if isFileKind (zipFileEntry zf)
                 then applyCall (CallPreallocate (zipFileEntry zf)) s
                 else s) s zfs.

(** The checkpoint [ck] is one for the file entry [zf] at index [i],
    written up to [w]: it holds the index, the entry with [w] as its
    [WriteOffset], and a source checkpoint that the source of [zf] accepts,
    at or before [w]. *)
Definition fits (zf : zip.File) (i : nat) (ck : ExtractorCheckpoint)
    (w : Z) : Prop :=
  ∃ p : Z,
    EntryIndex ck = Z.of_nat i
    ∧ Entry_ ck = Some (withWriteOffset w (zipFileEntry zf))
    ∧ SourceCheckpoint_ ck = Some {| Offset := p |}
    ∧ resumeOffset (entrySource zf) (Some {| Offset := p |}) = Some p
    ∧ p ≤ w.

(** A checkpoint [ck] and a sink [s] that fit each other, over the archive
    [zfs] and the sink [B] the extraction started from (after the
    pre-allocation): the entries before the index of [ck] are extracted,
    the entry at the index is a stored or deflated file, and at least its
    first [WriteOffset] bytes are written. *)
Definition consistent (zfs : list zip.File) (B : Sink)
    (ck : ExtractorCheckpoint) (s : Sink) : Prop :=
  ∃ (i : nat) (zf : zip.File) (w x : Z),
    zfs !! i = Some zf
    ∧ Kind (zipFileEntry zf) = EntryKindFile
    ∧ resumable zf = true
    ∧ fits zf i ck w
    ∧ w ≤ x ∧ x ≤ Z.of_nat (length (zip.Payload zf))
    ∧ s = partlyWritten zf x (extracted (take i zfs) B).

(** The state of the copier in the middle of the file entry [zf] at index
    [i]: source and writer are at [w], the first [x] bytes of the file are
    in the sink, and if a stop was requested the checkpoint last offered
    fits what is written. *)
Definition copying (zfs : list zip.File) (B : Sink) (i : nat)
    (zf : zip.File) (w x : Z) (src : Source) (wr : EntryWriter)
    (st : State) : Prop :=
  EntryIndex (checkpoint st) = Z.of_nat i
  ∧ Entry_ (checkpoint st) = Some (withWriteOffset w (zipFileEntry zf))
  ∧ srcData src = zip.Payload zf
  ∧ srcBlocks src = srcBlocks (entrySource zf)
  ∧ srcOffset src = w
  ∧ writerPath wr = CanonicalPath (zipFileEntry zf)
  ∧ writerOffset wr = w
  ∧ 0 ≤ w ∧ w ≤ x ∧ x ≤ Z.of_nat (length (zip.Payload zf))
  ∧ sink st = partlyWritten zf x (extracted (take i zfs) B)
  ∧ ((stopError st = None ∧ copierStop st = false)
     ∨ (stopError st = Some ErrStop ∧ copierStop st = true
        ∧ ∃ ck ws, lastSaved (trace st) = Some ck
                   ∧ fits zf i ck ws ∧ ws ≤ x)).

(** The outcome of a piece of the run that returns normally: either no stop
    was requested and the sink is [done], or the run is stopped and the
    checkpoint last offered fits the sink. *)
Definition copyOutcome (zfs : list zip.File) (B done : Sink)
    (out : res unit * State) : Prop :=
  out.1 = Ok tt →
  (stopError out.2 = None ∧ copierStop out.2 = false ∧ sink out.2 = done)
  ∨ (stopError out.2 = Some ErrStop ∧ copierStop out.2 = true
     ∧ ∃ ck, lastSaved (trace out.2) = Some ck
             ∧ consistent zfs B ck (sink out.2)).

(** An extraction interrupted any number of times: each run but the last
    returns the stop sentinel, and the next run is given the checkpoint
    last offered and the sink as the run left it; the last run returns a
    result.  The runs share the archive; each has its own save consumer. *)
Inductive interrupted (bufSize : positive) (zfs : list zip.File)
    : option ExtractorCheckpoint → Sink → Sink → Prop :=
| interrupted_done ze ck s r :
    zr ze = zfs →
    (Resume bufSize ze ck s).1 = Ok r →
    interrupted bufSize zfs ck s (sink (Resume bufSize ze ck s).2)
| interrupted_stop ze ck s ck' s' :
    zr ze = zfs →
    (Resume bufSize ze ck s).1 = Err ErrStop →
    lastSaved (trace (Resume bufSize ze ck s).2) = Some ck' →
    interrupted bufSize zfs (Some ck') (sink (Resume bufSize ze ck s).2) s' →
    interrupted bufSize zfs ck s s'.

(** The payload of every member is shorter than 2^63 bytes, so that the
    [int64] write offsets do not wrap around. *)
Definition payloadsFit (zfs : list zip.File) : Prop :=
  Forall (λ zf, Z.of_nat (length (zip.Payload zf)) < 2 ^ 63) zfs.

(** The outcome of a run of [Resume] over the archive [zfs], the sink being
    [B] after the pre-allocation: a run that returns a result has extracted
    every entry; a run that returns the stop sentinel has offered a
    checkpoint that fits the sink it leaves. *)
Definition runOutcome (zfs : list zip.File) (B : Sink)
    (out : res ExtractorResult * State) : Prop :=
  match out.1 with
  | Ok _ => sink out.2 = extracted zfs B
  | Err ErrStop =>
      ∃ ck, lastSaved (trace out.2) = Some ck
            ∧ consistent zfs B ck (sink out.2)
  | _ => True
  end.

(** ** Progress *)

(** A progress value within [0, 1]; the order of two values; the value 1. *)
Definition inUnit (p : float64) : Prop :=
  match p with Fin q => Qle 0 q ∧ Qle q 1 | _ => False end.

Definition f64_le (p p' : float64) : Prop :=
  match p, p' with Fin q, Fin q' => Qle q q' | _, _ => False end.

Definition isOne (p : float64) : Prop :=
  match p with Fin q => Qeq q 1 | _ => False end.

Definition nondecreasing (ps : list float64) : Prop :=
  ∀ (i j : nat) p p',
    (i ≤ j)%nat → ps !! i = Some p → ps !! j = Some p' → f64_le p p'.

(** The byte counts [ns] climb from [c] to [c']: each is positive, at least
    its predecessor, and the last is at most [c']. *)
Fixpoint climbs (c c' : Z) (ns : list Z) : Prop :=
  match ns with
  | [] => c ≤ c'
  | n :: ns' => c ≤ n ∧ 0 < n ∧ climbs n c' ns'
  end.

(** The last of the byte counts [ns], or [c] if there is none, is [c']. *)
Definition endsAt (c c' : Z) (ns : list Z) : Prop :=
  default c (last ns) = c'.

(** The declared size of a member is a size (of a [uint64] below 2^63), and
    a stored or deflated file has a payload of the declared size. *)
Definition sized (zf : zip.File) : Prop :=
  0 ≤ zip.UncompressedSize64 zf < 2 ^ 63
  ∧ (Kind (zipFileEntry zf) = EntryKindFile → resumable zf = true →
     Z.of_nat (length (zip.Payload zf)) = zip.UncompressedSize64 zf).

Definition wellSized (zfs : list zip.File) : Prop :=
  Forall sized zfs ∧ sumSizes zfs < 2 ^ 63.

(** A member whose bytes are all reported as progress: a stored or deflated
    file, which the copier copies, or a member of size 0. *)
Definition reportsFully (zf : zip.File) : Prop :=
  (Kind (zipFileEntry zf) = EntryKindFile ∧ resumable zf = true)
  ∨ zip.UncompressedSize64 zf = 0.

(** The state of the copier in the middle of the file entry [zf]: [D] bytes
    are counted for the entries before it, [w] bytes of it are written, and
    the total is [T]. *)
Definition reporting (T D : Z) (zf : zip.File) (w : Z) (src : Source)
    (st : State) : Prop :=
  (∃ e, Entry_ (checkpoint st) = Some e ∧ WriteOffset e = w)
  ∧ doneBytes st = D ∧ 0 ≤ D ∧ 0 ≤ w
  ∧ w ≤ Z.of_nat (length (zip.Payload zf))
  ∧ D + Z.of_nat (length (zip.Payload zf)) ≤ T ∧ T < 2 ^ 63
  ∧ srcData src = zip.Payload zf ∧ srcOffset src = w
  ∧ (srcWantSave src = true → 0 < D + w)
  ∧ (copierStop st = true → stopError st ≠ None).

(** The progress that a piece of the run reports, when it returns normally:
    byte counts over the total [T] that climb from [c] to [c'], and that
    end at [c'] if no stop was requested and [fin] holds. *)
Definition reported (T c c' D' : Z) (fin : Prop) (st : State)
    (out : res unit * State) : Prop :=
  out.1 = Ok tt →
  ∃ ns,
    progressReports (trace out.2)
    = progressReports (trace st) ++ ((λ n, float64_div n T) <$> ns)
    ∧ climbs c c' ns
    ∧ doneBytes out.2 = D'
    ∧ (copierStop out.2 = true → stopError out.2 ≠ None)
    ∧ (stopError st ≠ None → stopError out.2 ≠ None)
    ∧ (stopError out.2 = None → fin → endsAt c c' ns).

(** [quiet m]: [m] reports no progress, counts no bytes and leaves the stop
    request as it is. *)
Definition quiet {A} (m : M A) : Prop :=
  ∀ st, progressReports (trace (m st).2) = progressReports (trace st)
        ∧ doneBytes (m st).2 = doneBytes st
        ∧ stopError (m st).2 = stopError st
        ∧ copierStop (m st).2 = copierStop st.

(** The checkpoint a run is given, if any, names a stored or deflated file
    of the archive and fits it, at a write offset within the payload. *)
Definition resumesFrom (zfs : list zip.File)
    (ck : option ExtractorCheckpoint) : Prop :=
  match ck with
  | None => True
  | Some c =>
      ∃ (i : nat) zf w,
        zfs !! i = Some zf
        ∧ Kind (zipFileEntry zf) = EntryKindFile ∧ resumable zf = true
        ∧ fits zf i c w
        ∧ w ≤ Z.of_nat (length (zip.Payload zf))
  end.

(** The index a run starts at, and the bytes counted as done when it
    starts: the sizes of the entries before the index and the write offset
    of the checkpoint's entry. *)
Definition startIndex (ck : option ExtractorCheckpoint) : nat :=
  match ck with None => 0%nat | Some c => Z.to_nat (EntryIndex c) end.

Definition startPosition (zfs : list zip.File)
    (ck : option ExtractorCheckpoint) : Z :=
  match ck with
  | None => 0
  | Some c =>
      sumSizes (take (Z.to_nat (EntryIndex c)) zfs)
      + default 0 (WriteOffset <$> Entry_ c)
  end.

(** The progress of a whole run, as byte counts over the total [T]. *)
Definition runReports (T c0 : Z) (fin : Prop)
    (out : res ExtractorResult * State) : Prop :=
  ∃ ns,
    progressReports (trace out.2) = (λ n, float64_div n T) <$> ns
    ∧ climbs c0 T ns
    ∧ (fin → endsAt c0 T ns).

(** The progress that a piece of the run reports, when it returns normally:
    byte counts over the total [T] that climb from [c] to [c'], the last of
    them being [c'] if no stop was requested and [Q] holds. *)
Definition tailReported (T c c' : Z) (Q : Prop) (st : State)
    (out : res unit * State) : Prop :=
  out.1 = Ok tt →
  ∃ ns,
    progressReports (trace out.2)
    = progressReports (trace st) ++ ((λ n, float64_div n T) <$> ns)
    ∧ climbs c c' ns
    ∧ (stopError st ≠ None → stopError out.2 ≠ None)
    ∧ (stopError out.2 = None → Q → last ns = Some c').

(** The bytes counted as done when a run reaches the entries after
    [front], the entries it extracts first. *)
Definition tailPosition (zfs : list zip.File)
    (ck : option ExtractorCheckpoint) (front : list zip.File) : Z :=
  match front with
  | [] => startPosition zfs ck
  | _ => sumSizes (take (startIndex ck) zfs) + sumSizes front
  end.

(** * Further observations *)

(** [preserves J m]: [m] keeps the state invariant [J]. *)
Definition preserves (J : State → Prop) {A} (m : M A) : Prop :=
  ∀ st, J st → J (m st).2.

(** A stop request is on record only if a save was answered with the stop
    verdict. *)
Definition askedToStop (st : State) : Prop :=
  stopError st = None ∨ Exists (λ ev, isStopAnswer ev = true) (trace st).

(** Every checkpoint is offered right after a successful [Sync]. *)
Definition syncedSaves (t : list Event) : Prop :=
  ∀ (i : nat) c a,
    t !! i = Some (EvSave c a) →
    ∃ (j : nat) path,
      i = S j ∧ t !! j = Some (EvSink (CallSync path) true).

(** A checkpoint whose index is below zero, and one past the end of the
    archive of "a.txt". *)
Definition ex_ckNegative : ExtractorCheckpoint :=
  {| EntryIndex := -1; Progress := Fin 0; Entry_ := None;
     SourceCheckpoint_ := None |}.

Definition ex_ckPast : ExtractorCheckpoint :=
  {| EntryIndex := 1; Progress := Fin 1; Entry_ := None;
     SourceCheckpoint_ := None |}.

(** An event in which the save consumer or a source takes no part. *)
Definition unsavedEvent (ev : Event) : Prop :=
  match ev with
  | EvShouldSave _ _ | EvSave _ _ | EvSourceResume _ _ | EvDiscard _
  | EvProgress _ | EvSink (CallSync _) _ => False
  | _ => True
  end.

(** The canonical paths of the entries of a kind, in archive order. *)
Definition sameKind (k k' : EntryKind) : bool :=
  match k, k' with
  | EntryKindDir, EntryKindDir
  | EntryKindSymlink, EntryKindSymlink
  | EntryKindFile, EntryKindFile => true
  | _, _ => false
  end.

Definition pathsOf (k : EntryKind) (zfs : list zip.File) : list string :=
  omap (λ zf, if sameKind k (Kind (zipFileEntry zf))
              then Some (CanonicalPath (zipFileEntry zf)) else None) zfs.

(** An event of an entry that is started from scratch: a source is resumed
    with no checkpoint and answers offset 0, and nothing is discarded. *)
Definition freshEvent (ev : Event) : Prop :=
  match ev with
  | EvDiscard _ => False
  | EvSourceResume sc offset => sc = None ∧ offset = Some 0
  | _ => True
  end.

(** The error that a failed call leaves behind: a sink operation that
    fails, a [Save] that fails, a source that refuses its checkpoint. *)
Definition failureOf (ev : Event) : option error :=
  match ev with
  | EvSink c false => Some (ErrSink c)
  | EvSave _ SaveFails => Some ErrSave
  | EvSourceResume _ None => Some ErrDecode
  | _ => None
  end.

Definition unwrapped (e : error) : error :=
  match e with
  | Wrapped e' => e'
  | _ => e
  end.

Definition isFailure (e : error) : bool :=
  match unwrapped e with
  | ErrSink _ | ErrSave | ErrDecode => true
  | _ => false
  end.

(** The outcome of a computation that stops at the first failed call:
    either no call failed and the error, if any, is not that of a call;
    or the last event is the one failed call and its error is returned. *)
Definition failFast {A} (out : res A * State) : Prop :=
  (Forall (λ ev, failureOf ev = None) (trace out.2)
   ∧ ∀ e, out.1 = Err e → isFailure e = false)
  ∨ ∃ ev e t,
      failureOf ev = Some e ∧ trace out.2 = t ++ [ev]
      ∧ Forall (λ ev, failureOf ev = None) t
      ∧ ∃ e', out.1 = Err e' ∧ unwrapped e' = e.

Definition failsFast {A} (m : M A) : Prop :=
  ∀ st, Forall (λ ev, failureOf ev = None) (trace st) → failFast (m st).

(** A destination on which every write fails. *)
Definition ex_readOnly : Sink :=
  {| files := ∅; dirs := ∅; links := ∅;
     faulty := λ c, match c with CallWrite _ _ _ => true | _ => false end |}.

(** The path a sink call works on. *)
Definition pathOfCall (c : SinkCall) : string :=
  match c with
  | CallPreallocate e | CallMkdir e | CallSymlink e _ | CallGetWriter e =>
      CanonicalPath e
  | CallWrite path _ _ | CallSync path => path
  end.

(** The sink [s'] holds at the path [q] what [s] holds there. *)
Definition sameAt (q : string) (s s' : Sink) : Prop :=
  files s' !! q = files s !! q
  ∧ (q ∈ dirs s' ↔ q ∈ dirs s)
  ∧ links s' !! q = links s !! q.

(** The run has left the path [q] as it is in [s0], and the entry it is
    at, if any, is not the one of [q]. *)
Definition apart (s0 : Sink) (q : string) (st : State) : Prop :=
  sameAt q s0 (sink st)
  ∧ ∀ e, Entry_ (checkpoint st) = Some e → CanonicalPath e ≠ q.

(** Nothing around the run fails: the sink accepts every call and the save
    consumer never answers a [Save] with an error.  With [inEntry], the
    checkpoint also points to an entry. *)
Definition healthy (inEntry : bool) (st : State) : Prop :=
  (∀ c, faulty (sink st) c = false)
  ∧ (SaveFails ∉ saveScript (savior.saveConsumer st))
  ∧ (inEntry = true → is_Some (Entry_ (checkpoint st))).

(** A computation that, in such a state, returns normally and leaves such
    a state. *)
Definition safe (inEntry : bool) {A} (m : M A) : Prop :=
  ∀ st, healthy inEntry st →
        healthy inEntry (m st).2 ∧ ∃ a, (m st).1 = Ok a.

(** A member that the archive can open and locate. *)
Definition readable (zf : zip.File) : Prop :=
  zip.OpenFails zf = false ∧ zip.DataOffsetFails zf = false.

(** Every checkpoint offered to the save consumer carries the index of the
    entry being extracted: the index announced last before the save. *)
Definition savesIndexed (t : list Event) : Prop :=
  ∀ (i : nat) c a,
    t !! i = Some (EvSave c a) →
    last (doingIndices (take i t)) = Some (EntryIndex c).

(** The state of a run inside the closure of the entry at index [i]. *)
Definition inEntryAt (i : Z) (st : State) : Prop :=
  savesIndexed (trace st)
  ∧ EntryIndex (checkpoint st) = i
  ∧ last (doingIndices (trace st)) = Some i.

(** A save consumer that, from here on, never asks for a save. *)
Definition calm (st : State) : Prop :=
  Forall (λ b, b = false) (shouldSaveScript (savior.saveConsumer st)).

(** A computation that, with such a consumer, offers no checkpoint and
    leaves the stop request as it is. *)
Definition calmly {A} (m : M A) : Prop :=
  ∀ st, calm st →
        calm (m st).2
        ∧ stopError (m st).2 = stopError st
        ∧ ∃ evs, trace (m st).2 = trace st ++ evs
                 ∧ Forall (λ ev, isSave ev = false) evs.

(** * Proofs *)

(** ** Running computations *)

Ltac munfold :=
  unfold mbind, M_bind, mret, M_ret, bind, ret, gets, modify, emit, logf,
    raise, panic, wrap, withSink, withSaveConsumer, withTrace,
    withCheckpoint, withDoneBytes, withStop in *.

Lemma bind_run {A B} (m : M A) (k : A → M B) st :
  (m ≫= k) st = match m st with
                | (Ok a, st') => k a st'
                | (Err e, st') => (Err e, st')
                | (Panic, st') => (Panic, st')
                end.
Proof. reflexivity. Qed.

Lemma copyLoop_eq onSave emitProgress chs src w :
  copyLoop onSave emitProgress chs src w =
  (stop ← gets copierStop;
   if (stop : bool) then mret tt
   else
     src ← serveSave onSave src;
     match chs with
     | [] => mret tt
     | c :: rest =>
         '(src', w') ← copyChunk emitProgress c src w;
         copyLoop onSave emitProgress rest src' w'
     end).
Proof. destruct chs; reflexivity. Qed.

Lemma bind_assoc_run {A B C} (m : M A) (k1 : A → M B) (k2 : B → M C) st :
  ((m ≫= k1) ≫= k2) st = (m ≫= (λ a, k1 a ≫= k2)) st.
Proof. rewrite !bind_run. by destruct (m st) as [[a|e|] st1]. Qed.

Lemma Resume_resumed bufSize ze ck sink :
  Resume bufSize ze (Some ck) sink
  = (runEntries bufSize (zr ze) (EntryIndex ck)
       (countBytes (zr ze) 0 (EntryIndex ck) (0, 0)).2;;
     finishResume (zr ze)) (resumedState ze ck sink).
Proof. reflexivity. Qed.

Lemma Resume_fresh bufSize ze sink :
  Resume bufSize ze None sink
  = (preallocateAll (zr ze);;
     logf LogPreallocated;;
     runEntries bufSize (zr ze) 0 (totalBytesOf (zr ze));;
     finishResume (zr ze)) (freshState ze sink).
Proof.
  unfold Resume, resumeBody. cbn [default].
  rewrite bind_run. cbn [gets]. rewrite bind_run. cbn [logf emit modify].
  rewrite bind_run. cbn [modify]. rewrite bind_assoc_run, bind_run.
  cbn [logf emit modify]. rewrite bind_assoc_run. reflexivity.
Qed.

(** ** Machine integers *)

Lemma int64_small z : - 2 ^ 63 ≤ z < 2 ^ 63 → int64 z = z.
Proof. intros H. unfold int64. rewrite Z.mod_small; lia. Qed.

Lemma add64_small a b : - 2 ^ 63 ≤ a + b < 2 ^ 63 → add64 a b = a + b.
Proof. apply int64_small. Qed.

Lemma sub64_small a b : - 2 ^ 63 ≤ a - b < 2 ^ 63 → sub64 a b = a - b.
Proof. apply int64_small. Qed.

(** ** What computations emit *)

Section Emits.
Context (P : Event → Prop).

Lemma emits_ret {A} (a : A) : emits P (mret a).
Proof. intros st. exists []. by rewrite app_nil_r. Qed.

Lemma emits_bind {A B} (m : M A) (k : A → M B) :
  emits P m → (∀ a, emits P (k a)) → emits P (m ≫= k).
Proof.
  intros Hm Hk st. rewrite bind_run.
  destruct (Hm st) as (evs & Ht & HP).
  destruct (m st) as [[a|e|] st1]; simpl in *; [|by eauto..].
  destruct (Hk a st1) as (evs' & Ht' & HP').
  exists (evs ++ evs'). rewrite Ht', Ht, app_assoc.
  split; [done|by apply Forall_app].
Qed.

Lemma emits_gets {A} (f : State → A) : emits P (gets f).
Proof. intros st. exists []. by rewrite app_nil_r. Qed.

Lemma emits_modify (f : State → State) :
  (∀ st, trace (f st) = trace st) → emits P (modify f).
Proof. intros Hf st. exists []. simpl. by rewrite Hf, app_nil_r. Qed.

Lemma emits_emit ev : P ev → emits P (emit ev).
Proof. intros Hev st. exists [ev]. split; [done|by constructor]. Qed.

Lemma emits_logf l : P (EvLog l) → emits P (logf l).
Proof. apply emits_emit. Qed.

Lemma emits_raise {A} e : emits P (@raise A e).
Proof. intros st. exists []. by rewrite app_nil_r. Qed.

Lemma emits_panic {A} : emits P (@panic A).
Proof. intros st. exists []. by rewrite app_nil_r. Qed.

Lemma emits_wrap {A} (m : M A) : emits P m → emits P (wrap m).
Proof.
  intros Hm st. destruct (Hm st) as (evs & Ht & HP). exists evs.
  unfold wrap. by destruct (m st) as [[a|e|] st1].
Qed.

Lemma emits_sinkCall c : (∀ ok, P (EvSink c ok)) → emits P (sinkCall c).
Proof.
  intros Hc st. unfold sinkCall.
  destruct (faulty (sink st) c);
    (eexists [_]; split; [done|by constructor]).
Qed.

Lemma emits_ShouldSave n : (∀ b, P (EvShouldSave n b)) → emits P (ShouldSave n).
Proof. intros Hn st. eexists [_]. split; [done|by constructor]. Qed.

Lemma emits_Save c : (∀ a, P (EvSave c a)) → emits P (Save c).
Proof.
  intros Hc st. unfold Save.
  destruct (default _ _); (eexists [_]; split; [done|by constructor]).
Qed.

End Emits.

Lemma emits_weaken (P Q : Event → Prop) {A} (m : M A) :
  (∀ ev, P ev → Q ev) → emits P m → emits Q m.
Proof.
  intros HPQ Hm st. destruct (Hm st) as (evs & Ht & HP).
  exists evs. split; [done|]. by eapply Forall_impl.
Qed.

Ltac emits_prim :=
  match goal with
  | |- emits _ (_ ≫= _) => apply emits_bind; [|intros]
  | |- emits _ (mret _) => apply emits_ret
  | |- emits _ (gets _) => apply emits_gets
  | |- emits _ (modify _) => apply emits_modify; intros; reflexivity
  | |- emits _ (emit _) => apply emits_emit
  | |- emits _ (logf _) => apply emits_logf
  | |- emits _ (raise _) => apply emits_raise
  | |- emits _ panic => apply emits_panic
  | |- emits _ (wrap _) => apply emits_wrap
  | |- emits _ (sinkCall _) => apply emits_sinkCall; intros
  | |- emits _ (ShouldSave _) => apply emits_ShouldSave; intros
  | |- emits _ (Save _) => apply emits_Save; intros
  | |- emits _ (match ?x with _ => _ end) => destruct x
  | |- emits _ (let _ := _ in _) => cbv zeta
  end.

Lemma emits_currentEntry P : emits P currentEntry.
Proof. unfold currentEntry. repeat emits_prim. Qed.

Lemma emits_computeProgress P total : emits P (computeProgress total).
Proof.
  unfold computeProgress.
  apply emits_bind; [apply emits_currentEntry|intros]. repeat emits_prim.
Qed.

Ltac emits_step :=
  first [ apply emits_currentEntry
        | apply emits_computeProgress
        | emits_prim ].

Ltac emits_auto := repeat emits_step; try done.



Lemma emits_Write P w p :
  (∀ ok, P (EvSink (CallWrite (writerPath w) (writerOffset w) p) ok)) →
  emits P (Write w p).
Proof. intros H. unfold Write. emits_auto. Qed.












(** ** Pre-allocation *)


Lemma countBytes_total files i k k' acc acc' :
  acc.2 = acc'.2 →
  (countBytes files i k acc).2 = (countBytes files i k' acc').2.
Proof.
  revert i acc acc'. induction files as [|zf rest IH]; intros i acc acc' H;
    [done|].
  simpl. apply IH. simpl. by rewrite H.
Qed.

Lemma preallocateAll_run files st :
  (∃ e, (preallocateAll files st).1 = Err (Wrapped (ErrSink (CallPreallocate e))))
  ∨ ((preallocateAll files st).1 = Ok tt
     ∧ trace (preallocateAll files st).2 = trace st ++ preallocEvents files
     ∧ stopError (preallocateAll files st).2 = stopError st
     ∧ checkpoint (preallocateAll files st).2 = checkpoint st).
Proof.
  revert st. induction files as [|zf rest IH]; intros st.
  - right. simpl. by rewrite app_nil_r.
  - cbn [preallocateAll]. rewrite bind_run.
    unfold preallocEvents. cbn [fmap list_fmap List.filter].
    unfold isFileKind at 1.
    destruct (Kind (zipFileEntry zf)) eqn:HK.
    1,2: destruct (IH st) as [?|(?&?&?&?)]; [by left|right; done].
    unfold Preallocate, sinkCall, wrap.
    destruct (faulty (sink st) _) eqn:Hf; [left; eauto|].
    match goal with |- context [preallocateAll rest ?s] =>
      destruct (IH s) as [?|(?&Ht&?&?)] end; [by left|right].
    split_and!; try done. rewrite Ht. simpl. by rewrite <- app_assoc.
Qed.


(** ** Order of the entries and the progress baseline *)

Lemma int64_add_l a b : int64 (int64 a + b) = int64 (a + b).
Proof.
  unfold int64. f_equal.
  replace ((a + 2 ^ 63) `mod` 2 ^ 64 - 2 ^ 63 + b + 2 ^ 63)
    with ((a + 2 ^ 63) `mod` 2 ^ 64 + b) by lia.
  rewrite Zplus_mod_idemp_l. f_equal. lia.
Qed.

Lemma int64_add_r a b : int64 (a + int64 b) = int64 (a + b).
Proof. rewrite (Z.add_comm a), int64_add_l. f_equal. lia. Qed.

Lemma countBytes_done files :
  ∀ i k d t,
    (countBytes files i k (int64 d, t)).1
    = int64 (d + sumSizes (take (Z.to_nat (k - i)) files)).
Proof.
  induction files as [|zf rest IH]; intros i k d t.
  - simpl. rewrite take_nil. unfold sumSizes. simpl. f_equal. lia.
  - cbn [countBytes fst snd]. destruct (Z.ltb_spec i k) as [Hlt|Hge].
    + unfold add64 at 1. rewrite int64_add_l, IH.
      replace (k - i) with (Z.succ (k - (i + 1))) by lia.
      rewrite Z2Nat.inj_succ by lia.
      cbn [take]. unfold sumSizes. cbn [fmap list_fmap foldr].
      f_equal. lia.
    + rewrite IH. replace (Z.to_nat (k - (i + 1))) with 0%nat by lia.
      replace (Z.to_nat (k - i)) with 0%nat by lia. done.
Qed.

Lemma doingIndices_app t1 t2 :
  doingIndices (t1 ++ t2) = doingIndices t1 ++ doingIndices t2.
Proof. apply omap_app. Qed.




Lemma doingIndices_notDoing evs : Forall notDoing evs → doingIndices evs = [].
Proof.
  induction 1 as [|ev evs Hev _ IH]; [done|].
  destruct ev as [[]| | | | | |]; done.
Qed.




(** ** Chunks *)

Lemma chunksFrom_fuel size :
  (0 < size)%nat →
  ∀ fuel fuel' l,
    (length l ≤ fuel)%nat → (length l ≤ fuel')%nat →
    chunksFrom size fuel l = chunksFrom size fuel' l.
Proof.
  intros Hsize. induction fuel as [|fuel IH]; intros fuel' l Hl Hl'.
  - destruct l; [by destruct fuel'|simpl in Hl; lia].
  - destruct l as [|x l]; [by destruct fuel'|].
    destruct fuel' as [|fuel']; [simpl in Hl'; lia|].
    cbn [chunksFrom]. f_equal.
    assert (length (drop size (x :: l)) ≤ length l)%nat as Hd.
    { rewrite length_drop. simpl. lia. }
    simpl in Hl, Hl'. apply IH; lia.
Qed.

Lemma chunks_nil size : chunks size [] = [].
Proof. reflexivity. Qed.

Lemma chunks_cons size l :
  l ≠ [] →
  chunks size l
  = take (Pos.to_nat size) l :: chunks size (drop (Pos.to_nat size) l).
Proof.
  intros Hl. unfold chunks. destruct l as [|x l]; [done|].
  cbn [chunksFrom length]. f_equal. pose proof (Pos2Nat.is_pos size).
  apply chunksFrom_fuel; [lia| |done]. rewrite length_drop. cbn [length]. lia.
Qed.

(** ** Where the copier writes *)






Lemma emits_ret_bind P {A B} (v : A) (k : A → M B) :
  emits P (k v) → emits P (mret v ≫= k).
Proof. intros H st. apply H. Qed.




(** ** Resuming a source and aligning it *)


Lemma wrap_bind_run {A B} (m : M A) (k : A → M B) st :
  (wrap m ≫= k) st
  = match m st with
    | (Ok a, st') => k a st'
    | (Err e, st') => (Err (Wrap e), st')
    | (Panic, st') => (Panic, st')
    end.
Proof. rewrite bind_run. unfold wrap. by destruct (m st) as [[a|e|] st']. Qed.

Lemma copyResumable_run bufSize src e sc total st p :
  resumeOffset src sc = Some p →
  copyResumable bufSize src e sc total st
  = (src' ← (if p <? WriteOffset e
             then
               let delta := sub64 (WriteOffset e) p in
               logf (LogDiscarding (CanonicalPath e) delta);;
               logf (LogSourceResumedAt (CanonicalPath e) p (WriteOffset e));;
               wrap (DiscardByRead (withOffset p src) delta)
             else mret (withOffset p src));
     logf (LogResumingFrom (CanonicalPath e) (WriteOffset e));;
     writer ← wrap (GetWriter e);
     wrap (CopierDo bufSize (OnSave writer total) (EmitProgress total)
             src' writer))
      (withTrace (trace st ++ [EvSourceResume sc (Some p)]) st).
Proof.
  intros Hp. unfold copyResumable. rewrite wrap_bind_run.
  unfold SourceResume, resumeOffset in *. destruct sc as [c|].
  - destruct (validOffset src (Offset c)); [|done].
    injection Hp as <-. reflexivity.
  - injection Hp as <-. reflexivity.
Qed.


Lemma resumeOffset_bounds src sc p :
  resumeOffset src sc = Some p → 0 ≤ p ≤ Z.of_nat (length (srcData src)).
Proof.
  unfold resumeOffset, validOffset. destruct sc as [c|].
  - destruct (bool_decide (0 ≤ _ ≤ _)) eqn:Hb; cbn [andb]; [|discriminate].
    apply bool_decide_eq_true in Hb.
    destruct (srcBlocks src) as [bs|]; [destruct (bool_decide _)|];
      intros ?; simplify_eq; lia.
  - intros [= <-]. lia.
Qed.

Lemma wrap_state {A} (m : M A) st : (wrap m st).2 = (m st).2.
Proof. unfold wrap. by destruct (m st) as [[a|e|] st']. Qed.



(** ** Stopping *)



Lemma stoppedTrace_stop t c :
  unstopped t → stoppedTrace (t ++ [EvSave c (SaveAction AfterSaveStop)]).
Proof. intros Ht. exists t, c, []. split_and!; [done..|constructor]. Qed.

Lemma faulty_applyCall c s : faulty (applyCall c s) = faulty s.
Proof. by destruct c. Qed.


(** The save callback, run on a state whose checkpoint holds an entry. *)
Lemma OnSave_run w total sc st e :
  Entry_ (checkpoint st) = Some e →
  let path := writerPath w in
  let ck := withProgress
              (float64_div (add64 (doneBytes st) (WriteOffset e)) total)
              (withSourceCheckpoint (Some sc) (checkpoint st)) in
  let logs := [EvLog (LogSaving (CanonicalPath e) true);
               EvLog (LogSourceCheckpointAt (CanonicalPath e) (Offset sc))] in
  let a := default (SaveAction AfterSaveContinue)
             (head (saveScript (savior.saveConsumer st))) in
  OnSave w total (Some sc) st
  = if faulty (sink st) (CallSync path)
    then (Err (Wrapped (ErrSink (CallSync path))),
          {| sink := sink st; savior.saveConsumer := savior.saveConsumer st;
             trace := trace st ++ logs ++ [EvSink (CallSync path) false];
             checkpoint := withSourceCheckpoint (Some sc) (checkpoint st);
             doneBytes := doneBytes st; stopError := stopError st;
             copierStop := copierStop st |})
    else
      let st' stop cstop :=
        {| sink := sink st;
           savior.saveConsumer :=
             {| shouldSaveScript := shouldSaveScript (savior.saveConsumer st);
                saveScript := tail (saveScript (savior.saveConsumer st)) |};
           trace := trace st ++ logs
                    ++ [EvSink (CallSync path) true; EvSave ck a];
           checkpoint := ck; doneBytes := doneBytes st;
           stopError := stop; copierStop := cstop |} in
      match a with
      | SaveAction AfterSaveContinue =>
          (Ok tt, st' (stopError st) (copierStop st))
      | SaveAction AfterSaveStop => (Ok tt, st' (Some ErrStop) true)
      | SaveFails => (Err (Wrapped ErrSave), st' (stopError st) (copierStop st))
      end.
Proof.
  intros He. cbv zeta.
  unfold OnSave, computeProgress, currentEntry, Sync, sinkCall, Save.
  munfold. cbn. rewrite He. cbn.
  destruct (faulty (sink st) (CallSync (writerPath w))) eqn:Hf; cbn.
  { by rewrite <- !app_assoc. }
  rewrite He. cbn. rewrite <- !app_assoc. cbn.
  by destruct (default _ _) as [[]|].
Qed.

(** One chunk, on a state whose checkpoint holds an entry. *)
Lemma copyChunk_run total c src w st e :
  Entry_ (checkpoint st) = Some e →
  let call := CallWrite (writerPath w) (writerOffset w) c in
  let n := Z.of_nat (length c) in
  let e' := withWriteOffset (add64 (WriteOffset e) (int64 n)) e in
  let b := default false (head (shouldSaveScript (savior.saveConsumer st))) in
  copyChunk (EmitProgress total) c src w st
  = if faulty (sink st) call
    then (Err (ErrSink call), withTrace (trace st ++ [EvSink call false]) st)
    else
      (Ok (withWantSave (b || srcWantSave src)
             (withOffset (srcOffset src + n) src),
           {| writerPath := writerPath w; writerOffset := writerOffset w + n |}),
       {| sink := applyCall call (sink st);
          savior.saveConsumer :=
            {| shouldSaveScript := tail (shouldSaveScript (savior.saveConsumer st));
               saveScript := saveScript (savior.saveConsumer st) |};
          trace := trace st
                   ++ [EvSink call true;
                       EvProgress (float64_div
                                     (add64 (doneBytes st) (WriteOffset e'))
                                     total);
                       EvShouldSave n b];
          checkpoint := withEntry (Some e') (checkpoint st);
          doneBytes := doneBytes st; stopError := stopError st;
          copierStop := copierStop st |}).
Proof.
  intros He. cbv zeta.
  unfold copyChunk, EmitProgress, computeProgress, currentEntry, Write,
    sinkCall, ShouldSave, advanceWriteOffset.
  munfold. cbn.
  destruct (faulty (sink st) _) eqn:Hf; cbn; [done|].
  rewrite He. cbn. by rewrite <- !app_assoc.
Qed.




(** ** The closure of one entry *)

Lemma extractEntry_eq bufSize zf i total st :
  extractEntry bufSize zf i total st
  = (entryBody bufSize zf (enteredEntry zf st)
       (SourceCheckpoint_ (checkpoint st)) total;;
     modify (countEntry zf)) (entered zf i st).
Proof.
  unfold extractEntry, entered, enteredEntry, currentEntry.
  destruct st as [snk sc tr [i0 p0 [e0|] s0] done stop cs]; reflexivity.
Qed.

(** ** What leaves the stop request alone *)

Lemma keeps_ret {A} (a : A) : keeps (mret a).
Proof. by intros st. Qed.

Lemma keeps_bind {A B} (m : M A) (k : A → M B) :
  keeps m → (∀ a, keeps (k a)) → keeps (m ≫= k).
Proof.
  intros Hm Hk st. rewrite bind_run. destruct (Hm st) as (H1 & H2 & H3).
  destruct (m st) as [[a|e|] st1]; cbn [fst snd] in *; [|done..].
  destruct (Hk a st1) as (H1' & H2' & H3'). split_and!; congruence.
Qed.

Lemma keeps_bind_assoc {A B C} (m : M A) (k1 : A → M B) (k2 : B → M C) :
  keeps (m ≫= (λ a, k1 a ≫= k2)) → keeps ((m ≫= k1) ≫= k2).
Proof. intros H st. rewrite bind_assoc_run. apply H. Qed.


Lemma keeps_gets {A} (f : State → A) : keeps (gets f).
Proof. by intros st. Qed.

Lemma keeps_modify (f : State → State) :
  (∀ st, stopError (f st) = stopError st ∧ copierStop (f st) = copierStop st
         ∧ faulty (sink (f st)) = faulty (sink st)) →
  keeps (modify f).
Proof. intros Hf st. apply Hf. Qed.

Lemma keeps_emit ev : keeps (emit ev).
Proof. by intros st. Qed.

Lemma keeps_logf l : keeps (logf l).
Proof. by intros st. Qed.

Lemma keeps_raise {A} e : keeps (@raise A e).
Proof. by intros st. Qed.

Lemma keeps_panic {A} : keeps (@panic A).
Proof. by intros st. Qed.

Lemma keeps_wrap {A} (m : M A) : keeps m → keeps (wrap m).
Proof. intros Hm st. rewrite wrap_state. apply Hm. Qed.

Lemma keeps_sinkCall c : keeps (sinkCall c).
Proof.
  intros st. unfold sinkCall. destruct (faulty (sink st) c); [done|].
  cbn. split_and!; [done..|]. apply faulty_applyCall.
Qed.

Lemma keeps_ShouldSave n : keeps (ShouldSave n).
Proof. by intros st. Qed.

Ltac keeps_step :=
  match goal with
  | |- keeps (_ ≫= _) => apply keeps_bind; [|intros]
  | |- keeps (mret _) => apply keeps_ret
  | |- keeps (gets _) => apply keeps_gets
  | |- keeps (modify _) => apply keeps_modify; intros; by split_and!
  | |- keeps (emit _) => apply keeps_emit
  | |- keeps (logf _) => apply keeps_logf
  | |- keeps (raise _) => apply keeps_raise
  | |- keeps panic => apply keeps_panic
  | |- keeps (wrap _) => apply keeps_wrap
  | |- keeps (sinkCall _) => apply keeps_sinkCall
  | |- keeps (ShouldSave _) => apply keeps_ShouldSave
  | |- keeps (match ?x with _ => _ end) => destruct x
  | |- keeps (let _ := _ in _) => cbv zeta
  end.

Lemma keeps_ioCopyLoop chs : ∀ w, keeps (ioCopyLoop chs w).
Proof.
  induction chs as [|c rest IH]; intros w; cbn [ioCopyLoop];
    [apply keeps_ret|].
  unfold Write. apply keeps_bind; [repeat keeps_step|intros [m w']; apply IH].
Qed.

Lemma keeps_openSource zf : keeps (openSource zf).
Proof. unfold openSource, DataOffset. repeat keeps_step. Qed.

Lemma keeps_copyFallback zf : keeps (copyFallback zf).
Proof.
  unfold copyFallback, Open, currentEntry, GetWriter, ioCopy.
  repeat first [apply keeps_ioCopyLoop|keeps_step].
Qed.




Lemma plainEvent_entryEvent ev : plainEvent ev → entryEvent ev.
Proof. by intros [? _]. Qed.

Lemma emits_plain_ioCopyLoop chs : ∀ w, emits plainEvent (ioCopyLoop chs w).
Proof.
  induction chs as [|c rest IH]; intros w; cbn [ioCopyLoop]; [emits_auto|].
  apply emits_bind; [by apply emits_Write|intros [m w']; apply IH].
Qed.


Lemma emits_plain_copyFallback zf : emits plainEvent (copyFallback zf).
Proof.
  unfold copyFallback, Open, GetWriter, ioCopy.
  repeat first [apply emits_plain_ioCopyLoop|emits_step]; done.
Qed.







(** ** The entry loop and the stop request *)

Lemma entryLoop_stopped bufSize files i total st :
  stopError st ≠ None → entryLoop bufSize files i total st = (Ok tt, st).
Proof.
  intros Hs. destruct files as [|zf rest]; [done|].
  cbn [entryLoop]. rewrite bind_run. cbn [gets].
  by destruct (stopError st).
Qed.




Lemma emits_preallocateAll P files :
  (∀ e ok, P (EvSink (CallPreallocate e) ok)) →
  emits P (preallocateAll files).
Proof.
  intros HP. induction files as [|zf rest IH]; cbn [preallocateAll];
    [emits_auto|].
  unfold Preallocate. apply emits_bind; [emits_auto|intros; apply IH].
Qed.

Lemma keeps_preallocateAll files : keeps (preallocateAll files).
Proof.
  induction files as [|zf rest IH]; cbn [preallocateAll]; [apply keeps_ret|].
  unfold Preallocate.
  apply keeps_bind; [repeat keeps_step|intros; apply IH].
Qed.


(** ** Every checkpoint offered carries its entry *)


Lemma emits_copyLoop_gen P onSave emitProgress chs :
  (∀ sc, emits P (onSave sc)) →
  emits P emitProgress →
  (∀ path off data ok, P (EvSink (CallWrite path off data) ok)) →
  (∀ n b, P (EvShouldSave n b)) →
  ∀ src w, emits P (copyLoop onSave emitProgress chs src w).
Proof.
  intros HS HP HW HSS. induction chs as [|c rest IH]; intros src w;
    rewrite copyLoop_eq; unfold serveSave, copyChunk.
  - emits_auto.
  - emits_step; [emits_auto|]. emits_step; [emits_auto|].
    emits_step; [emits_auto|].
    apply emits_bind; [|intros [src' w']; apply IH].
    emits_step; [by apply emits_Write|].
    emits_auto.
Qed.




(** ** Positional writes *)

Lemma write_at_nil f : write_at f 0 [] = f.
Proof. unfold write_at. by rewrite take_0, drop_0. Qed.

Lemma write_at_0 f bs : write_at f 0 bs = bs ++ drop (length bs) f.
Proof. unfold write_at. by rewrite take_0. Qed.

Lemma length_write_at_0 f bs :
  length (write_at f 0 bs) = Nat.max (length bs) (length f).
Proof. rewrite write_at_0, length_app, length_drop. lia. Qed.

(** Writing a further stretch of the same data over a prefix already
    written leaves a longer prefix written. *)
Lemma write_at_overlay f (d : list byte) (w n x : nat) :
  (w ≤ x)%nat → (x ≤ length d)%nat →
  write_at (write_at f 0 (take x d)) w (take n (drop w d))
  = write_at f 0 (take (Nat.max x (w + n)) d).
Proof.
  intros Hwx Hxd. rewrite !write_at_0. unfold write_at.
  rewrite !length_take, !length_app, !length_take, !length_drop.
  replace (w - _)%nat with 0%nat by lia. cbn [replicate app].
  apply list_eq. intros i.
  destruct (decide (i < w)%nat) as [Hiw|Hiw].
  { rewrite lookup_app_l by (rewrite length_take, length_app, length_take; lia).
    rewrite lookup_take_lt by done.
    rewrite !lookup_app_l by (rewrite length_take; lia).
    by rewrite !lookup_take_lt by lia. }
  rewrite lookup_app_r by (rewrite length_take, length_app, length_take; lia).
  rewrite length_take, length_app, length_take, length_drop.
  replace (Nat.min w _) with w by lia.
  destruct (decide (i < w + Nat.min n (length d - w))%nat) as [Hin|Hin].
  { rewrite lookup_app_l by (rewrite length_take, length_drop; lia).
    rewrite lookup_take_lt, lookup_drop by lia.
    rewrite lookup_app_l by (rewrite length_take; lia).
    rewrite lookup_take_lt by lia. f_equal. lia. }
  rewrite lookup_app_r by (rewrite length_take, length_drop; lia).
  rewrite length_take, length_drop, lookup_drop.
  destruct (decide (i < x)%nat) as [Hix|Hix].
  { rewrite !lookup_app_l by (rewrite length_take; lia).
    rewrite !lookup_take_lt by lia. f_equal. lia. }
  rewrite lookup_app_r by (rewrite length_take; lia).
  rewrite lookup_app_r by (rewrite length_take; lia).
  rewrite !lookup_drop, !length_take. f_equal. lia.
Qed.

Lemma take_min {A} (l : list A) n : take n l = take (Nat.min n (length l)) l.
Proof.
  destruct (decide (n ≤ length l)%nat).
  - by rewrite Nat.min_l by lia.
  - rewrite Nat.min_r by lia. by rewrite !take_ge by lia.
Qed.

Lemma sink_eq (s1 s2 : Sink) :
  files s1 = files s2 → dirs s1 = dirs s2 → links s1 = links s2 →
  faulty s1 = faulty s2 → s1 = s2.
Proof. destruct s1, s2. cbn. by intros -> -> -> ->. Qed.

Lemma applyCall_getWriter_path e e' s :
  CanonicalPath e = CanonicalPath e' →
  applyCall (CallGetWriter e) s = applyCall (CallGetWriter e') s.
Proof. intros H. unfold applyCall. by rewrite H. Qed.

(** Writing nothing into a file that the sink holds changes nothing. *)
Lemma applyCall_write_nil e s :
  applyCall (CallWrite (CanonicalPath e) 0 []) (applyCall (CallGetWriter e) s)
  = applyCall (CallGetWriter e) s.
Proof.
  unfold applyCall, withFiles. apply sink_eq; cbn; [|done..].
  by rewrite lookup_total_insert_eq, write_at_nil, insert_insert_eq.
Qed.

(** Taking the writer of a file that was written to changes nothing. *)
Lemma applyCall_getWriter_written e path off data s :
  path = CanonicalPath e →
  applyCall (CallGetWriter e) (applyCall (CallWrite path off data) s)
  = applyCall (CallWrite path off data) s.
Proof.
  intros ->. unfold applyCall, withFiles. apply sink_eq; cbn; [|done..].
  by rewrite lookup_total_insert_eq, insert_insert_eq.
Qed.

(** A chunk written over a written prefix. *)
Lemma applyCall_write_overlay path (d : list byte) (w x : Z) (n : nat) s :
  0 ≤ w ≤ x → x ≤ Z.of_nat (length d) →
  applyCall (CallWrite path w (take n (drop (Z.to_nat w) d)))
    (applyCall (CallWrite path 0 (take (Z.to_nat x) d)) s)
  = applyCall (CallWrite path 0
                 (take (Z.to_nat (Z.max x (w + Z.of_nat (length
                    (take n (drop (Z.to_nat w) d)))))) d)) s.
Proof.
  intros Hwx Hxd. unfold applyCall, withFiles. apply sink_eq; cbn; [|done..].
  rewrite lookup_total_insert_eq, insert_insert_eq. f_equal.
  change (Z.to_nat 0) with 0%nat.
  rewrite write_at_overlay by lia. f_equal.
  rewrite length_take, length_drop.
  rewrite (take_min _ (Nat.max _ _)). symmetry. rewrite take_min.
  f_equal. lia.
Qed.

(** ** The plain copy of a member that cannot be resumed *)

Lemma chunks_concat size l : concat (chunks size l) = l.
Proof.
  remember (length l) as n eqn:Hn. revert l Hn.
  induction n as [n IH] using lt_wf_ind. intros l Hn.
  destruct l as [|x l]; [done|].
  rewrite chunks_cons by done. cbn [concat].
  rewrite (IH (length (drop (Pos.to_nat size) (x :: l)))); [|
    rewrite length_drop; subst n; cbn [length];
    pose proof (Pos2Nat.is_pos size); lia|done].
  apply take_drop.
Qed.

Lemma applyCall_write_app path (a b : list byte) s :
  applyCall (CallWrite path (Z.of_nat (length a)) b)
    (applyCall (CallWrite path 0 a) s)
  = applyCall (CallWrite path 0 (a ++ b)) s.
Proof.
  unfold applyCall, withFiles. apply sink_eq; cbn; [|done..].
  rewrite lookup_total_insert_eq, insert_insert_eq. f_equal.
  change (Z.to_nat 0) with 0%nat. rewrite Nat2Z.id, !write_at_0.
  unfold write_at. rewrite take_app_length, length_app, length_drop.
  replace (length a - _)%nat with 0%nat by lia. cbn [replicate app].
  rewrite <- app_assoc. do 2 f_equal.
  rewrite drop_app_ge by lia. rewrite drop_drop, length_app. f_equal. lia.
Qed.

Lemma writeAll_written path chs :
  ∀ (pre : list byte) s,
    writeAll path (Z.of_nat (length pre)) chs
      (applyCall (CallWrite path 0 pre) s)
    = applyCall (CallWrite path 0 (pre ++ concat chs)) s.
Proof.
  induction chs as [|c rest IH]; intros pre s; cbn [writeAll concat].
  - by rewrite app_nil_r.
  - rewrite applyCall_write_app, <- Nat2Z.inj_add, <- length_app, IH.
    by rewrite <- app_assoc.
Qed.


(** ** Save points *)

Lemma lastBoundary_spec bs o :
  0 ≤ o →
  0 ≤ lastBoundary bs o ≤ o
  ∧ (lastBoundary bs o = 0 ∨ lastBoundary bs o ∈ bs).
Proof.
  intros Ho. unfold lastBoundary. induction bs as [|b bs IH].
  { cbn. split; [lia|by left]. }
  rewrite filter_cons. destruct (decide (0 ≤ b ≤ o)) as [Hb|Hb].
  - cbn [foldr]. destruct IH as [IH1 [IH2|IH2]].
    + split; [lia|]. right. rewrite IH2, Z.max_l by lia. by left.
    + split; [lia|]. right.
      destruct (Z.max_spec b (foldr Z.max 0 (filter (λ b, 0 ≤ b ≤ o) bs)))
        as [[_ ->]|[_ ->]]; [by right|by left].
  - destruct IH as [IH1 [IH2|IH2]]; (split; [done|]); [by left|].
    right. by right.
Qed.

Lemma savePoint_valid src src' :
  srcData src' = srcData src → srcBlocks src' = srcBlocks src →
  0 ≤ srcOffset src ≤ Z.of_nat (length (srcData src)) →
  0 ≤ savePoint src ≤ srcOffset src
  ∧ resumeOffset src' (Some {| Offset := savePoint src |})
    = Some (savePoint src).
Proof.
  intros Hd Hb Ho. unfold resumeOffset, validOffset, savePoint. cbn [Offset].
  rewrite Hd, Hb. destruct (srcBlocks src) as [bs|].
  - destruct (lastBoundary_spec bs (srcOffset src)) as [H1 H2]; [lia|].
    split; [done|]. rewrite !bool_decide_eq_true_2; [done|done|lia].
  - split; [lia|]. by rewrite bool_decide_eq_true_2.
Qed.

Lemma entrySource_data zf : srcData (entrySource zf) = zip.Payload zf.
Proof. unfold entrySource. by destruct (_ =? _). Qed.

(** ** The checkpoint last offered *)

Lemma lastSaved_app_quiet t evs :
  savedCheckpoints evs = [] → lastSaved (t ++ evs) = lastSaved t.
Proof.
  intros H. unfold lastSaved, savedCheckpoints in *.
  by rewrite omap_app, H, app_nil_r.
Qed.

Lemma lastSaved_save t evs c a :
  lastSaved (t ++ evs ++ [EvSave c a]) = Some c.
Proof.
  unfold lastSaved, savedCheckpoints. rewrite !omap_app. cbn.
  by rewrite app_assoc, last_snoc.
Qed.

(** ** What an extraction leaves in the sink *)

Lemma extracted_snoc zfs zf s :
  extracted (zfs ++ [zf]) s = entryEffect zf (extracted zfs s).
Proof. unfold extracted. by rewrite foldl_app. Qed.

Lemma extracted_take_S zfs i zf s :
  zfs !! i = Some zf →
  extracted (take (S i) zfs) s = entryEffect zf (extracted (take i zfs) s).
Proof.
  intros H. by rewrite (take_S_r _ _ _ H), extracted_snoc.
Qed.

Lemma partlyWritten_all zf s :
  Kind (zipFileEntry zf) = EntryKindFile →
  partlyWritten zf (Z.of_nat (length (zip.Payload zf))) s = entryEffect zf s.
Proof.
  intros HK. unfold partlyWritten, entryEffect. rewrite HK.
  by rewrite Nat2Z.id, firstn_all.
Qed.

Lemma partlyWritten_none zf s :
  partlyWritten zf 0 s = applyCall (CallGetWriter (zipFileEntry zf)) s.
Proof. unfold partlyWritten. cbn [Z.to_nat take]. apply applyCall_write_nil. Qed.


Lemma chunks_drop_cons size (l : list byte) c rest :
  chunks size l = c :: rest →
  c = take (Pos.to_nat size) l
  ∧ rest = chunks size (drop (length c) l)
  ∧ (0 < length c ≤ length l)%nat.
Proof.
  intros H. destruct l as [|b l]; [done|].
  rewrite chunks_cons in H by done. injection H as <- <-.
  split; [done|]. pose proof (Pos2Nat.is_pos size) as Hs. split.
  - rewrite length_take.
    destruct (decide (Pos.to_nat size ≤ length (b :: l))%nat) as [Hle|Hgt].
    + by rewrite Nat.min_l.
    + rewrite Nat.min_r by lia. by rewrite !drop_ge by lia.
  - rewrite length_take. cbn [length]. lia.
Qed.

Lemma chunks_drop_nil size (l : list byte) : chunks size l = [] → l = [].
Proof.
  intros H. destruct l as [|b l]; [done|]. by rewrite chunks_cons in H.
Qed.

Lemma take_length_take {A} (n : nat) (l : list A) :
  take (length (take n l)) l = take n l.
Proof.
  rewrite length_take. destruct (decide (n ≤ length l)%nat).
  - by rewrite Nat.min_l.
  - rewrite Nat.min_r by lia. by rewrite !take_ge by lia.
Qed.

(** ** The copier, entry by entry *)

Section CopyInvariant.
Context (zfs : list zip.File) (B : Sink) (i : nat) (zf : zip.File).
Hypothesis Hzf : zfs !! i = Some zf.
Hypothesis HK : Kind (zipFileEntry zf) = EntryKindFile.
Hypothesis Hres : resumable zf = true.
Hypothesis Hlen : Z.of_nat (length (zip.Payload zf)) < 2 ^ 63.

Lemma copying_stopped w x src wr st :
  copying zfs B i zf w x src wr st → copierStop st = true →
  copyOutcome zfs B (entryEffect zf (extracted (take i zfs) B)) (Ok tt, st).
Proof.
  intros (Hi & He & Hd & Hb & Ho & Hp & Hwo & Hw0 & Hwx & Hxd & Hs & Hfl) Hc _.
  destruct Hfl as [[_ Hc']|(Hse & _ & ck & ws & Hls & Hfit & Hws)];
    [congruence|].
  right. cbn. split_and!; [done..|]. exists ck. split; [done|].
  exists i, zf, ws, x. by split_and!.
Qed.

Lemma copying_done size w x src wr st :
  copying zfs B i zf w x src wr st →
  chunks size (drop (Z.to_nat w) (zip.Payload zf)) = [] →
  copyOutcome zfs B (entryEffect zf (extracted (take i zfs) B)) (Ok tt, st).
Proof.
  intros Hinv Hch.
  destruct (copierStop st) eqn:Hcs; [by eapply copying_stopped|].
  destruct Hinv as (Hi & He & Hd & Hb & Ho & Hp & Hwo & Hw0 & Hwx & Hxd & Hs & Hfl).
  destruct Hfl as [[Hse _]|(_ & Hc' & _)]; [|congruence].
  intros _. left. cbn. split_and!; [done..|].
  apply chunks_drop_nil in Hch.
  assert (length (drop (Z.to_nat w) (zip.Payload zf)) = 0%nat) as Hl
    by by rewrite Hch.
  rewrite length_drop in Hl.
  rewrite Hs, <- partlyWritten_all by done. f_equal. lia.
Qed.

Lemma copying_saved w x src wr st sc prog stop cstop :
  copying zfs B i zf w x src wr st →
  copierStop st = false →
  sc = {| Offset := savePoint src |} →
  let ck := withProgress prog
              (withSourceCheckpoint (Some sc) (checkpoint st)) in
  (stop = stopError st ∧ cstop = copierStop st)
  ∨ (stop = Some ErrStop ∧ cstop = true) →
  ∀ sav tr,
  lastSaved tr = Some ck →
  copying zfs B i zf w x (withWantSave false src) wr
    {| sink := sink st; savior.saveConsumer := sav;
       trace := tr;
       checkpoint := ck; doneBytes := doneBytes st;
       stopError := stop; copierStop := cstop |}.
Proof.
  intros (Hi & He & Hd & Hb & Ho & Hp & Hwo & Hw0 & Hwx & Hxd & Hs & Hfl)
    Hcs -> ck Hstop sav tr Htr.
  destruct Hfl as [[Hse _]|(_ & Hc' & _)]; [|congruence].
  unfold copying. cbn. split_and!; try done.
  destruct Hstop as [[-> ->]|[-> ->]]; [by left|right].
  split_and!; [done..|]. exists ck, w. split; [done|].
  split; [|done].
  destruct (savePoint_valid src (entrySource zf)) as [Hsp Hro].
  - by rewrite entrySource_data.
  - done.
  - rewrite Hd, Ho. lia.
  - exists (savePoint src). subst ck. cbn. split_and!; [done..|lia].
Qed.

Lemma copying_chunk w x src wr st c sav b evs e' :
  copying zfs B i zf w x src wr st →
  c = take (length c) (drop (Z.to_nat w) (zip.Payload zf)) →
  (Z.to_nat w + length c ≤ length (zip.Payload zf))%nat →
  savedCheckpoints evs = [] →
  e' = withWriteOffset (add64 w (int64 (Z.of_nat (length c))))
         (withWriteOffset w (zipFileEntry zf)) →
  copying zfs B i zf (w + Z.of_nat (length c))
    (Z.max x (w + Z.of_nat (length c)))
    (withWantSave b (withOffset (srcOffset src + Z.of_nat (length c)) src))
    {| writerPath := writerPath wr;
       writerOffset := writerOffset wr + Z.of_nat (length c) |}
    {| sink := applyCall (CallWrite (writerPath wr) (writerOffset wr) c)
                 (sink st);
       savior.saveConsumer := sav; trace := trace st ++ evs;
       checkpoint := withEntry (Some e') (checkpoint st);
       doneBytes := doneBytes st; stopError := stopError st;
       copierStop := copierStop st |}.
Proof.
  intros (Hi & He & Hd & Hb & Ho & Hp & Hwo & Hw0 & Hwx & Hxd & Hs & Hfl)
    Hc Hfit Hq ->.
  unfold copying. cbn. split_and!; try done; try lia.
  - rewrite int64_small, add64_small by lia. done.
  - rewrite Hs, Hp, Hwo, Hc. unfold partlyWritten.
    rewrite applyCall_write_overlay by lia.
    by rewrite <- Hc.
  - destruct Hfl as [?|(? & ? & ck & ws & Hl & Hf & Hws)]; [by left|right].
    split_and!; [done..|]. exists ck, ws.
    rewrite lastSaved_app_quiet by done. split_and!; [done..|lia].
Qed.
Lemma copyLoop_sink bufSize w0 total chs :
  ∀ w x src wr st,
    copying zfs B i zf w x src wr st →
    chs = chunks bufSize (drop (Z.to_nat w) (zip.Payload zf)) →
    copyOutcome zfs B (entryEffect zf (extracted (take i zfs) B))
      (copyLoop (OnSave w0 total) (EmitProgress total) chs src wr st).
Proof.
  induction chs as [|c rest IH]; intros w x src wr st Hinv Hch.
  all: rewrite copyLoop_eq, bind_run; cbn [gets].
  all: destruct (copierStop st) eqn:Hcs; [by eapply copying_stopped|].
  all: pose proof Hinv as (_ & He & _).
  all: rewrite bind_run; unfold serveSave.
  - (* end of the stream *)
    destruct (srcWantSave src); [|by eapply copying_done].
    rewrite bind_run, (OnSave_run _ _ _ _ _ He). cbv zeta.
    destruct (faulty (sink st) (CallSync _)); [by intros ?|].
    destruct (default _ _) as [[]|]; [| |by intros ?].
    + eapply copying_done; [|by rewrite <- Hch].
      eapply copying_saved; [done..|by left|apply (lastSaved_save _ [_; _; _])].
    + eapply copying_done; [|by rewrite <- Hch].
      eapply copying_saved; [done..|by right|apply (lastSaved_save _ [_; _; _])].
  - (* one more chunk *)
    symmetry in Hch. apply chunks_drop_cons in Hch as (Hc & Hrest & Hlc).
    rewrite length_drop in Hlc.
    assert (∀ src1 st1,
              copying zfs B i zf w x src1 wr st1 →
              copyOutcome zfs B (entryEffect zf (extracted (take i zfs) B))
                (('(src', w') ← copyChunk (EmitProgress total) c src1 wr;
                  copyLoop (OnSave w0 total) (EmitProgress total) rest
                    src' w') st1))
      as Htail.
    { intros src1 st1 Hinv1. pose proof Hinv1 as (_ & He1 & _).
      rewrite bind_run, (copyChunk_run _ _ _ _ _ _ He1). cbv zeta.
      destruct (faulty (sink st1) _); [by intros ?|].
      eapply IH.
      - eapply copying_chunk; [exact Hinv1| |lia|reflexivity|reflexivity].
        rewrite Hc at 2. rewrite take_length_take. exact Hc.
      - rewrite Hrest, drop_drop. do 2 f_equal.
        destruct Hinv1 as (_ & _ & _ & _ & _ & _ & _ & Hw0 & _). lia. }
    destruct (srcWantSave src); [|by apply Htail].
    rewrite bind_run, (OnSave_run _ _ _ _ _ He). cbv zeta.
    destruct (faulty (sink st) (CallSync _)); [by intros ?|].
    destruct (default _ _) as [[]|]; [| |by intros ?].
    + apply Htail.
      eapply copying_saved; [done..|by left|apply (lastSaved_save _ [_; _; _])].
    + apply Htail.
      eapply copying_saved; [done..|by right|apply (lastSaved_save _ [_; _; _])].
Qed.

Lemma copyOutcome_wrap done (m : M unit) st :
  copyOutcome zfs B done (m st) → copyOutcome zfs B done (wrap m st).
Proof.
  unfold copyOutcome, wrap. destruct (m st) as [[[]|e|] st']; cbn; done.
Qed.

Lemma copyResumable_sink bufSize sc total st w x p :
  EntryIndex (checkpoint st) = Z.of_nat i →
  Entry_ (checkpoint st) = Some (withWriteOffset w (zipFileEntry zf)) →
  resumeOffset (entrySource zf) sc = Some p →
  0 ≤ p → p ≤ w → w ≤ x → x ≤ Z.of_nat (length (zip.Payload zf)) →
  stopError st = None → copierStop st = false →
  applyCall (CallGetWriter (zipFileEntry zf)) (sink st)
  = partlyWritten zf x (extracted (take i zfs) B) →
  copyOutcome zfs B (entryEffect zf (extracted (take i zfs) B))
    (copyResumable bufSize (entrySource zf)
       (withWriteOffset w (zipFileEntry zf)) sc total st).
Proof.
  intros Hi He Hro Hp Hpw Hwx Hxd Hse Hcs Hsink.
  rewrite (copyResumable_run _ _ _ _ _ _ _ Hro).
  cbn [WriteOffset withWriteOffset CanonicalPath].
  assert (∀ src1 st1,
            srcData src1 = zip.Payload zf →
            srcBlocks src1 = srcBlocks (entrySource zf) →
            srcOffset src1 = w →
            EntryIndex (checkpoint st1) = Z.of_nat i →
            Entry_ (checkpoint st1)
            = Some (withWriteOffset w (zipFileEntry zf)) →
            stopError st1 = None → copierStop st1 = false →
            sink st1 = sink st →
            copyOutcome zfs B (entryEffect zf (extracted (take i zfs) B))
              ((logf (LogResumingFrom (CanonicalPath (zipFileEntry zf)) w);;
                writer ← wrap (GetWriter (withWriteOffset w (zipFileEntry zf)));
                wrap (CopierDo bufSize (OnSave writer total)
                        (EmitProgress total) src1 writer)) st1)) as Htail.
  { intros src1 st1 Hd1 Hb1 Ho1 Hi1 He1 Hse1 Hcs1 Hs1.
    rewrite bind_run. cbn [logf emit modify]. rewrite wrap_bind_run.
    unfold GetWriter. rewrite bind_run. unfold sinkCall at 1.
    cbn [sink withTrace]. rewrite Hs1.
    destruct (faulty (sink st) _); [by intros ?|].
    cbn [mret M_ret ret]. apply copyOutcome_wrap. unfold CopierDo.
    eapply copyLoop_sink; [|by rewrite Ho1, Hd1].
    unfold copying. cbn. rewrite Ho1.
    split_and!; [done..|lia|done|done| |by left].
    rewrite <- Hsink. by apply applyCall_getWriter_path. }
  rewrite bind_run. destruct (Z.ltb_spec p w) as [Hlt|Hge].
  - cbv zeta. rewrite sub64_small by lia.
    rewrite bind_run. cbn [logf emit modify]. rewrite bind_run.
    cbn [logf emit modify]. unfold wrap at 1, DiscardByRead.
    cbn [srcData srcOffset withOffset]. rewrite entrySource_data.
    rewrite Z.max_r by lia.
    destruct (Z.leb_spec (w - p) (Z.of_nat (length (zip.Payload zf)) - p));
      [|lia].
    rewrite bind_run. cbn [emit modify mret M_ret ret].
    apply Htail; cbn; [apply entrySource_data|done|lia|done..].
  - cbn [mret M_ret ret].
    apply Htail; cbn; [apply entrySource_data|done|lia|done..].
Qed.

End CopyInvariant.

Lemma copyOutcome_count zfs B done zf (m : M unit) st :
  copyOutcome zfs B done (m st) →
  copyOutcome zfs B done ((m;; modify (countEntry zf)) st).
Proof.
  unfold copyOutcome. rewrite bind_run.
  destruct (m st) as [[[]|e|] st']; cbn; done.
Qed.

Lemma openSource_run zf st :
  openSource zf st
  = if resumable zf
    then if zip.DataOffsetFails zf
         then (Err (Wrapped ErrDataOffset), st)
         else (Ok (Some (entrySource zf)), st)
    else (Ok None, st).
Proof.
  unfold openSource, resumable, entrySource, DataOffset.
  destruct (_ || _); [|done].
  rewrite wrap_bind_run. destruct (zip.DataOffsetFails zf); [done|].
  cbn [mret M_ret ret]. by destruct (_ =? _).
Qed.

Lemma ioCopyLoop_sink chs :
  ∀ w st,
    (ioCopyLoop chs w st).1 = Ok tt →
    sink (ioCopyLoop chs w st).2
    = writeAll (writerPath w) (writerOffset w) chs (sink st)
    ∧ stopError (ioCopyLoop chs w st).2 = stopError st
    ∧ copierStop (ioCopyLoop chs w st).2 = copierStop st.
Proof.
  induction chs as [|c rest IH]; intros w st; cbn [ioCopyLoop writeAll].
  { done. }
  rewrite bind_run. unfold Write. rewrite bind_run. unfold sinkCall.
  destruct (faulty (sink st) _); [done|].
  cbn [mret M_ret ret]. intros H. apply IH in H as (H1 & H2 & H3).
  by rewrite H1, H2, H3.
Qed.

Lemma zipFileEntry_offset zf :
  zipFileEntry zf = withWriteOffset 0 (zipFileEntry zf).
Proof. reflexivity. Qed.

Ltac case_faulty :=
  match goal with
  | |- context [if faulty ?s ?c then _ else _] => destruct (faulty s c)
  end.

(** ** One entry, from its start *)

Lemma extractEntry_fresh_sink bufSize zfs B i zf total st :
  zfs !! i = Some zf →
  Z.of_nat (length (zip.Payload zf)) < 2 ^ 63 →
  stopError st = None → copierStop st = false →
  Entry_ (checkpoint st) = None →
  SourceCheckpoint_ (checkpoint st) = None →
  sink st = extracted (take i zfs) B →
  copyOutcome zfs B (extracted (take (S i) zfs) B)
    (extractEntry bufSize zf (Z.of_nat i) total st).
Proof.
  intros Hzf Hlen Hse Hcs He Hsc Hs.
  rewrite (extracted_take_S _ _ _ _ Hzf).
  rewrite extractEntry_eq. apply copyOutcome_count.
  unfold entered, enteredEntry. rewrite He, Hsc. cbn [default].
  unfold entryBody.
  destruct (Kind (zipFileEntry zf)) eqn:HK; cbv beta iota.
  - (* a directory *)
    unfold wrap, Mkdir, sinkCall, copyOutcome.
    case_faulty; [by intros ?|].
    cbn. intros _. left. unfold entryEffect. by rewrite Hs, HK.
  - (* a symbolic link *)
    rewrite wrap_bind_run. unfold Open.
    destruct (zip.OpenFails zf); [by intros ?|].
    cbn [mret M_ret ret]. unfold wrap, Symlink, sinkCall, copyOutcome.
    case_faulty; [by intros ?|].
    cbn. intros _. left. unfold entryEffect. by rewrite Hs, HK.
  - (* a file *)
    rewrite bind_run, openSource_run.
    destruct (resumable zf) eqn:Hres.
    + destruct (zip.DataOffsetFails zf); [by intros ?|].
      match goal with |- copyOutcome _ _ _ (copyResumable _ _ _ _ _ ?s) =>
        apply (copyResumable_sink zfs B i zf Hzf HK Hres Hlen bufSize None
                 total s 0 0 0) end; cbn; try done; try lia.
      rewrite Hs. by rewrite partlyWritten_none.
    + unfold copyFallback. rewrite bind_run. cbn [modify].
      rewrite wrap_bind_run. unfold Open.
      destruct (zip.OpenFails zf); [by intros ?|].
      cbn [mret M_ret ret]. rewrite bind_run.
      unfold currentEntry. rewrite bind_run. cbn [gets].
      cbn [setWriteOffset checkpoint withCheckpoint withEntry Entry_
           fmap option_fmap option_map].
      cbn [mret M_ret ret]. rewrite wrap_bind_run.
      unfold GetWriter. rewrite bind_run. unfold sinkCall at 1.
      cbn [sink withCheckpoint].
      case_faulty; [by intros ?|].
      cbn [mret M_ret ret]. unfold ioCopy, wrap, copyOutcome.
      match goal with |- context [ioCopyLoop ?chs ?w ?s] =>
        pose proof (ioCopyLoop_sink chs w s) as Hio;
        destruct (ioCopyLoop chs w s) as [[[]|e|] st'] end;
        cbn; [|done..].
      intros _. destruct (Hio eq_refl) as (H1 & H2 & H3). left.
      cbn in H1, H2, H3. split_and!; [congruence..|].
      rewrite H1, Hs. unfold entryEffect. rewrite HK.
      rewrite <- (applyCall_write_nil (withWriteOffset 0 (zipFileEntry zf))) at 1.
      change 0 with (Z.of_nat (length (@nil byte))) at 3.
      cbn [CanonicalPath withWriteOffset].
      rewrite (writeAll_written _ _ [] _). cbn [app].
      by rewrite chunks_concat.
Qed.

(** ** One entry, from a checkpoint *)

Lemma extractEntry_resumed_sink bufSize zfs B i zf total st w x :
  zfs !! i = Some zf →
  Kind (zipFileEntry zf) = EntryKindFile → resumable zf = true →
  Z.of_nat (length (zip.Payload zf)) < 2 ^ 63 →
  stopError st = None → copierStop st = false →
  fits zf i (checkpoint st) w →
  w ≤ x → x ≤ Z.of_nat (length (zip.Payload zf)) →
  sink st = partlyWritten zf x (extracted (take i zfs) B) →
  copyOutcome zfs B (extracted (take (S i) zfs) B)
    (extractEntry bufSize zf (Z.of_nat i) total st).
Proof.
  intros Hzf HK Hres Hlen Hse Hcs (p & Hi & He & Hsc & Hro & Hpw) Hwx Hxd Hs.
  rewrite (extracted_take_S _ _ _ _ Hzf).
  rewrite extractEntry_eq. apply copyOutcome_count.
  unfold entered, enteredEntry. rewrite He, Hsc. cbn [default from_option id].
  unfold entryBody.
  change (Kind (withWriteOffset w (zipFileEntry zf)))
    with (Kind (zipFileEntry zf)).
  rewrite HK, bind_run, openSource_run, Hres.
  destruct (zip.DataOffsetFails zf); [by intros ?|].
  pose proof (resumeOffset_bounds _ _ _ Hro) as Hp.
  match goal with |- copyOutcome _ _ _ (copyResumable _ _ _ _ _ ?s) =>
    apply (copyResumable_sink zfs B i zf Hzf HK Hres Hlen bufSize _
             total s w x p) end; cbn; try done; try lia.
  rewrite Hs. unfold partlyWritten. by apply applyCall_getWriter_written.
Qed.

(** ** The entry loop *)

Lemma copyOutcome_stopped zfs B done done' st :
  stopError st ≠ None →
  copyOutcome zfs B done (Ok tt, st) → copyOutcome zfs B done' (Ok tt, st).
Proof.
  intros Hs H Hok. destruct (H Hok) as [(? & _)|?]; [done|by right].
Qed.

Lemma entryLoop_next bufSize zfs B total zf rest front st :
  zfs = front ++ zf :: rest →
  stopError st = None →
  (∀ st', stopError st' = None → copierStop st' = false →
          Entry_ (checkpoint st') = None →
          SourceCheckpoint_ (checkpoint st') = None →
          sink st' = extracted (front ++ [zf]) B →
          copyOutcome zfs B (extracted zfs B)
            (entryLoop bufSize rest (Z.of_nat (length front) + 1) total st')) →
  copyOutcome zfs B (extracted (take (S (length front)) zfs) B)
    (extractEntry bufSize zf (Z.of_nat (length front)) total
       (withTrace (trace st
                   ++ [EvLog (LogDoingEntryIndex (Z.of_nat (length front)))])
          st)) →
  copyOutcome zfs B (extracted zfs B)
    (entryLoop bufSize (zf :: rest) (Z.of_nat (length front)) total st).
Proof.
  intros Hz Hse Hrest Hentry. cbn [entryLoop].
  rewrite bind_run. cbn [gets]. rewrite Hse.
  rewrite bind_run. cbn [logf emit modify]. rewrite wrap_bind_run.
  destruct (extractEntry _ _ _ _ _) as [[[]|e|] st1]; [|by intros ?..].
  rewrite bind_run. cbn [modify].
  destruct (stopError st1) eqn:Hse1.
  - rewrite entryLoop_stopped by (cbn; congruence).
    intros _. destruct (Hentry eq_refl) as [(? & _)|(H1 & H2 & H3)];
      cbn in *; [congruence|by right].
  - destruct (Hentry eq_refl) as [(_ & H2 & H3)|(? & _)];
      cbn in *; [|congruence].
    apply Hrest; cbn; try done.
    rewrite H3. f_equal. rewrite Hz.
    replace (front ++ zf :: rest) with ((front ++ [zf]) ++ rest)
      by by rewrite <- app_assoc.
    rewrite take_app_length'; [done|]. rewrite length_app. cbn. lia.
Qed.

Lemma entryLoop_sink bufSize zfs B total rest :
  payloadsFit zfs →
  ∀ front st,
    zfs = front ++ rest →
    stopError st = None → copierStop st = false →
    Entry_ (checkpoint st) = None →
    SourceCheckpoint_ (checkpoint st) = None →
    sink st = extracted front B →
    copyOutcome zfs B (extracted zfs B)
      (entryLoop bufSize rest (Z.of_nat (length front)) total st).
Proof.
  intros Hwf. induction rest as [|zf rest IH];
    intros front st Hz Hse Hcs He Hsc Hs.
  - cbn. intros _. left. by rewrite Hz, app_nil_r.
  - eapply entryLoop_next; [done|done| |].
    + intros st' ? ? ? ? ?.
      replace (Z.of_nat (length front) + 1)
        with (Z.of_nat (length (front ++ [zf])))
        by (rewrite length_app; cbn; lia).
      apply IH; try done. by rewrite Hz, <- app_assoc.
    + apply extractEntry_fresh_sink; cbn; try done.
      * rewrite Hz. by apply list_lookup_middle.
      * unfold payloadsFit in Hwf. rewrite Forall_forall in Hwf.
        apply Hwf. rewrite Hz. apply elem_of_app. right. by left.
      * by rewrite Hs, Hz, take_app_length.
Qed.

Lemma entryLoop_error bufSize files :
  ∀ i total st e,
    (entryLoop bufSize files i total st).1 = Err e → e ≠ ErrStop.
Proof.
  induction files as [|zf rest IH]; intros i total st e; [done|].
  cbn [entryLoop]. rewrite bind_run. cbn [gets].
  destruct (stopError st); [done|].
  rewrite bind_run. cbn [logf emit modify]. rewrite wrap_bind_run.
  destruct (extractEntry _ _ _ _ _) as [[[]|e'|] st1]; [| |done].
  - rewrite bind_run. cbn [modify]. apply IH.
  - cbn. intros [= <-]. by destruct e'.
Qed.

(** ** A whole run *)

Lemma finish_sink zfs B files (m : M unit) st :
  copyOutcome zfs B (extracted zfs B) (m st) →
  (∀ e, (m st).1 = Err e → e ≠ ErrStop) →
  runOutcome zfs B ((m;; finishResume files) st).
Proof.
  intros Hout Herr. unfold runOutcome. rewrite bind_run.
  destruct (m st) as [[[]|e|] st'] eqn:Hm; cbn [fst snd] in *.
  - unfold finishResume. rewrite bind_run. cbn [gets].
    destruct (Hout eq_refl) as [(Hse & _ & Hs)|(Hse & _ & Hck)];
      cbn [fst snd] in *; rewrite Hse.
    + by rewrite bind_run.
    + done.
  - destruct e; try done. by specialize (Herr _ eq_refl).
  - done.
Qed.

Lemma preallocateAll_sink files :
  ∀ st,
    (preallocateAll files st).1 = Ok tt →
    sink (preallocateAll files st).2 = preallocated files (sink st).
Proof.
  induction files as [|zf rest IH]; intros st; [done|].
  cbn [preallocateAll preallocated foldl]. rewrite bind_run.
  unfold isFileKind.
  destruct (Kind (zipFileEntry zf)); cbn [mret M_ret ret]; try apply IH.
  unfold wrap, Preallocate, sinkCall.
  case_faulty; [done|]. intros H. by rewrite (IH _ H).
Qed.

Lemma preallocateAll_error files :
  ∀ st e, (preallocateAll files st).1 = Err e → e ≠ ErrStop.
Proof.
  intros st e.
  destruct (preallocateAll_run files st) as [[e' ->]|[-> _]]; [|done].
  by intros [= <-].
Qed.

Lemma Resume_fresh_sink bufSize ze s0 :
  payloadsFit (zr ze) →
  runOutcome (zr ze) (preallocated (zr ze) s0) (Resume bufSize ze None s0).
Proof.
  intros Hwf. rewrite Resume_fresh, bind_run.
  pose proof (preallocateAll_sink (zr ze) (freshState ze s0)) as Hsink.
  pose proof (preallocateAll_error (zr ze) (freshState ze s0)) as Herr.
  pose proof (preallocateAll_run (zr ze) (freshState ze s0)) as Hrun.
  destruct (keeps_preallocateAll (zr ze) (freshState ze s0)) as (Hse & Hcs & _).
  destruct (preallocateAll (zr ze) (freshState ze s0)) as [[[]|e|] st1];
    cbn [fst snd] in *.
  - destruct Hrun as [[e He]|(_ & _ & _ & Hck)]; [done|].
    rewrite bind_run. cbn [logf emit modify].
    apply finish_sink; unfold runEntries; cbn [Z.ltb Z.compare];
      change (Z.to_nat 0) with 0%nat; rewrite drop_0.
    + apply (entryLoop_sink bufSize (zr ze) _ _ (zr ze) Hwf []); cbn;
        try done.
      * by rewrite Hck.
      * by rewrite Hck.
      * by rewrite Hsink.
    + apply entryLoop_error.
  - unfold runOutcome. cbn. destruct e; try done. by specialize (Herr _ eq_refl).
  - done.
Qed.

Lemma Resume_resumed_sink bufSize ze ck s B :
  payloadsFit (zr ze) →
  consistent (zr ze) B ck s →
  runOutcome (zr ze) B (Resume bufSize ze (Some ck) s).
Proof.
  intros Hwf (i & zf & w & x & Hzf & HK & Hres & Hfit & Hwx & Hxd & ->).
  pose proof Hfit as (p & Hi & _).
  rewrite Resume_resumed. apply finish_sink; unfold runEntries; rewrite Hi.
  all: destruct (Z.ltb_spec (Z.of_nat i) 0) as [?|_]; [lia|].
  all: rewrite Nat2Z.id.
  2: apply entryLoop_error.
  pose proof (take_drop_middle _ _ _ Hzf) as Hz.
  pose proof (length_take_le (zr ze) i) as Hlt.
  assert (length (take i (zr ze)) = i) as Hli.
  { apply Hlt. apply lookup_lt_Some in Hzf. lia. }
  rewrite (drop_S _ _ _ Hzf). rewrite <- Hli at 2 3.
  assert (Z.of_nat (length (zip.Payload zf)) < 2 ^ 63) as Hlen.
  { unfold payloadsFit in Hwf. rewrite Forall_forall in Hwf.
    apply Hwf. by eapply list_elem_of_lookup_2. }
  eapply entryLoop_next; [done|done| |].
  - intros st' ? ? ? ? ?.
    replace (Z.of_nat (length (take i (zr ze))) + 1)
      with (Z.of_nat (length (take i (zr ze) ++ [zf])))
      by (rewrite length_app; cbn; lia).
    apply entryLoop_sink; try done. by rewrite <- app_assoc.
  - rewrite Hli.
    by eapply (extractEntry_resumed_sink _ _ _ _ _ _ _ w x).
Qed.

Lemma interrupted_sink bufSize zfs ck s sN :
  interrupted bufSize zfs ck s sN →
  payloadsFit zfs →
  ∀ B,
    match ck with
    | None => B = preallocated zfs s
    | Some c => consistent zfs B c s
    end →
    sN = extracted zfs B.
Proof.
  intros Hrun Hwf.
  induction Hrun as [ze ck s r Hze Hok|ze ck s ck' s' Hze Hstop Hlast Hrun IH];
    intros B Hck.
  all: assert (runOutcome zfs B (Resume bufSize ze ck s)) as Hout
    by (subst zfs; destruct ck as [c|];
        [by apply Resume_resumed_sink
        |subst B; by apply Resume_fresh_sink]).
  all: unfold runOutcome in Hout.
  - by rewrite Hok in Hout.
  - rewrite Hstop in Hout. destruct Hout as (ck0 & Hl & Hc).
    apply IH. rewrite Hlast in Hl. by injection Hl as ->.
Qed.

(** ** Progress *)

Lemma progressReports_app t1 t2 :
  progressReports (t1 ++ t2) = progressReports t1 ++ progressReports t2.
Proof. apply omap_app. Qed.

Lemma climbs_weaken_l c c1 c' ns : c ≤ c1 → climbs c1 c' ns → climbs c c' ns.
Proof.
  destruct ns; cbn; [lia|]. intros ? (? & ? & ?). split_and!; [lia|done..].
Qed.

Lemma climbs_weaken_r c c1 c' ns : c1 ≤ c' → climbs c c1 ns → climbs c c' ns.
Proof.
  revert c. induction ns as [|n ns IH]; intros c Hc; cbn; [lia|].
  intros (? & ? & ?). split_and!; [done..|]. by apply IH.
Qed.

Lemma climbs_app c c1 c' a b :
  climbs c c1 a → climbs c1 c' b → climbs c c' (a ++ b).
Proof.
  revert c. induction a as [|n a IH]; intros c; cbn.
  - apply climbs_weaken_l.
  - intros (? & ? & ?) Hb. split_and!; [done..|]. by apply IH.
Qed.

Lemma climbs_le c c' ns : climbs c c' ns → c ≤ c'.
Proof.
  revert c. induction ns as [|n ns IH]; intros c; cbn; [done|].
  intros (? & ? & H). apply IH in H. lia.
Qed.

Lemma climbs_bounds c c' ns :
  climbs c c' ns → Forall (λ n, c ≤ n ∧ 0 < n ∧ n ≤ c') ns.
Proof.
  revert c. induction ns as [|n ns IH]; intros c; cbn; [done|].
  intros (? & ? & H). constructor.
  - apply climbs_le in H. lia.
  - eapply Forall_impl; [by apply IH|]. cbn. lia.
Qed.

Lemma climbs_sorted c c' ns (i j : nat) a b :
  climbs c c' ns → (i ≤ j)%nat → ns !! i = Some a → ns !! j = Some b → a ≤ b.
Proof.
  revert c i j. induction ns as [|n ns IH]; intros c i j; cbn; [done|].
  intros (? & ? & H) Hij Hi Hj. destruct i as [|i], j as [|j]; cbn in *.
  - simplify_eq. lia.
  - simplify_eq. apply climbs_bounds in H.
    rewrite Forall_forall in H. apply list_elem_of_lookup_2 in Hj.
    apply H in Hj. lia.
  - lia.
  - eapply (IH n i j); [done|lia|done..].
Qed.

Lemma endsAt_app c c1 c' a b :
  endsAt c c1 a → endsAt c1 c' b → endsAt c c' (a ++ b).
Proof.
  unfold endsAt. rewrite last_app. destruct (last b) as [n|]; cbn; [done|].
  by intros -> ->.
Qed.

Lemma reported_trans T c c1 c' D' (fin : Prop) st st1 out ns1 :
  progressReports (trace st1)
  = progressReports (trace st) ++ ((λ n, float64_div n T) <$> ns1) →
  climbs c c1 ns1 → endsAt c c1 ns1 →
  (stopError st ≠ None → stopError st1 ≠ None) →
  reported T c1 c' D' fin st1 out → reported T c c' D' fin st out.
Proof.
  intros Hrep Hcl Hend Hstop Hout Hok.
  destruct (Hout Hok) as (ns2 & H1 & H2 & H3 & H4 & H5 & H6).
  exists (ns1 ++ ns2). split_and!; try done.
  - by rewrite H1, Hrep, fmap_app, app_assoc.
  - by eapply climbs_app.
  - tauto.
  - intros ? ?. eapply endsAt_app; [done|]. by apply H6.
Qed.

Lemma progressReports_save t l1 l2 c ck a :
  progressReports (t ++ [EvLog l1; EvLog l2] ++ [EvSink c true; EvSave ck a])
  = progressReports t ++ [Progress ck].
Proof. by rewrite progressReports_app. Qed.

Lemma progressReports_chunk t c p n b :
  progressReports (t ++ [EvSink c true; EvProgress p; EvShouldSave n b])
  = progressReports t ++ [p].
Proof. by rewrite progressReports_app. Qed.

Section Progress.
Context (T D : Z) (zf : zip.File).

Lemma reporting_return w src st :
  reporting T D zf w src st →
  copierStop st = true ∨ w = Z.of_nat (length (zip.Payload zf)) →
  reported T (D + w) (D + Z.of_nat (length (zip.Payload zf))) D True st
    (Ok tt, st).
Proof.
  intros (He & Hd & HD & Hw & Hwl & HT & HT' & Hsd & Hso & Hws & Hfl) Hend _.
  exists []. cbn [fst snd fmap list_fmap]. rewrite app_nil_r.
  split_and!; try done.
  - cbn. lia.
  - intros Hse _. unfold endsAt. cbn.
    destruct Hend as [Hcs| ->]; [|done]. by apply Hfl in Hcs.
Qed.

Lemma reporting_saved w src st prog sc stop cstop sav tr :
  reporting T D zf w src st →
  (stop = stopError st ∧ cstop = copierStop st)
  ∨ (stop = Some ErrStop ∧ cstop = true) →
  reporting T D zf w (withWantSave false src)
    {| sink := sink st; savior.saveConsumer := sav; trace := tr;
       checkpoint := withProgress prog
                       (withSourceCheckpoint sc (checkpoint st));
       doneBytes := D; stopError := stop; copierStop := cstop |}.
Proof.
  intros (He & Hd & HD & Hw & Hwl & HT & HT' & Hsd & Hso & Hws & Hfl) Hstop.
  unfold reporting. cbn. split_and!; try done.
  by destruct Hstop as [[-> ->]|[-> ->]].
Qed.

Lemma reporting_chunk w src st e (n : nat) b sav tr snk :
  reporting T D zf w src st →
  Entry_ (checkpoint st) = Some e →
  (0 < n)%nat → w + Z.of_nat n ≤ Z.of_nat (length (zip.Payload zf)) →
  reporting T D zf (w + Z.of_nat n)
    (withWantSave b (withOffset (srcOffset src + Z.of_nat n) src))
    {| sink := snk; savior.saveConsumer := sav; trace := tr;
       checkpoint :=
         withEntry
           (Some (withWriteOffset (w + Z.of_nat n) e))
           (checkpoint st);
       doneBytes := D; stopError := stopError st;
       copierStop := copierStop st |}.
Proof.
  intros (He & Hd & HD & Hw & Hwl & HT & HT' & Hsd & Hso & Hws & Hfl)
    He' Hn Hfit.
  destruct He as (e0 & He0 & Hwo). assert (e0 = e) as -> by congruence.
  unfold reporting. cbn. split_and!; try done; try lia.
  eexists. split; [done|]. done.
Qed.

Lemma copyLoop_progress bufSize w0 chs :
  ∀ w src wr st,
    reporting T D zf w src st →
    chs = chunks bufSize (drop (Z.to_nat w) (zip.Payload zf)) →
    reported T (D + w) (D + Z.of_nat (length (zip.Payload zf))) D True st
      (copyLoop (OnSave w0 T) (EmitProgress T) chs src wr st).
Proof.
  induction chs as [|c rest IH]; intros w src wr st Hinv Hch.
  all: rewrite copyLoop_eq, bind_run; cbn [gets].
  all: destruct (copierStop st) eqn:Hcs;
    [eapply reporting_return; [done|by left]|].
  all: pose proof Hinv as ((e & He & Hwo) & Hd & HD & Hw & Hwl & HT & HT'
                           & Hsd & Hso & Hws & Hfl).
  all: unfold serveSave.
  all: assert (∀ k : unit → M unit,
         srcWantSave src = true →
         (∀ st', reporting T D zf w (withWantSave false src) st' →
                 reported T (D + w)
                   (D + Z.of_nat (length (zip.Payload zf))) D True st'
                   (k tt st')) →
         reported T (D + w) (D + Z.of_nat (length (zip.Payload zf))) D True
           st
           ((OnSave w0 T (Some {| Offset := savePoint src |}) ≫= k) st))
    as Hsave.
  1, 3: intros k Hwant Hm;
    rewrite bind_run, (OnSave_run _ _ _ _ _ He); cbv zeta;
    (destruct (faulty (sink st) (CallSync _)); [by intros ?|]);
    rewrite Hwo, Hd, add64_small by lia;
    (destruct (default _ _) as [[]|]; [| |by intros ?]);
    (eapply (reported_trans _ _ (D + w) _ _ _ _ _ _ [D + w]);
     [..|apply Hm; apply reporting_saved; [done|by auto]];
     [apply progressReports_save
     |cbn; split_and!; [lia|by apply Hws|lia]
     |done
     |cbn; by intros ?]).
  - (* end of the stream *)
    assert (w = Z.of_nat (length (zip.Payload zf))) as Hend.
    { symmetry in Hch. apply chunks_drop_nil in Hch.
      assert (length (drop (Z.to_nat w) (zip.Payload zf)) = 0%nat) as Hl
        by by rewrite Hch.
      rewrite length_drop in Hl. lia. }
    destruct (srcWantSave src) eqn:Hwant.
    + rewrite bind_assoc_run. apply Hsave; [done|].
      intros st' Hinv'. eapply reporting_return; [done|by right].
    + eapply reporting_return; [done|by right].
  - (* one more chunk *)
    symmetry in Hch. apply chunks_drop_cons in Hch as (Hc & Hrest & Hlc).
    rewrite length_drop in Hlc.
    assert (∀ src1 st1,
              reporting T D zf w src1 st1 →
              reported T (D + w) (D + Z.of_nat (length (zip.Payload zf))) D
                True st1
                (('(src', w') ← copyChunk (EmitProgress T) c src1 wr;
                  copyLoop (OnSave w0 T) (EmitProgress T) rest src' w') st1))
      as Htail.
    { intros src1 st1 Hinv1.
      pose proof Hinv1 as ((e1 & He1 & Hwo1) & Hd1 & _).
      rewrite bind_run, (copyChunk_run _ _ _ _ _ _ He1). cbv zeta.
      destruct (faulty (sink st1) _); [by intros ?|].
      cbn [WriteOffset withWriteOffset].
      rewrite Hwo1, Hd1.
      rewrite (int64_small (Z.of_nat (length c))) by lia.
      rewrite (add64_small w) by lia.
      rewrite (add64_small D) by lia.
      eapply (reported_trans _ _ (D + (w + Z.of_nat (length c))) _ _ _ _ _ _
                [D + (w + Z.of_nat (length c))]);
        [..|eapply IH;
            [eapply reporting_chunk; [done|done|lia|lia]
            |rewrite Hrest, drop_drop; do 2 f_equal; lia]].
      - rewrite Z.add_assoc. apply progressReports_chunk.
      - cbn. lia.
      - done.
      - done. }
    destruct (srcWantSave src) eqn:Hwant; [|by apply Htail].
    rewrite bind_assoc_run. apply Hsave; [done|].
    intros st' Hinv'. by apply Htail.
Qed.

Lemma reported_quiet c c' D' (fin : Prop) st st1 out :
  progressReports (trace st1) = progressReports (trace st) →
  (stopError st ≠ None → stopError st1 ≠ None) →
  reported T c c' D' fin st1 out → reported T c c' D' fin st out.
Proof.
  intros Hrep Hstop. apply (reported_trans _ _ c _ _ _ _ _ _ []).
  - by rewrite app_nil_r.
  - cbn. lia.
  - done.
  - done.
Qed.

Lemma reported_wrap c c' D' (fin : Prop) st (m : M unit) st1 :
  reported T c c' D' fin st (m st1) →
  reported T c c' D' fin st (wrap m st1).
Proof.
  unfold reported, wrap. destruct (m st1) as [[[]|e|] st']; cbn; done.
Qed.

Lemma copyResumable_progress bufSize sc st w p e :
  Entry_ (checkpoint st) = Some e → WriteOffset e = w →
  resumeOffset (entrySource zf) sc = Some p →
  p ≤ w → w ≤ Z.of_nat (length (zip.Payload zf)) →
  doneBytes st = D → 0 ≤ D →
  D + Z.of_nat (length (zip.Payload zf)) ≤ T → T < 2 ^ 63 →
  (copierStop st = true → stopError st ≠ None) →
  reported T (D + w) (D + Z.of_nat (length (zip.Payload zf))) D True st
    (copyResumable bufSize (entrySource zf) e sc T st).
Proof.
  intros He Hwo Hro Hpw Hwl Hd HD HT HT' Hfl.
  pose proof (resumeOffset_bounds _ _ _ Hro) as Hp.
  rewrite (copyResumable_run _ _ _ _ _ _ _ Hro). rewrite Hwo.
  assert (∀ src1 st1,
            srcData src1 = zip.Payload zf → srcOffset src1 = w →
            srcWantSave src1 = false →
            checkpoint st1 = checkpoint st → doneBytes st1 = D →
            stopError st1 = stopError st → copierStop st1 = copierStop st →
            progressReports (trace st1) = progressReports (trace st) →
            reported T (D + w) (D + Z.of_nat (length (zip.Payload zf))) D
              True st
              ((logf (LogResumingFrom (CanonicalPath e) w);;
                writer ← wrap (GetWriter e);
                wrap (CopierDo bufSize (OnSave writer T) (EmitProgress T)
                        src1 writer)) st1)) as Htail.
  { intros src1 st1 Hd1 Ho1 Hw1 Hck1 Hdb1 Hse1 Hcs1 Hrep1.
    rewrite bind_run. cbn [logf emit modify]. rewrite wrap_bind_run.
    unfold GetWriter. rewrite bind_run. unfold sinkCall at 1.
    case_faulty; [by intros ?|].
    cbn [mret M_ret ret]. apply reported_wrap. unfold CopierDo.
    eapply reported_quiet; [| |eapply copyLoop_progress; [|by rewrite Ho1, Hd1]].
    - cbn. rewrite !progressReports_app. cbn. by rewrite !app_nil_r.
    - cbn. by rewrite Hse1.
    - unfold reporting. cbn. rewrite Hck1, Hse1, Hcs1, Hw1.
      split_and!; try done; try lia. by exists e. }
  rewrite bind_run. destruct (Z.ltb_spec p w) as [Hlt|Hge].
  - cbv zeta. rewrite sub64_small by lia.
    rewrite bind_run. cbn [logf emit modify]. rewrite bind_run.
    cbn [logf emit modify]. unfold wrap at 1, DiscardByRead.
    cbn [srcData srcOffset withOffset]. rewrite entrySource_data.
    rewrite Z.max_r by lia.
    destruct (Z.leb_spec (w - p) (Z.of_nat (length (zip.Payload zf)) - p));
      [|lia].
    rewrite bind_run. cbn [emit modify mret M_ret ret].
    apply Htail; cbn; try done; try lia.
    + apply entrySource_data.
    + unfold entrySource. by destruct (_ =? _).
    + rewrite !progressReports_app. cbn. by rewrite !app_nil_r.
  - cbn [mret M_ret ret].
    apply Htail; cbn; try done; try lia.
    + apply entrySource_data.
    + unfold entrySource. by destruct (_ =? _).
    + rewrite !progressReports_app. cbn. by rewrite !app_nil_r.
Qed.

End Progress.

(** ** What reports no progress *)

Lemma quiet_ret {A} (a : A) : quiet (mret a).
Proof. by intros st. Qed.

Lemma quiet_bind {A B} (m : M A) (k : A → M B) :
  quiet m → (∀ a, quiet (k a)) → quiet (m ≫= k).
Proof.
  intros Hm Hk st. rewrite bind_run. destruct (Hm st) as (H1 & H2 & H3 & H4).
  destruct (m st) as [[a|e|] st1]; cbn [fst snd] in *; [|done..].
  destruct (Hk a st1) as (H1' & H2' & H3' & H4'). split_and!; congruence.
Qed.

Lemma quiet_gets {A} (f : State → A) : quiet (gets f).
Proof. by intros st. Qed.

Lemma quiet_modify (f : State → State) :
  (∀ st, trace (f st) = trace st ∧ doneBytes (f st) = doneBytes st
         ∧ stopError (f st) = stopError st
         ∧ copierStop (f st) = copierStop st) →
  quiet (modify f).
Proof.
  intros Hf st. destruct (Hf st) as (H1 & H2 & H3 & H4). cbn.
  by rewrite H1.
Qed.

Lemma quiet_logf l : quiet (logf l).
Proof.
  intros st. cbn. rewrite progressReports_app. cbn. by rewrite app_nil_r.
Qed.

Lemma quiet_raise {A} e : quiet (@raise A e).
Proof. by intros st. Qed.

Lemma quiet_wrap {A} (m : M A) : quiet m → quiet (wrap m).
Proof. intros Hm st. rewrite wrap_state. apply Hm. Qed.

Lemma quiet_sinkCall c : quiet (sinkCall c).
Proof.
  intros st. unfold sinkCall. destruct (faulty (sink st) c); cbn.
  all: rewrite progressReports_app; cbn; by rewrite app_nil_r.
Qed.

Lemma quiet_currentEntry : quiet currentEntry.
Proof.
  intros st. unfold currentEntry. rewrite bind_run. cbn [gets].
  by destruct (Entry_ (checkpoint st)).
Qed.

Ltac quiet_step :=
  match goal with
  | |- quiet (_ ≫= _) => apply quiet_bind; [|intros]
  | |- quiet (mret _) => apply quiet_ret
  | |- quiet (gets _) => apply quiet_gets
  | |- quiet (modify _) => apply quiet_modify; intros; by split_and!
  | |- quiet (logf _) => apply quiet_logf
  | |- quiet (raise _) => apply quiet_raise
  | |- quiet (wrap _) => apply quiet_wrap
  | |- quiet (sinkCall _) => apply quiet_sinkCall
  | |- quiet currentEntry => apply quiet_currentEntry
  | |- quiet (if ?b then _ else _) => destruct b
  end.

Lemma quiet_ioCopyLoop chs : ∀ w, quiet (ioCopyLoop chs w).
Proof.
  induction chs as [|c rest IH]; intros w; cbn [ioCopyLoop];
    [apply quiet_ret|].
  unfold Write. apply quiet_bind; [repeat quiet_step|intros [m w']; apply IH].
Qed.

Lemma quiet_copyFallback zf : quiet (copyFallback zf).
Proof.
  unfold copyFallback, Open, GetWriter, ioCopy.
  repeat first [apply quiet_ioCopyLoop|quiet_step].
Qed.

Lemma quiet_Mkdir e : quiet (wrap (Mkdir e)).
Proof. unfold Mkdir. repeat quiet_step. Qed.

Lemma quiet_Symlink zf e :
  quiet (linkname ← wrap (Open zf);
         wrap (Symlink e (string_of_list_byte linkname))).
Proof. unfold Open, Symlink. repeat quiet_step. Qed.

Lemma reported_of_quiet T c c' (fin : Prop) st (m : M unit) st1 :
  quiet m →
  progressReports (trace st1) = progressReports (trace st) →
  stopError st1 = stopError st →
  (copierStop st1 = true → stopError st1 ≠ None) →
  c ≤ c' → (fin → c = c') →
  reported T c c' (doneBytes st1) fin st (m st1).
Proof.
  intros Hq Hrep Hse Hfl Hc Hfin Hok.
  destruct (Hq st1) as (H1 & H2 & H3 & H4).
  exists []. cbn [fmap list_fmap]. rewrite app_nil_r.
  split_and!; try done; try congruence.
  by rewrite H3, H4.
Qed.

Lemma reported_count T c c' D (fin : Prop) zf st (m : M unit) st1 :
  reported T c c' D fin st (m st1) →
  reported T c c' (add64 D (int64 (zip.UncompressedSize64 zf))) fin st
    ((m;; modify (countEntry zf)) st1).
Proof.
  unfold reported. rewrite bind_run.
  destruct (m st1) as [[[]|e|] st']; cbn [fst snd modify]; [|done..].
  intros H Hok. destruct (H Hok) as (ns & H1 & H2 & H3 & H4 & H5 & H6).
  exists ns. unfold countEntry. cbn. by rewrite H3.
Qed.

Lemma reported_weaken T c c' D (fin fin' : Prop) st out :
  (fin' → fin) → reported T c c' D fin st out → reported T c c' D fin' st out.
Proof.
  intros Hf H Hok. destruct (H Hok) as (ns & H1 & H2 & H3 & H4 & H5 & H6).
  exists ns. split_and!; try done. auto.
Qed.

(** ** The progress of one entry *)

Lemma extractEntry_fresh_progress bufSize T D zf i st :
  sized zf →
  Entry_ (checkpoint st) = None → SourceCheckpoint_ (checkpoint st) = None →
  doneBytes st = D → 0 ≤ D →
  D + zip.UncompressedSize64 zf ≤ T → T < 2 ^ 63 →
  (copierStop st = true → stopError st ≠ None) →
  reported T D (D + zip.UncompressedSize64 zf)
    (D + zip.UncompressedSize64 zf) (reportsFully zf) st
    (extractEntry bufSize zf i T st).
Proof.
  intros [Hsz Hpay] He Hsc Hd HD HT HT' Hfl.
  rewrite extractEntry_eq.
  replace (D + zip.UncompressedSize64 zf)
    with (add64 D (int64 (zip.UncompressedSize64 zf))) at 2
    by (rewrite int64_small, add64_small; lia).
  apply reported_count.
  unfold entered, enteredEntry. rewrite He, Hsc. cbn [default from_option id].
  unfold entryBody. subst D.
  assert (∀ m : M unit,
            quiet m →
            (reportsFully zf → zip.UncompressedSize64 zf = 0) →
            reported T (doneBytes st)
              (doneBytes st + zip.UncompressedSize64 zf) (doneBytes st)
              (reportsFully zf) st
              (m {| sink := sink st;
                    savior.saveConsumer := savior.saveConsumer st;
                    trace := trace st ++ [EvLog (LogEntry (zipFileEntry zf))];
                    checkpoint :=
                      withEntry (Some (zipFileEntry zf))
                        (withEntryIndex i (checkpoint st));
                    doneBytes := doneBytes st; stopError := stopError st;
                    copierStop := copierStop st |})) as Hquiet.
  { intros m Hq Hz.
    match goal with |- reported _ _ _ _ _ _ (m ?s) =>
      apply (reported_of_quiet T _ _ _ st m s) end; cbn; try done; try lia.
    - rewrite progressReports_app. cbn. by rewrite app_nil_r.
    - intros Hf. apply Hz in Hf. lia. }
  destruct (Kind (zipFileEntry zf)) eqn:HK; cbv beta iota.
  - apply Hquiet; [apply quiet_Mkdir|].
    intros [[? _]|?]; [congruence|done].
  - apply Hquiet; [apply quiet_Symlink|].
    intros [[? _]|?]; [congruence|done].
  - destruct (resumable zf) eqn:Hres.
    + rewrite bind_run, openSource_run, Hres.
      destruct (zip.DataOffsetFails zf); [by intros ?|].
      apply (reported_weaken _ _ _ _ True); [done|].
      match goal with |- reported _ _ _ _ _ _ (copyResumable _ _ _ _ _ ?s) =>
        pose proof (copyResumable_progress T (doneBytes st) zf bufSize None s
                      0 0 (zipFileEntry zf)) as H;
        eapply (reported_quiet T _ _ _ _ st s) end.
      * cbn. rewrite progressReports_app. cbn. by rewrite app_nil_r.
      * done.
      * rewrite Z.add_0_r, (Hpay eq_refl eq_refl) in H.
        apply H; cbn; try done; lia.
    + rewrite bind_run, openSource_run, Hres.
      apply Hquiet; [apply quiet_copyFallback|].
      intros [[_ ?]|?]; [congruence|done].
Qed.

Lemma extractEntry_resumed_progress bufSize T D zf i st w :
  sized zf →
  Kind (zipFileEntry zf) = EntryKindFile → resumable zf = true →
  fits zf i (checkpoint st) w →
  w ≤ Z.of_nat (length (zip.Payload zf)) →
  doneBytes st = D → 0 ≤ D →
  D + zip.UncompressedSize64 zf ≤ T → T < 2 ^ 63 →
  (copierStop st = true → stopError st ≠ None) →
  reported T (D + w) (D + zip.UncompressedSize64 zf)
    (D + zip.UncompressedSize64 zf) True st
    (extractEntry bufSize zf (Z.of_nat i) T st).
Proof.
  intros [Hsz Hpay] HK Hres (p & Hi & He & Hsc & Hro & Hpw) Hwl Hd HD HT HT'
    Hfl.
  rewrite extractEntry_eq.
  replace (D + zip.UncompressedSize64 zf)
    with (add64 D (int64 (zip.UncompressedSize64 zf))) at 2
    by (rewrite int64_small, add64_small; lia).
  apply reported_count.
  unfold entered, enteredEntry. rewrite He, Hsc. cbn [default from_option id].
  unfold entryBody.
  change (Kind (withWriteOffset w (zipFileEntry zf)))
    with (Kind (zipFileEntry zf)).
  rewrite HK, bind_run, openSource_run, Hres.
  destruct (zip.DataOffsetFails zf); [by intros ?|].
  match goal with |- reported _ _ _ _ _ _ (copyResumable _ _ _ _ _ ?s) =>
    pose proof (copyResumable_progress T D zf bufSize
                  (Some {| Offset := p |}) s w p
                  (withWriteOffset w (zipFileEntry zf))) as H;
    eapply (reported_quiet T _ _ _ _ st s) end.
  - cbn. rewrite progressReports_app. cbn. by rewrite app_nil_r.
  - done.
  - rewrite (Hpay HK Hres) in H, Hwl. apply H; cbn; try done; lia.
Qed.

(** ** The progress of the entry loop *)

Lemma sumSizes_cons zf zfs :
  sumSizes (zf :: zfs) = int64 (zip.UncompressedSize64 zf) + sumSizes zfs.
Proof. reflexivity. Qed.

Lemma sumSizes_app zfs1 zfs2 :
  sumSizes (zfs1 ++ zfs2) = sumSizes zfs1 + sumSizes zfs2.
Proof.
  induction zfs1 as [|zf zfs1 IH]; [done|].
  cbn [app]. rewrite !sumSizes_cons, IH. lia.
Qed.

Lemma sumSizes_sized zfs : Forall sized zfs → 0 ≤ sumSizes zfs.
Proof.
  induction 1 as [|zf zfs [Hsz _] _ IH]; [done|].
  rewrite sumSizes_cons, int64_small; lia.
Qed.

Lemma reported_then T c c1 c' D1 (fin1 fin2 fin : Prop) st (m : M unit)
    (k : unit → M unit) st0 :
  reported T c c1 D1 fin1 st (m st0) →
  (∀ st1, doneBytes st1 = D1 →
          (copierStop st1 = true → stopError st1 ≠ None) →
          reported T c1 c' (doneBytes (k tt st1).2) fin2 st1 (k tt st1)) →
  (fin → fin1 ∧ fin2) →
  reported T c c' (doneBytes ((m ≫= k) st0).2) fin st ((m ≫= k) st0).
Proof.
  intros Hm Hk Hfin. rewrite bind_run.
  destruct (m st0) as [[[]|e|] st1]; [|by intros ?..].
  destruct (Hm eq_refl) as (ns1 & H1 & H2 & H3 & H4 & H5 & H6).
  cbn [fst snd] in *. intros Hok.
  destruct (Hk st1 H3 H4 Hok) as (ns2 & K1 & K2 & K3 & K4 & K5 & K6).
  exists (ns1 ++ ns2). split_and!; try done.
  - by rewrite K1, H1, fmap_app, app_assoc.
  - by eapply climbs_app.
  - tauto.
  - intros Hse Hf. destruct (Hfin Hf) as [Hf1 Hf2].
    assert (stopError st1 = None) as Hse1.
    { destruct (stopError st1) eqn:E; [|done]. by destruct K5. }
    eapply endsAt_app; [by apply H6|by apply K6].
Qed.

Lemma entryLoop_progress bufSize T rest :
  ∀ i st D,
    Forall sized rest →
    Entry_ (checkpoint st) = None → SourceCheckpoint_ (checkpoint st) = None →
    doneBytes st = D → 0 ≤ D → D + sumSizes rest ≤ T → T < 2 ^ 63 →
    (copierStop st = true → stopError st ≠ None) →
    reported T D (D + sumSizes rest)
      (doneBytes (entryLoop bufSize rest i T st).2)
      (Forall reportsFully rest) st (entryLoop bufSize rest i T st).
Proof.
  induction rest as [|zf rest IH]; intros i st D Hsz He Hsc Hd HD HT HT' Hfl.
  { intros _. exists []. cbn [fmap list_fmap]. rewrite app_nil_r.
    unfold endsAt. cbn. split_and!; try done; unfold sumSizes; cbn; lia. }
  apply Forall_cons in Hsz as [Hzf Hsz].
  pose proof (sumSizes_sized _ Hsz) as Hpos. pose proof Hzf as [Hz _].
  rewrite sumSizes_cons, int64_small in * by lia.
  cbn [entryLoop]. rewrite bind_run. cbn [gets].
  destruct (stopError st) eqn:Hse.
  { intros _. exists []. cbn [fmap list_fmap]. rewrite app_nil_r.
    cbn. split_and!; try done; try lia; by rewrite Hse. }
  rewrite bind_run. cbn [logf emit modify].
  match goal with |- reported _ _ _ _ _ _ (_ ?s) =>
    eapply (reported_quiet T _ _ _ _ st s) end.
  { cbn. rewrite progressReports_app. cbn. by rewrite app_nil_r. }
  { done. }
  eapply (reported_then T D (D + zip.UncompressedSize64 zf) _
            (D + zip.UncompressedSize64 zf) (reportsFully zf)
            (Forall reportsFully rest)).
  - apply reported_wrap. apply extractEntry_fresh_progress; cbn; try done.
    + lia.
    + by rewrite Hse.
  - intros st1 Hd1 Hfl1. rewrite bind_run. cbn [modify].
    rewrite Z.add_assoc.
    match goal with |- reported _ _ _ _ _ _ (_ ?s) =>
      eapply (reported_quiet T _ _ _ _ st1 s) end; [done|done|].
    apply IH; cbn; try done; lia.
  - intros H. by apply Forall_cons in H.
Qed.

(** ** The progress of a whole run *)

Lemma countBytes_sum files :
  ∀ i k d t,
    (countBytes files i k (d, int64 t)).2 = int64 (t + sumSizes files).
Proof.
  induction files as [|zf rest IH]; intros i k d t.
  - cbn. unfold sumSizes. cbn. f_equal. lia.
  - cbn [countBytes fst snd]. unfold add64 at 2.
    by rewrite IH, sumSizes_cons, <- Z.add_assoc, int64_add_l.
Qed.

Lemma countBytes_total_sized files k :
  0 ≤ sumSizes files < 2 ^ 63 → (countBytes files 0 k (0, 0)).2 = sumSizes files.
Proof.
  intros H. change (0, 0) with (0, int64 0).
  rewrite countBytes_sum, Z.add_0_l. apply int64_small. lia.
Qed.

Lemma quiet_preallocateAll files : quiet (preallocateAll files).
Proof.
  induction files as [|zf rest IH]; cbn [preallocateAll]; [apply quiet_ret|].
  unfold Preallocate.
  apply quiet_bind; [|done]. destruct (Kind _); repeat quiet_step.
Qed.

Lemma finish_progress T c c' D' (fin : Prop) files st0 (m : M unit) st :
  progressReports (trace st0) = [] →
  reported T c c' D' fin st0 (m st) →
  ∀ r, ((m;; finishResume files) st).1 = Ok r →
       ∃ ns,
         progressReports (trace ((m;; finishResume files) st).2)
         = (λ n, float64_div n T) <$> ns
         ∧ climbs c c' ns ∧ (fin → endsAt c c' ns).
Proof.
  intros H0 Hm r. rewrite bind_run.
  destruct (m st) as [[[]|e|] st1]; [|done..].
  destruct (Hm eq_refl) as (ns & H1 & H2 & H3 & H4 & H5 & H6).
  cbn [fst snd] in *. unfold finishResume. rewrite bind_run. cbn [gets].
  destruct (stopError st1) eqn:Hse; [done|].
  rewrite bind_run. cbn. intros _. exists ns.
  rewrite progressReports_app, H1, H0. cbn. rewrite app_nil_r.
  split_and!; [done..|]. by apply H6.
Qed.

Lemma wellSized_total zfs : wellSized zfs → 0 ≤ sumSizes zfs < 2 ^ 63.
Proof. intros [Hsz Hlt]. split; [by apply sumSizes_sized|done]. Qed.

Lemma Resume_fresh_progress bufSize ze s r :
  wellSized (zr ze) →
  (Resume bufSize ze None s).1 = Ok r →
  runReports (sumSizes (zr ze)) 0 (Forall reportsFully (zr ze))
    (Resume bufSize ze None s).
Proof.
  intros Hwf. pose proof (wellSized_total _ Hwf) as HT.
  destruct Hwf as [Hsz _]. unfold runReports.
  rewrite Resume_fresh, bind_run.
  destruct (quiet_preallocateAll (zr ze) (freshState ze s))
    as (Hq1 & Hq2 & Hq3 & Hq4).
  pose proof (preallocateAll_run (zr ze) (freshState ze s)) as Hrun.
  destruct (preallocateAll (zr ze) (freshState ze s)) as [[[]|e|] st1];
    cbn [fst snd] in *; [|done..].
  destruct Hrun as [[e He]|(_ & _ & _ & Hck)]; [done|].
  rewrite bind_run. cbn [logf emit modify].
  unfold totalBytesOf. rewrite (countBytes_total_sized _ _ HT).
  intros Hok.
  match type of Hok with ((_ ;; _) ?s2).1 = _ =>
    eapply (finish_progress _ 0 _ _ _ _ s2 _ s2); [| |exact Hok] end.
  - cbn. rewrite progressReports_app, Hq1. done.
  - unfold runEntries. cbn [Z.ltb Z.compare].
    change (Z.to_nat 0) with 0%nat. rewrite drop_0.
    rewrite <- (Z.add_0_l (sumSizes (zr ze))) at 2.
    apply entryLoop_progress; cbn; try done; try lia.
    + by rewrite Hck.
    + by rewrite Hck.
    + rewrite Hq2. cbn [doneBytes freshState].
      change (0, 0) with (int64 0, 0). rewrite countBytes_done. done.
    + by rewrite Hq4.
Qed.

Lemma Resume_resumed_progress bufSize ze ck s r :
  wellSized (zr ze) → resumesFrom (zr ze) (Some ck) →
  (Resume bufSize ze (Some ck) s).1 = Ok r →
  runReports (sumSizes (zr ze)) (startPosition (zr ze) (Some ck))
    (Forall reportsFully (drop (startIndex (Some ck)) (zr ze)))
    (Resume bufSize ze (Some ck) s).
Proof.
  intros Hwf (i & zf & w & Hzf & HK & Hres & Hfit & Hwl).
  pose proof (wellSized_total _ Hwf) as HT. destruct Hwf as [Hsz _].
  pose proof Hfit as (p & Hi & He & Hsc & Hro & Hpw).
  pose proof (resumeOffset_bounds _ _ _ Hro) as Hp.
  unfold runReports, startPosition, startIndex.
  rewrite He, Hi, Nat2Z.id. cbn [fmap option_fmap option_map default
                                  from_option id WriteOffset withWriteOffset].
  (* the sizes before, of, and after the entry *)
  pose proof (take_drop_middle _ _ _ Hzf) as Hsplit.
  assert (sized zf) as Hzfs.
  { rewrite Forall_forall in Hsz. apply Hsz. by eapply list_elem_of_lookup_2. }
  pose proof Hzfs as [Hz _].
  pose proof (sumSizes_sized _ (Forall_take _ i _ Hsz)) as HD.
  pose proof (sumSizes_sized _ (Forall_drop _ (S i) _ Hsz)) as HR.
  assert (sumSizes (zr ze)
          = sumSizes (take i (zr ze)) + zip.UncompressedSize64 zf
            + sumSizes (drop (S i) (zr ze))) as Hsum.
  { rewrite <- Hsplit at 1.
    rewrite sumSizes_app, sumSizes_cons, int64_small; lia. }
  rewrite Resume_resumed, (countBytes_total_sized _ _ HT). intros Hok.
  eapply (finish_progress _ _ _ _ _ _ (resumedState ze ck s));
    [done| |exact Hok].
  unfold runEntries. rewrite Hi.
  destruct (Z.ltb_spec (Z.of_nat i) 0) as [?|_]; [lia|].
  rewrite Nat2Z.id, (drop_S _ _ _ Hzf).
  cbn [entryLoop]. rewrite bind_run.
  cbn [gets stopError resumedState]. rewrite bind_run. cbn [logf emit modify].
  match goal with |- reported _ _ _ _ _ _ (_ ?s0) =>
    eapply (reported_quiet _ _ _ _ _ (resumedState ze ck s) s0) end;
    [done|done|].
  rewrite Hsum at 2.
  eapply (reported_then _ _
            (sumSizes (take i (zr ze)) + zip.UncompressedSize64 zf) _
            (sumSizes (take i (zr ze)) + zip.UncompressedSize64 zf) True
            (Forall reportsFully (drop (S i) (zr ze)))).
  - apply reported_wrap.
    apply extractEntry_resumed_progress; cbn; try done; try lia.
    change (0, 0) with (int64 0, 0).
    rewrite countBytes_done, Hi, Z.add_0_l, Z.sub_0_r, Nat2Z.id.
    apply int64_small. lia.
  - intros st1 Hd1 Hfl1. rewrite bind_run. cbn [modify].
    match goal with |- reported _ _ _ _ _ _ (_ ?s1) =>
      eapply (reported_quiet _ _ _ _ _ st1 s1) end; [done|done|].
    apply entryLoop_progress; cbn; try done; try lia.
    by apply Forall_drop.
  - intros H. split; [done|]. by apply Forall_cons in H as [_ ?].
Qed.

(** ** Progress values *)

Lemma float64_div_inUnit n T : 0 < n ≤ T → inUnit (float64_div n T).
Proof.
  intros H. destruct T as [|t|t]; [lia| |lia].
  unfold float64_div, inUnit, Qle, Qdiv, Qmult, Qinv, inject_Z. cbn. lia.
Qed.

Lemma float64_div_le n m T :
  0 < T → n ≤ m → f64_le (float64_div n T) (float64_div m T).
Proof.
  intros H Hnm. destruct T as [|t|t]; [lia| |lia].
  unfold float64_div, f64_le, Qle, Qdiv, Qmult, Qinv, inject_Z. cbn. nia.
Qed.

Lemma float64_div_one T : 0 < T → isOne (float64_div T T).
Proof.
  intros H. destruct T as [|t|t]; [lia| |lia].
  unfold float64_div, isOne, Qeq, Qdiv, Qmult, Qinv, inject_Z. cbn. lia.
Qed.

Lemma runReports_spec T c0 (fin : Prop) out :
  0 ≤ c0 → runReports T c0 fin out →
  Forall inUnit (progressReports (trace out.2))
  ∧ nondecreasing (progressReports (trace out.2))
  ∧ (fin →
     (∀ p, last (progressReports (trace out.2)) = Some p → isOne p)
     ∧ (c0 < T → progressReports (trace out.2) ≠ [])).
Proof.
  intros Hc0 (ns & -> & Hcl & Hend).
  pose proof (climbs_bounds _ _ _ Hcl) as Hb.
  split_and!.
  - apply Forall_fmap. eapply Forall_impl; [exact Hb|].
    cbn. intros n ?. apply float64_div_inUnit. lia.
  - intros i j p p' Hij. rewrite !list_lookup_fmap.
    destruct (ns !! i) as [a|] eqn:Ha; [|done].
    destruct (ns !! j) as [b|] eqn:Hb'; [|done].
    cbn. intros [= <-] [= <-].
    rewrite Forall_forall in Hb.
    pose proof (Hb _ (list_elem_of_lookup_2 _ _ _ Ha)).
    apply float64_div_le; [lia|]. by eapply climbs_sorted.
  - intros Hfin. specialize (Hend Hfin). unfold endsAt in Hend. split.
    + intros p. rewrite fmap_last.
      destruct (last ns) as [n|] eqn:Hl; [|done]. cbn in *.
      intros [= <-]. subst n. apply float64_div_one.
      apply last_Some_elem_of in Hl. rewrite Forall_forall in Hb.
      apply Hb in Hl. lia.
    + intros Hlt Hnil. apply fmap_nil_inv in Hnil. subst ns. cbn in Hend. lia.
Qed.

(** ** The last progress value *)

Lemma reported_tail T c c' D' (fin : Prop) st out :
  c < c' → reported T c c' D' fin st out → tailReported T c c' fin st out.
Proof.
  intros Hlt H Hok. destruct (H Hok) as (ns & H1 & H2 & H3 & H4 & H5 & H6).
  exists ns. split_and!; try done.
  intros Hse Hf. specialize (H6 Hse Hf). unfold endsAt in H6.
  destruct (last ns); cbn in *; [by subst|lia].
Qed.

Lemma tail_quiet T c c' (Q : Prop) st st1 out :
  progressReports (trace st1) = progressReports (trace st) →
  (stopError st ≠ None → stopError st1 ≠ None) →
  tailReported T c c' Q st1 out → tailReported T c c' Q st out.
Proof.
  intros Hrep Hstop H Hok. destruct (H Hok) as (ns & H1 & H2 & H3 & H4).
  exists ns. rewrite <- Hrep. split_and!; try done. tauto.
Qed.

Lemma tail_wrap T c c' (Q : Prop) st (m : M unit) st1 :
  tailReported T c c' Q st (m st1) → tailReported T c c' Q st (wrap m st1).
Proof.
  unfold tailReported, wrap. destruct (m st1) as [[[]|e|] st']; cbn; done.
Qed.

Lemma tail_then T c c1 c' D1 (fin1 Q : Prop) st (m : M unit)
    (k : unit → M unit) st0 :
  reported T c c1 D1 fin1 st (m st0) →
  (∀ st1, doneBytes st1 = D1 →
          (copierStop st1 = true → stopError st1 ≠ None) →
          tailReported T c1 c' Q st1 (k tt st1)) →
  tailReported T c c' Q st ((m ≫= k) st0).
Proof.
  intros Hm Hk. unfold tailReported. rewrite bind_run.
  destruct (m st0) as [[[]|e|] st1]; [|by intros ?..].
  destruct (Hm eq_refl) as (ns1 & H1 & H2 & H3 & H4 & H5 & H6).
  cbn [fst snd] in *. intros Hok.
  destruct (Hk st1 H3 H4 Hok) as (ns2 & K1 & K2 & K3 & K4).
  exists (ns1 ++ ns2). split_and!.
  - by rewrite K1, H1, fmap_app, app_assoc.
  - by eapply climbs_app.
  - tauto.
  - intros Hse HQ. rewrite last_app, (K4 Hse HQ). done.
Qed.

Lemma entryLoop_tail_progress bufSize T tail front :
  ∀ i st D,
    Forall sized (front ++ tail) →
    Entry_ (checkpoint st) = None → SourceCheckpoint_ (checkpoint st) = None →
    doneBytes st = D → 0 ≤ D →
    D + sumSizes (front ++ tail) ≤ T → T < 2 ^ 63 →
    (copierStop st = true → stopError st ≠ None) →
    sumSizes front < sumSizes (front ++ tail) →
    tailReported T D (D + sumSizes (front ++ tail))
      (Forall reportsFully tail) st
      (entryLoop bufSize (front ++ tail) i T st).
Proof.
  induction front as [|zf front IH];
    intros i st D Hsz He Hsc Hd HD HT HT' Hfl Hlt.
  { cbn [app] in *. unfold sumSizes in Hlt at 1. cbn in Hlt.
    eapply reported_tail; [lia|]. by apply entryLoop_progress. }
  cbn [app] in *. apply Forall_cons in Hsz as [Hzf Hsz].
  pose proof (sumSizes_sized _ Hsz) as Hpos. pose proof Hzf as [Hz _].
  rewrite !sumSizes_cons, int64_small in * by lia.
  cbn [entryLoop]. rewrite bind_run. cbn [gets].
  destruct (stopError st) eqn:Hse.
  { intros _. exists []. cbn [fmap list_fmap]. rewrite app_nil_r.
    cbn. split_and!; try done; try lia; by rewrite Hse. }
  rewrite bind_run. cbn [logf emit modify].
  match goal with |- tailReported _ _ _ _ _ (_ ?s) =>
    eapply (tail_quiet T _ _ _ st s) end.
  { cbn. rewrite progressReports_app. cbn. by rewrite app_nil_r. }
  { done. }
  eapply (tail_then T D (D + zip.UncompressedSize64 zf) _
            (D + zip.UncompressedSize64 zf) (reportsFully zf)).
  - apply reported_wrap. apply extractEntry_fresh_progress; cbn; try done.
    + lia.
    + by rewrite Hse.
  - intros st1 Hd1 Hfl1. rewrite bind_run. cbn [modify].
    rewrite Z.add_assoc.
    match goal with |- tailReported _ _ _ _ _ (_ ?s) =>
      eapply (tail_quiet T _ _ _ st1 s) end; [done|done|].
    apply IH; cbn; try done; lia.
Qed.

Lemma finish_tail T c c' (Q : Prop) files st0 (m : M unit) st :
  progressReports (trace st0) = [] →
  tailReported T c c' Q st0 (m st) →
  ∀ r, ((m;; finishResume files) st).1 = Ok r →
       ∃ ns,
         progressReports (trace ((m;; finishResume files) st).2)
         = (λ n, float64_div n T) <$> ns
         ∧ climbs c c' ns ∧ (Q → last ns = Some c').
Proof.
  intros H0 Hm r. rewrite bind_run.
  destruct (m st) as [[[]|e|] st1]; [|done..].
  destruct (Hm eq_refl) as (ns & H1 & H2 & H3 & H4).
  cbn [fst snd] in *. unfold finishResume. rewrite bind_run. cbn [gets].
  destruct (stopError st1) eqn:Hse; [done|].
  rewrite bind_run. cbn. intros _. exists ns.
  rewrite progressReports_app, H1, H0. cbn. rewrite app_nil_r.
  split_and!; [done..|]. by apply H4.
Qed.

Lemma last_report_one T c ns (ps : list float64) :
  ps = (λ n, float64_div n T) <$> ns → climbs c T ns → last ns = Some T →
  ∃ p, last ps = Some p ∧ isOne p.
Proof.
  intros -> Hcl Hl. exists (float64_div T T).
  rewrite fmap_last, Hl. split; [done|]. apply float64_div_one.
  apply climbs_bounds in Hcl. rewrite Forall_forall in Hcl.
  apply last_Some_elem_of in Hl. apply Hcl in Hl. lia.
Qed.

Lemma Resume_fresh_tail bufSize ze s r zf front tail :
  wellSized (zr ze) →
  (Resume bufSize ze None s).1 = Ok r →
  zr ze = (zf :: front) ++ tail → Forall reportsFully tail →
  sumSizes (zf :: front) < sumSizes (zr ze) →
  ∃ p, last (progressReports (trace (Resume bufSize ze None s).2)) = Some p
       ∧ isOne p.
Proof.
  intros Hwf Hok Hsplit Hfin Hlt. pose proof (wellSized_total _ Hwf) as HT.
  destruct Hwf as [Hsz _]. revert Hok.
  rewrite Resume_fresh, bind_run.
  destruct (quiet_preallocateAll (zr ze) (freshState ze s))
    as (Hq1 & Hq2 & Hq3 & Hq4).
  pose proof (preallocateAll_run (zr ze) (freshState ze s)) as Hrun.
  destruct (preallocateAll (zr ze) (freshState ze s)) as [[[]|e|] st1];
    cbn [fst snd] in *; [|done..].
  destruct Hrun as [[e He]|(_ & _ & _ & Hck)]; [done|].
  rewrite bind_run. cbn [logf emit modify].
  unfold totalBytesOf. rewrite (countBytes_total_sized _ _ HT).
  intros Hok.
  match type of Hok with ((?m ≫= _) ?s2).1 = _ =>
    edestruct (finish_tail (sumSizes (zr ze)) 0 (sumSizes (zr ze))
                 (Forall reportsFully tail) (zr ze) s2 m s2)
      as (ns & Hps & Hcl & Hlast); [| |exact Hok|] end.
  - cbn. rewrite progressReports_app, Hq1. done.
  - unfold runEntries. cbn [Z.ltb Z.compare].
    change (Z.to_nat 0) with 0%nat. rewrite drop_0.
    rewrite <- (Z.add_0_l (sumSizes (zr ze))) at 2. rewrite Hsplit in *.
    apply entryLoop_tail_progress;
      cbn [checkpoint doneBytes stopError copierStop withTrace];
      try done; try lia.
    + by rewrite Hck.
    + by rewrite Hck.
    + rewrite Hq2. cbn [doneBytes freshState].
      change (0, 0) with (int64 0, 0). rewrite countBytes_done. done.
    + by rewrite Hq4.
  - eapply last_report_one; [exact Hps|exact Hcl|by apply Hlast].
Qed.

Lemma Resume_resumed_tail bufSize ze ck s r zf0 front tail :
  wellSized (zr ze) → resumesFrom (zr ze) (Some ck) →
  (Resume bufSize ze (Some ck) s).1 = Ok r →
  drop (startIndex (Some ck)) (zr ze) = (zf0 :: front) ++ tail →
  Forall reportsFully tail →
  sumSizes (take (startIndex (Some ck)) (zr ze)) + sumSizes (zf0 :: front)
  < sumSizes (zr ze) →
  ∃ p, last (progressReports (trace (Resume bufSize ze (Some ck) s).2))
       = Some p
       ∧ isOne p.
Proof.
  intros Hwf (i & zf & w & Hzf & HK & Hres & Hfit & Hwl) Hok Hsplit Hfin Hlt.
  pose proof (wellSized_total _ Hwf) as HT. destruct Hwf as [Hsz _].
  pose proof Hfit as (p & Hi & He & Hsc & Hro & Hpw).
  pose proof (resumeOffset_bounds _ _ _ Hro) as Hp.
  unfold startIndex in *. rewrite Hi, Nat2Z.id in *.
  rewrite (drop_S _ _ _ Hzf) in Hsplit. cbn [app] in Hsplit.
  injection Hsplit as <- Hrest.
  assert (sized zf) as Hzfs.
  { rewrite Forall_forall in Hsz. apply Hsz. by eapply list_elem_of_lookup_2. }
  pose proof Hzfs as [Hz _].
  pose proof (sumSizes_sized _ (Forall_take _ i _ Hsz)) as HD.
  pose proof (Forall_drop _ (S i) _ Hsz) as Hszr.
  pose proof (sumSizes_sized _ Hszr) as HR.
  assert (sumSizes (zr ze)
          = sumSizes (take i (zr ze)) + zip.UncompressedSize64 zf
            + sumSizes (drop (S i) (zr ze))) as Hsum.
  { rewrite <- (take_drop_middle _ _ _ Hzf) at 1.
    rewrite sumSizes_app, sumSizes_cons, int64_small; lia. }
  rewrite sumSizes_cons, int64_small in Hlt by lia.
  revert Hok.
  rewrite Resume_resumed, (countBytes_total_sized _ _ HT). intros Hok.
  match type of Hok with ((?m ≫= _) ?s2).1 = _ =>
    edestruct (finish_tail (sumSizes (zr ze))
                 (sumSizes (take i (zr ze)) + w) (sumSizes (zr ze))
                 (Forall reportsFully tail) (zr ze) s2 m s2)
      as (ns & Hps & Hcl & Hlast); [done| |exact Hok|] end.
  2: { eapply last_report_one; [exact Hps|exact Hcl|by apply Hlast]. }
  unfold runEntries. rewrite Hi.
  destruct (Z.ltb_spec (Z.of_nat i) 0) as [?|_]; [lia|].
  rewrite Nat2Z.id, (drop_S _ _ _ Hzf).
  cbn [entryLoop]. rewrite bind_run.
  cbn [gets stopError resumedState]. rewrite bind_run. cbn [logf emit modify].
  match goal with |- tailReported _ _ _ _ _ (_ ?s0) =>
    eapply (tail_quiet _ _ _ _ (resumedState ze ck s) s0) end;
    [done|done|].
  rewrite Hsum at 2.
  eapply (tail_then _ _
            (sumSizes (take i (zr ze)) + zip.UncompressedSize64 zf) _
            (sumSizes (take i (zr ze)) + zip.UncompressedSize64 zf) True).
  - apply reported_wrap.
    apply extractEntry_resumed_progress; cbn; try done; try lia.
    change (0, 0) with (int64 0, 0).
    rewrite countBytes_done, Hi, Z.add_0_l, Z.sub_0_r, Nat2Z.id.
    apply int64_small. lia.
  - intros st1 Hd1 Hfl1. rewrite bind_run. cbn [modify].
    match goal with |- tailReported _ _ _ _ _ (_ ?s1) =>
      eapply (tail_quiet _ _ _ _ st1 s1) end; [done|done|].
    rewrite Hrest in *.
    apply entryLoop_tail_progress;
      cbn [checkpoint doneBytes stopError copierStop withCheckpoint
           withEntry withSourceCheckpoint Entry_ SourceCheckpoint_];
      try done; try lia.
Qed.

(** * The claims *)

(** C10. The flate threshold does not interfere: [FlateThreshold] returns
    the configured value when it is positive and 1 MiB otherwise, and two
    extractors that differ in the configured threshold only behave the same
    on every checkpoint and sink: same result, same final state, same
    trace. *)
Theorem C10_flate_threshold_noninterference :
  ∀ bufSize ze t1 t2 checkpoint sink,
    FlateThreshold (SetFlateThreshold t1 ze)
      = (if t1 >? 0 then t1 else 1048576)
    ∧ Resume bufSize (SetFlateThreshold t1 ze) checkpoint sink
      = Resume bufSize (SetFlateThreshold t2 ze) checkpoint sink.
Proof. intros. split; reflexivity. Qed.

















(** C1 — round-trip integrity.  Take an archive whose payloads are shorter
    than 2^63 bytes and an extraction into the sink [s0] that is interrupted
    any number of times: each run but the last is stopped through the save
    consumer and returns the stop sentinel, the next run is given the
    checkpoint last offered to [Save] and the sink as the stopped run left
    it, and the last run returns a result.  Then the sink [sN] it ends with
    is the sink that a single run over a null checkpoint leaves when it
    returns a result: every file, directory and link is the same, byte for
    byte.  Both are the effect of every entry, extracted in full and in
    order, on the pre-allocated sink. *)
Theorem C1_round_trip_integrity :
  ∀ bufSize bufSize' zfs s0 sN ze r,
    payloadsFit zfs →
    interrupted bufSize zfs None s0 sN →
    zr ze = zfs →
    (Resume bufSize' ze None s0).1 = Ok r →
    sN = sink (Resume bufSize' ze None s0).2
    ∧ sN = extracted zfs (preallocated zfs s0).
Proof.
  intros bufSize bufSize' zfs s0 sN ze r Hwf Hruns Hze Hok.
  assert (sN = extracted zfs (preallocated zfs s0)) as HsN
    by by eapply interrupted_sink.
  split; [|done]. rewrite HsN.
  pose proof (Resume_fresh_sink bufSize' ze s0) as Href.
  unfold runOutcome in Href. rewrite Hok, Hze in Href. symmetry.
  by apply Href.
Qed.

Lemma C1_round_trip_integrity_witness :
  sink (Resume 2 (New [ex_a]) (Some ex_ckStop)
          (sink (Resume 2 ex_stopper None ex_sink).2)).2
  = sink (Resume 3 (New [ex_a]) None ex_sink).2.
Proof.
  refine (proj1 (C1_round_trip_integrity 2 3 [ex_a] ex_sink _ (New [ex_a])
                   {| Entries := [zipFileEntry ex_a] |} _ _ eq_refl _)).
  - repeat constructor.
  - apply (interrupted_stop 2 [ex_a] ex_stopper None ex_sink ex_ckStop _
             eq_refl); [reflexivity..|].
    eapply (interrupted_done 2 [ex_a] (New [ex_a]) (Some ex_ckStop) _ _
              eq_refl).
    reflexivity.
  - reflexivity.
Defined.

(** C4, as stated, fails: a fresh run over an archive of the file "a.txt"
    (five bytes) and a symbolic link (one byte) returns a result, and the
    progress values it reports and records are 2/6, 4/6 and 5/6; none is
    1.0, for the byte of the link is counted in the total only. *)
Lemma C4_counterexample :
  (Resume 2 (New [ex_a; ex_l]) None ex_sink).1
  = Ok {| Entries := [zipFileEntry ex_a; zipFileEntry ex_l] |}
  ∧ progressReports (trace (Resume 2 (New [ex_a; ex_l]) None ex_sink).2)
    = [Fin (2 # 6); Fin (4 # 6); Fin (5 # 6)]
  ∧ ¬ Exists isOne
        (progressReports (trace (Resume 2 (New [ex_a; ex_l]) None ex_sink).2)).
Proof.
  assert (progressReports (trace (Resume 2 (New [ex_a; ex_l]) None ex_sink).2)
          = [Fin (2 # 6); Fin (4 # 6); Fin (5 # 6)]) as H by reflexivity.
  split_and!; [reflexivity|exact H|]. rewrite H.
  rewrite !Exists_cons, Exists_nil. unfold isOne, Qeq. cbn. lia.
Qed.

(** C4, amended — progress within a single successful run.  Take an archive
    whose declared sizes are sizes, with a total below 2^63, and whose
    stored and deflated files have payloads of the declared size, and a run
    of [Resume] that returns a result, fresh or from a checkpoint that fits
    a file of the archive.  Then every progress value the run reports to the
    consumer or records in a checkpoint lies in [0, 1], and the values are
    non-decreasing in the order of the reports.  The last value is exactly 1
    when the entries that the run extracts end with a tail of entries each
    of which is a stored or deflated file or has size 0, and bytes remain to
    be counted when the run reaches that tail. *)
Theorem C4_progress_monotone_within_unit :
  ∀ bufSize ze ck s r,
    wellSized (zr ze) → resumesFrom (zr ze) ck →
    (Resume bufSize ze ck s).1 = Ok r →
    Forall inUnit (progressReports (trace (Resume bufSize ze ck s).2))
    ∧ nondecreasing (progressReports (trace (Resume bufSize ze ck s).2))
    ∧ (∀ front tail,
         drop (startIndex ck) (zr ze) = front ++ tail →
         Forall reportsFully tail →
         tailPosition (zr ze) ck front < sumSizes (zr ze) →
         ∃ p, last (progressReports (trace (Resume bufSize ze ck s).2))
              = Some p
              ∧ isOne p).
Proof.
  intros bufSize ze ck s r Hwf Hck Hok.
  assert (0 ≤ startPosition (zr ze) ck) as Hpos.
  { destruct ck as [c|]; [|done]. cbn.
    destruct Hck as (i & zf & w & Hzf & _ & _ & (p & Hi & He & _ & Hro & Hpw) & _).
    apply resumeOffset_bounds in Hro. rewrite He. cbn.
    pose proof (sumSizes_sized _ (Forall_take _ (Z.to_nat (EntryIndex c)) _
                                   (proj1 Hwf))). lia. }
  assert (runReports (sumSizes (zr ze)) (startPosition (zr ze) ck)
            (Forall reportsFully (drop (startIndex ck) (zr ze)))
            (Resume bufSize ze ck s)) as Hrep.
  { destruct ck as [c|].
    - by eapply Resume_resumed_progress.
    - by eapply Resume_fresh_progress. }
  destruct (runReports_spec _ _ _ _ Hpos Hrep) as (Hunit & Hmono & Hlast).
  split_and!; [done..|].
  intros [|zf0 front] tail Hsplit Hfin Hlt.
  - cbn [app tailPosition] in *. rewrite <- Hsplit in Hfin.
    destruct (Hlast Hfin) as [Hone Hsome].
    destruct (last _) as [p|] eqn:Hl.
    + exists p. split; [done|]. by apply Hone.
    + apply last_None in Hl. by apply Hsome in Hl.
  - unfold tailPosition in Hlt. destruct ck as [c|].
    + by eapply Resume_resumed_tail.
    + eapply Resume_fresh_tail; [done|done|exact Hsplit|done|].
      change (sumSizes (take (startIndex None) (zr ze))) with 0 in Hlt. lia.
Qed.

Lemma C4_progress_monotone_within_unit_witness :
  Forall inUnit
    (progressReports
       (trace (Resume 2 (New [ex_a; ex_b; ex_c]) None ex_sink).2)).
Proof.
  refine (proj1 (C4_progress_monotone_within_unit 2 (New [ex_a; ex_b; ex_c])
                   None ex_sink
                   {| Entries := zipFileEntry <$> [ex_a; ex_b; ex_c] |}
                   _ _ _)).
  - split; [|reflexivity].
    repeat constructor; try discriminate; cbn; lia.
  - exact I.
  - reflexivity.
Defined.

(** * Further properties of the extractor *)

(** ** Invariants of a run

    A state invariant that depends on the stop request and the trace only,
    that survives the events other than saves, and that the save callback
    keeps, holds throughout a run. *)

Lemma OnSave_no_entry w total sc st :
  Entry_ (checkpoint st) = None → OnSave w total sc st = (Panic, st).
Proof.
  intros He. unfold OnSave, currentEntry. rewrite bind_run, bind_run.
  cbn [gets]. by rewrite He.
Qed.

Section Preserved.
Context (J : State → Prop).
Hypothesis J_plain :
  ∀ st st' evs,
    J st → stopError st' = stopError st → trace st' = trace st ++ evs →
    Forall (λ ev, isSave ev = false) evs → J st'.
Hypothesis J_OnSave :
  ∀ w total sc st e,
    Entry_ (checkpoint st) = Some e → J st →
    J (OnSave w total (Some sc) st).2.

Lemma preserves_ret {A} (a : A) : preserves J (mret a).
Proof. by intros st. Qed.

Lemma preserves_bind {A B} (m : M A) (k : A → M B) :
  preserves J m → (∀ a, preserves J (k a)) → preserves J (m ≫= k).
Proof.
  intros Hm Hk st HJ. rewrite bind_run. specialize (Hm st HJ).
  destruct (m st) as [[a|e|] st1]; cbn [fst snd] in *; [|done..].
  by apply Hk.
Qed.

Lemma preserves_wrap {A} (m : M A) : preserves J m → preserves J (wrap m).
Proof. intros Hm st HJ. rewrite wrap_state. by apply Hm. Qed.

Lemma preserves_plain {A} (m : M A) :
  keeps m → emits (λ ev, isSave ev = false) m → preserves J m.
Proof.
  intros Hk He st HJ. destruct (Hk st) as (Hs & _).
  destruct (He st) as (evs & Ht & Hevs). by eapply J_plain.
Qed.

Lemma preserves_serveSave w0 total src :
  preserves J (serveSave (OnSave w0 total) src).
Proof.
  unfold serveSave. destruct (srcWantSave src); [|apply preserves_ret].
  apply preserves_bind; [|intros; apply preserves_ret].
  intros st HJ. destruct (Entry_ (checkpoint st)) as [e|] eqn:He.
  - by eapply J_OnSave.
  - by rewrite OnSave_no_entry.
Qed.

Lemma preserves_copyChunk total c src w :
  preserves J (copyChunk (EmitProgress total) c src w).
Proof.
  apply preserves_plain.
  - unfold copyChunk, Write, EmitProgress, computeProgress, currentEntry.
    repeat keeps_step.
  - unfold copyChunk, Write, EmitProgress. emits_auto.
Qed.

Lemma preserves_copyLoop w0 total chs :
  ∀ src w,
    preserves J (copyLoop (OnSave w0 total) (EmitProgress total) chs src w).
Proof.
  induction chs as [|c rest IH]; intros src w; rewrite copyLoop_eq.
  all: apply preserves_bind; [by intros st|intros stop].
  all: destruct stop; [apply preserves_ret|].
  all: apply preserves_bind; [apply preserves_serveSave|intros src1].
  - apply preserves_ret.
  - apply preserves_bind; [apply preserves_copyChunk|intros [src' w']].
    apply IH.
Qed.

Lemma preserves_copyResumable bufSize src e sc total :
  preserves J (copyResumable bufSize src e sc total).
Proof.
  unfold copyResumable. apply preserves_bind.
  { apply preserves_plain.
    - unfold SourceResume. repeat keeps_step.
    - unfold SourceResume. emits_auto. }
  intros [offset src1]. apply preserves_bind.
  { apply preserves_plain.
    - unfold DiscardByRead. repeat keeps_step.
    - unfold DiscardByRead. emits_auto. }
  intros src2. apply preserves_bind.
  { apply preserves_plain; [repeat keeps_step|emits_auto]. }
  intros _. apply preserves_bind.
  { apply preserves_plain.
    - unfold GetWriter. repeat keeps_step.
    - unfold GetWriter. emits_auto. }
  intros writer. apply preserves_wrap. apply preserves_copyLoop.
Qed.

Lemma preserves_extractEntry bufSize zf i total :
  preserves J (extractEntry bufSize zf i total).
Proof.
  unfold extractEntry.
  apply preserves_bind;
    [apply preserves_plain; [repeat keeps_step|emits_auto]|intros _].
  apply preserves_bind; [by intros st|intros ck].
  apply preserves_bind.
  { apply preserves_plain; [repeat keeps_step|emits_auto]. }
  intros _. apply preserves_bind.
  { apply preserves_plain; [unfold currentEntry; repeat keeps_step|emits_auto]. }
  intros entry. apply preserves_bind.
  { apply preserves_plain; [repeat keeps_step|emits_auto]. }
  intros _. apply preserves_bind.
  2: { intros _. apply preserves_plain; [repeat keeps_step|emits_auto]. }
  destruct (Kind entry).
  - apply preserves_plain; unfold Mkdir; [repeat keeps_step|emits_auto].
  - apply preserves_plain; unfold Symlink, Open;
      [repeat keeps_step|emits_auto].
  - apply preserves_bind.
    { apply preserves_plain.
      - apply keeps_openSource.
      - unfold openSource, DataOffset. emits_auto. }
    intros [src|]; [apply preserves_copyResumable|].
    apply preserves_plain; [apply keeps_copyFallback|].
    eapply emits_weaken; [|apply emits_plain_copyFallback]. by intros ev [_ ?].
Qed.

Lemma preserves_entryLoop bufSize files :
  ∀ i total, preserves J (entryLoop bufSize files i total).
Proof.
  induction files as [|zf rest IH]; intros i total; cbn [entryLoop];
    [apply preserves_ret|].
  apply preserves_bind; [by intros st|intros [e|]]; [apply preserves_ret|].
  apply preserves_bind;
    [apply preserves_plain; [repeat keeps_step|emits_auto]|intros _].
  apply preserves_bind;
    [apply preserves_wrap, preserves_extractEntry|intros _].
  apply preserves_bind;
    [apply preserves_plain; [repeat keeps_step|emits_auto]|intros _].
  apply IH.
Qed.

Lemma preserves_run bufSize files start total :
  preserves J (runEntries bufSize files start total;; finishResume files).
Proof.
  apply preserves_bind.
  - unfold runEntries. destruct (start <? 0); [|apply preserves_entryLoop].
    apply preserves_plain; [repeat keeps_step|emits_auto].
  - intros _. unfold finishResume.
    apply preserves_plain; [repeat keeps_step|emits_auto].
Qed.

Lemma preserves_Resume bufSize ze checkpoint s :
  (∀ ck, checkpoint = Some ck → J (resumedState ze ck s)) →
  (checkpoint = None → J (freshState ze s)) →
  J (Resume bufSize ze checkpoint s).2.
Proof.
  intros Hres Hfresh. destruct checkpoint as [ck|].
  - rewrite Resume_resumed. apply preserves_run. by apply Hres.
  - rewrite Resume_fresh.
    assert (preserves J (preallocateAll (zr ze);;
                         logf LogPreallocated;;
                         runEntries bufSize (zr ze) 0 (totalBytesOf (zr ze));;
                         finishResume (zr ze))) as Hall.
    { apply preserves_bind.
      - apply preserves_plain; [apply keeps_preallocateAll|].
        apply emits_preallocateAll. by intros.
      - intros _. apply preserves_bind; [|intros _; apply preserves_run].
        apply preserves_plain; [repeat keeps_step|emits_auto]. }
    apply Hall. by apply Hfresh.
Qed.

End Preserved.

(** X1. A checkpoint with a negative entry index makes [Resume] panic: the
    loop condition [entryIndex < numEntries] holds, the index is announced,
    and indexing [zr.File] fails.  Nothing is asked of the sink. *)
Theorem X1_negative_index_panics :
  ∀ bufSize ze ck s,
    EntryIndex ck < 0 →
    (Resume bufSize ze (Some ck) s).1 = Panic
    ∧ sink (Resume bufSize ze (Some ck) s).2 = s
    ∧ trace (Resume bufSize ze (Some ck) s).2
      = [EvLog (LogResuming (Progress ck));
         EvLog (LogDoingEntryIndex (EntryIndex ck))].
Proof.
  intros bufSize ze ck s Hneg. rewrite Resume_resumed, bind_run.
  unfold runEntries. destruct (Z.ltb_spec (EntryIndex ck) 0) as [_|?]; [|lia].
  rewrite bind_run. done.
Qed.

Lemma X1_negative_index_panics_witness :
  (Resume 2 (New [ex_a]) (Some ex_ckNegative) ex_sink).1 = Panic.
Proof.
  apply (X1_negative_index_panics 2 (New [ex_a]) ex_ckNegative ex_sink).
  reflexivity.
Defined.

(** X2. A checkpoint whose entry index is at or past the number of entries
    makes [Resume] return at once the result that lists every entry of the
    archive: no entry is extracted, nothing is asked of the sink or of the
    save consumer, and the checkpoint object is left as it was given. *)
Theorem X2_index_past_the_end :
  ∀ bufSize ze ck s,
    Z.of_nat (length (zr ze)) ≤ EntryIndex ck →
    (Resume bufSize ze (Some ck) s).1
      = Ok {| Entries := zipFileEntry <$> zr ze |}
    ∧ sink (Resume bufSize ze (Some ck) s).2 = s
    ∧ checkpoint (Resume bufSize ze (Some ck) s).2 = ck
    ∧ trace (Resume bufSize ze (Some ck) s).2
      = [EvLog (LogResuming (Progress ck));
         EvLog (LogExtracted (zipFileEntry <$> zr ze))].
Proof.
  intros bufSize ze ck s Hpast. rewrite Resume_resumed, bind_run.
  unfold runEntries. destruct (Z.ltb_spec (EntryIndex ck) 0) as [?|_]; [lia|].
  rewrite drop_ge by lia. done.
Qed.

Lemma X2_index_past_the_end_witness :
  (Resume 2 (New [ex_a]) (Some ex_ckPast) ex_sink).1
  = Ok {| Entries := [zipFileEntry ex_a] |}.
Proof.
  apply (X2_index_past_the_end 2 (New [ex_a]) ex_ckPast ex_sink).
  cbn. lia.
Defined.

(** ** Where the stop sentinel comes from *)

Lemma askedToStop_plain st st' evs :
  askedToStop st → stopError st' = stopError st →
  trace st' = trace st ++ evs → askedToStop st'.
Proof.
  intros [Hs|Hex] Hse Ht; [left; congruence|right].
  rewrite Ht. apply Exists_app. by left.
Qed.

Lemma askedToStop_OnSave w total sc st e :
  Entry_ (checkpoint st) = Some e → askedToStop st →
  askedToStop (OnSave w total (Some sc) st).2.
Proof.
  intros He HJ. rewrite (OnSave_run _ _ _ _ _ He). cbv zeta.
  destruct (faulty (sink st) (CallSync _)).
  { eapply askedToStop_plain; [exact HJ|done|reflexivity]. }
  destruct (default _ _) as [[]|].
  - eapply askedToStop_plain; [exact HJ|done|reflexivity].
  - right. cbn [trace snd]. apply Exists_exists.
    match goal with |- context [EvSave ?c ?a] => exists (EvSave c a) end.
    split; [|done]. rewrite !elem_of_app, !elem_of_cons. auto 10.
  - eapply askedToStop_plain; [exact HJ|done|reflexivity].
Qed.

Lemma entryLoop_error_wrapped bufSize files :
  ∀ i total st e,
    (entryLoop bufSize files i total st).1 = Err e → ∃ e', e = Wrapped e'.
Proof.
  induction files as [|zf rest IH]; intros i total st e; [done|].
  cbn [entryLoop]. rewrite bind_run. cbn [gets].
  destruct (stopError st); [done|].
  rewrite bind_run. cbn [logf emit modify]. rewrite wrap_bind_run.
  destruct (extractEntry _ _ _ _ _) as [[[]|e'|] st1]; [| |done].
  - rewrite bind_run. cbn [modify]. apply IH.
  - cbn. intros [= <-]. destruct e'; by eexists.
Qed.

Lemma run_error bufSize files start total st e :
  ((runEntries bufSize files start total;; finishResume files) st).1 = Err e →
  (e = ErrStop
   ∧ stopError ((runEntries bufSize files start total;;
                 finishResume files) st).2 ≠ None)
  ∨ ∃ e', e = Wrapped e'.
Proof.
  rewrite bind_run. unfold runEntries.
  destruct (start <? 0).
  { rewrite bind_run. done. }
  pose proof (entryLoop_error_wrapped bufSize (drop (Z.to_nat start) files)
                start total st) as Hw.
  destruct (entryLoop _ _ _ _ _) as [[[]|e1|] st1]; cbn [fst snd] in *.
  - unfold finishResume. rewrite bind_run. cbn [gets].
    destruct (stopError st1) eqn:Hse; cbn.
    + intros [= <-]. left. by rewrite Hse.
    + by rewrite bind_run.
  - intros [= <-]. right. by apply Hw.
  - done.
Qed.

Lemma resume_error bufSize ze checkpoint s e :
  (Resume bufSize ze checkpoint s).1 = Err e →
  (e = ErrStop
   ∧ Exists (λ ev, isStopAnswer ev = true)
       (trace (Resume bufSize ze checkpoint s).2))
  ∨ ∃ e', e = Wrapped e'.
Proof.
  intros Herr.
  assert (askedToStop (Resume bufSize ze checkpoint s).2) as Hasked.
  { apply preserves_Resume.
    - intros st st' evs HJ Hse Ht _. by eapply askedToStop_plain.
    - apply askedToStop_OnSave.
    - intros ck _. by left.
    - intros _. by left. }
  assert ((e = ErrStop ∧ stopError (Resume bufSize ze checkpoint s).2 ≠ None)
          ∨ ∃ e', e = Wrapped e') as [[-> Hse]|?]; [|  |by right].
  { revert Herr. destruct checkpoint as [ck|].
    - rewrite Resume_resumed. apply run_error.
    - rewrite Resume_fresh, bind_run.
      pose proof (preallocateAll_run (zr ze) (freshState ze s)) as Hrun.
      destruct (preallocateAll _ _) as [[[]|e1|] st1]; cbn [fst snd] in *.
      + rewrite bind_run. cbn [logf emit modify]. apply run_error.
      + destruct Hrun as [[e2 [= ->]]|[? _]]; [|done].
        intros [= <-]. right. by eexists.
      + done. }
  left. split; [done|]. by destruct Hasked.
Qed.

(** X3. The errors of [Resume].  An error that [Resume] returns is either
    the bare stop sentinel or a wrapped error, and the stop sentinel is
    returned only if the save consumer answered a save with the stop
    verdict: a failing sink, source or archive never shows as a stop. *)
Theorem X3_stop_only_when_asked :
  ∀ bufSize ze checkpoint s e,
    (Resume bufSize ze checkpoint s).1 = Err e →
    (e = ErrStop
     ∧ ∃ c, EvSave c (SaveAction AfterSaveStop)
            ∈ trace (Resume bufSize ze checkpoint s).2)
    ∨ (e ≠ ErrStop ∧ ∃ e', e = Wrapped e').
Proof.
  intros bufSize ze checkpoint s e Herr.
  destruct (resume_error _ _ _ _ _ Herr) as [[-> Hex]|[e' ->]]; [left|right].
  - split; [done|]. apply Exists_exists in Hex as (ev & Hin & Hev).
    destruct ev as [| | | | |c [[]|]|]; try done. by exists c.
  - split; [done|by eexists].
Qed.

Lemma X3_stop_only_when_asked_witness :
  ∃ c, EvSave c (SaveAction AfterSaveStop)
       ∈ trace (Resume 2 ex_stopper None ex_sink).2.
Proof.
  destruct (X3_stop_only_when_asked 2 ex_stopper None ex_sink ErrStop)
    as [[_ H]|[H _]]; [reflexivity|exact H|done].
Defined.

(** ** Saves follow a sync *)

Lemma syncedSaves_plain t evs :
  syncedSaves t → Forall (λ ev, isSave ev = false) evs →
  syncedSaves (t ++ evs).
Proof.
  intros Ht Hevs i c a Hi.
  destruct (decide (i < length t)%nat) as [Hlt|Hge].
  - rewrite lookup_app_l in Hi by done.
    destruct (Ht i c a Hi) as (j & path & -> & Hj).
    exists j, path. split; [done|]. rewrite lookup_app_l by lia. done.
  - rewrite lookup_app_r in Hi by lia.
    rewrite Forall_forall in Hevs.
    by specialize (Hevs _ (list_elem_of_lookup_2 _ _ _ Hi)).
Qed.

Lemma syncedSaves_save t l1 l2 path c a :
  syncedSaves t →
  syncedSaves (t ++ [EvLog l1; EvLog l2]
                 ++ [EvSink (CallSync path) true; EvSave c a]).
Proof.
  intros Ht. rewrite app_assoc. intros i c' a' Hi.
  destruct (decide (i < length (t ++ [EvLog l1; EvLog l2]))%nat) as [Hlt|Hge].
  - rewrite lookup_app_l in Hi by done.
    destruct (syncedSaves_plain t [EvLog l1; EvLog l2] Ht
                ltac:(by repeat constructor) i c' a' Hi)
      as (j & path' & -> & Hj).
    exists j, path'. split; [done|]. rewrite lookup_app_l by lia. done.
  - rewrite lookup_app_r in Hi by lia.
    destruct (i - length (t ++ [EvLog l1; EvLog l2]))%nat as [|[|k]] eqn:Hk;
      cbn in Hi; [done| |done].
    exists (length (t ++ [EvLog l1; EvLog l2])), path. split; [lia|].
    rewrite lookup_app_r by lia. by rewrite Nat.sub_diag.
Qed.

Lemma syncedSaves_OnSave w total sc st e :
  Entry_ (checkpoint st) = Some e → syncedSaves (trace st) →
  syncedSaves (trace (OnSave w total (Some sc) st).2).
Proof.
  intros He HJ. rewrite (OnSave_run _ _ _ _ _ He). cbv zeta.
  destruct (faulty (sink st) (CallSync _)).
  { cbn [trace snd]. apply syncedSaves_plain; [done|]. by repeat constructor. }
  destruct (default _ _) as [[]|]; cbn [trace snd];
    by apply syncedSaves_save.
Qed.

(** X4. Every checkpoint is offered right after a successful [Sync] of the
    writer: in the trace of any run, the event before a call of [Save] is a
    call of [Sync] that returned no error.  What a persisted checkpoint
    describes was flushed before the consumer saw it. *)
Theorem X4_save_follows_sync :
  ∀ bufSize ze checkpoint s (i : nat) c a,
    trace (Resume bufSize ze checkpoint s).2 !! i = Some (EvSave c a) →
    ∃ (j : nat) path,
      i = S j
      ∧ trace (Resume bufSize ze checkpoint s).2 !! j
        = Some (EvSink (CallSync path) true).
Proof.
  intros bufSize ze checkpoint s.
  apply (preserves_Resume (λ st, syncedSaves (trace st))).
  - intros st st' evs HJ _ -> Hevs. by apply syncedSaves_plain.
  - intros w total sc st e. apply syncedSaves_OnSave.
  - by intros ck _ [|[|i]] c a.
  - by intros _ [|[|[|i]]] c a.
Qed.

Lemma X4_save_follows_sync_witness :
  ∃ (j : nat) path,
    15%nat = S j
    ∧ trace (Resume 2 ex_stopper None ex_sink).2 !! j
      = Some (EvSink (CallSync path) true).
Proof.
  apply (X4_save_follows_sync 2 ex_stopper None ex_sink 15 ex_ckStop
           (SaveAction AfterSaveStop)).
  reflexivity.
Defined.

(** ** Archives that cannot be saved *)

Lemma emits_unsaved_ioCopyLoop chs :
  ∀ w, emits unsavedEvent (ioCopyLoop chs w).
Proof.
  induction chs as [|c rest IH]; intros w; cbn [ioCopyLoop]; [emits_auto|].
  apply emits_bind; [by apply emits_Write|intros [m w']; apply IH].
Qed.

Lemma unsaved_extractEntry bufSize zf i total st :
  (Kind (enteredEntry zf st) = EntryKindFile → resumable zf = false) →
  ∃ evs,
    trace (extractEntry bufSize zf i total st).2 = trace st ++ evs
    ∧ Forall unsavedEvent evs.
Proof.
  intros Hres. rewrite extractEntry_eq.
  assert (emits unsavedEvent
            (entryBody bufSize zf (enteredEntry zf st)
               (SourceCheckpoint_ (checkpoint st)) total;;
             modify (countEntry zf))) as Hbody.
  { apply emits_bind; [|intros; emits_auto]. unfold entryBody.
    destruct (Kind _).
    - unfold Mkdir. emits_auto.
    - unfold Symlink, Open. emits_auto.
    - unfold openSource. specialize (Hres eq_refl).
      unfold resumable in Hres. rewrite Hres.
      apply emits_ret_bind.
      unfold copyFallback, Open, GetWriter, ioCopy.
      repeat first [apply emits_unsaved_ioCopyLoop|emits_step]; done. }
  destruct (Hbody (entered zf i st)) as (evs & Ht & Hevs).
  exists (EvLog (LogEntry (enteredEntry zf st)) :: evs).
  rewrite Ht. cbn [trace entered]. rewrite <- app_assoc.
  split; [done|]. by constructor.
Qed.

Lemma unsaved_entryLoop bufSize files :
  Forall (λ zf, Kind (zipFileEntry zf) = EntryKindFile → resumable zf = false)
    files →
  ∀ i total st,
    Entry_ (checkpoint st) = None →
    ∃ evs,
      trace (entryLoop bufSize files i total st).2 = trace st ++ evs
      ∧ Forall unsavedEvent evs.
Proof.
  induction 1 as [|zf rest Hzf _ IH]; intros i total st He; cbn [entryLoop].
  { exists []. by rewrite app_nil_r. }
  rewrite bind_run. cbn [gets].
  destruct (stopError st); [exists []; by rewrite app_nil_r|].
  rewrite bind_run. cbn [logf emit modify]. rewrite wrap_bind_run.
  match goal with |- context [extractEntry _ _ _ _ ?s1] =>
    destruct (unsaved_extractEntry bufSize zf i total s1)
      as (evs1 & Ht1 & Hevs1) end.
  { unfold enteredEntry. cbn. by rewrite He. }
  cbn [trace withTrace] in Ht1.
  destruct (extractEntry _ _ _ _ _) as [[[]|e|] st1]; cbn [fst snd] in *.
  - rewrite bind_run. cbn [modify].
    match goal with |- context [entryLoop _ _ _ _ ?s2] =>
      destruct (IH (i + 1) total s2) as (evs2 & Ht2 & Hevs2) end; [done|].
    exists (EvLog (LogDoingEntryIndex i) :: evs1 ++ evs2).
    rewrite Ht2. cbn [trace withCheckpoint]. rewrite Ht1, <- !app_assoc.
    split; [done|]. constructor; [done|]. by apply Forall_app.
  - exists (EvLog (LogDoingEntryIndex i) :: evs1).
    rewrite Ht1, <- app_assoc. split; [done|]. by constructor.
  - exists (EvLog (LogDoingEntryIndex i) :: evs1).
    rewrite Ht1, <- app_assoc. split; [done|]. by constructor.
Qed.

(** X5. An archive whose files are neither stored nor deflated cannot be
    saved or stopped: in a run that starts its first entry afresh, whatever
    the save consumer, [Resume] never asks the consumer whether to save,
    offers no checkpoint, resumes no source, reports no progress, and does
    not return the stop sentinel. *)
Theorem X5_unsavable_archive :
  ∀ bufSize ze given s,
    Forall (λ zf, Kind (zipFileEntry zf) = EntryKindFile →
                  resumable zf = false) (zr ze) →
    (∀ ck, given = Some ck → Entry_ ck = None) →
    Forall unsavedEvent (trace (Resume bufSize ze given s).2)
    ∧ (Resume bufSize ze given s).1 ≠ Err ErrStop.
Proof.
  intros bufSize ze given s Hall Hck.
  assert (Forall unsavedEvent (trace (Resume bufSize ze given s).2))
    as Htrace.
  { assert (∀ start total st,
              Entry_ (checkpoint st) = None →
              ∃ evs,
                trace ((runEntries bufSize (zr ze) start total;;
                        finishResume (zr ze)) st).2 = trace st ++ evs
                ∧ Forall unsavedEvent evs) as Htail.
    { intros start total st He. rewrite bind_run. unfold runEntries.
      destruct (start <? 0).
      { rewrite bind_run. cbn. eexists. split; [done|]. by repeat constructor. }
      destruct (unsaved_entryLoop bufSize _
                  (Forall_drop _ (Z.to_nat start) _ Hall) start total st He)
        as (evs & Ht & Hevs).
      destruct (entryLoop _ _ _ _ _) as [[[]|e|] st1]; cbn [fst snd] in *;
        [|by exists evs..].
      assert (emits unsavedEvent (finishResume (zr ze))) as Hfin
        by (unfold finishResume; emits_auto).
      destruct (Hfin st1) as (evs' & Ht' & Hevs').
      exists (evs ++ evs'). rewrite Ht', Ht, <- app_assoc.
      split; [done|]. by apply Forall_app. }
    destruct given as [ck|].
    - rewrite Resume_resumed.
      destruct (Htail (EntryIndex ck)
                  (countBytes (zr ze) 0 (EntryIndex ck) (0, 0)).2
                  (resumedState ze ck s)) as (evs & -> & Hevs).
      { cbn. by apply Hck. }
      apply Forall_app. split; [|done]. by repeat constructor.
    - rewrite Resume_fresh, bind_run.
      destruct (emits_preallocateAll unsavedEvent (zr ze)
                  ltac:(by intros) (freshState ze s)) as (evs0 & Ht0 & Hevs0).
      pose proof (preallocateAll_run (zr ze) (freshState ze s)) as Hrun.
      destruct (preallocateAll _ _) as [[[]|e|] st1]; cbn [fst snd] in *.
      + destruct Hrun as [[e He]|(_ & _ & _ & Hck1)]; [done|].
        rewrite bind_run. cbn [logf emit modify].
        match goal with |- context [(_ ;; _) ?s2] =>
          destruct (Htail 0 (totalBytesOf (zr ze)) s2)
            as (evs & -> & Hevs) end.
        { cbn. by rewrite Hck1. }
        cbn [trace withTrace]. rewrite Ht0.
        repeat (apply Forall_app; split); try done; by repeat constructor.
      + rewrite Ht0. apply Forall_app. split; [|done]. by repeat constructor.
      + rewrite Ht0. apply Forall_app. split; [|done]. by repeat constructor. }
  split; [done|]. intros Herr.
  destruct (resume_error _ _ _ _ _ Herr) as [[_ Hex]|[e' ?]]; [|done].
  apply Exists_exists in Hex as (ev & Hin & Hev).
  rewrite Forall_forall in Htrace. apply Htrace in Hin.
  by destruct ev as [| | | | |c [[]|]|].
Qed.

Lemma X5_unsavable_archive_witness :
  (Resume 2 (SetSaveConsumer
               {| shouldSaveScript := [true];
                  saveScript := [SaveAction AfterSaveStop] |}
               (New [ex_z; ex_l; ex_b]))
     None ex_sink).1 ≠ Err ErrStop.
Proof.
  refine (proj2 (X5_unsavable_archive 2 _ None ex_sink _ _)).
  - repeat constructor; intros H; vm_compute in H; discriminate H.
  - intros ck H. discriminate H.
Defined.

(** ** What a fresh run leaves in the sink *)


Lemma pathsOf_cons k zf zfs :
  pathsOf k (zf :: zfs)
  = (if sameKind k (Kind (zipFileEntry zf))
     then [CanonicalPath (zipFileEntry zf)] else []) ++ pathsOf k zfs.
Proof. unfold pathsOf. cbn. by destruct (sameKind _ _). Qed.


(** The files: one entry. *)
Lemma files_entryEffect zf s q :
  files (entryEffect zf s) !! q
  = if sameKind EntryKindFile (Kind (zipFileEntry zf))
       && bool_decide (q = CanonicalPath (zipFileEntry zf))
    then Some (write_at (files s !!! q) 0 (zip.Payload zf))
    else files s !! q.
Proof.
  unfold entryEffect. destruct (Kind (zipFileEntry zf)); cbn [sameKind andb];
    [done..|].
  unfold applyCall, withFiles. cbn [files].
  destruct (bool_decide_reflect (q = CanonicalPath (zipFileEntry zf)))
    as [->|Hne].
  - by rewrite lookup_insert_eq, lookup_total_insert_eq.
  - by rewrite !lookup_insert_ne.
Qed.

Lemma files_preallocate_step zf s q :
  files (if isFileKind (zipFileEntry zf)
         then applyCall (CallPreallocate (zipFileEntry zf)) s else s) !! q
  = if sameKind EntryKindFile (Kind (zipFileEntry zf))
       && bool_decide (q = CanonicalPath (zipFileEntry zf))
    then Some (resize (Z.to_nat (UncompressedSize (zipFileEntry zf))) x00
                 (files s !!! q))
    else files s !! q.
Proof.
  unfold isFileKind. destruct (Kind (zipFileEntry zf)); cbn [sameKind andb];
    [done..|].
  unfold applyCall, withFiles. cbn [files].
  destruct (bool_decide_reflect (q = CanonicalPath (zipFileEntry zf)))
    as [->|Hne].
  - by rewrite lookup_insert_eq.
  - by rewrite !lookup_insert_ne.
Qed.


Lemma extracted_cons zf zfs s :
  extracted (zf :: zfs) s = extracted zfs (entryEffect zf s).
Proof. reflexivity. Qed.

Lemma preallocated_cons zf zfs s :
  preallocated (zf :: zfs) s
  = preallocated zfs
      (if isFileKind (zipFileEntry zf)
       then applyCall (CallPreallocate (zipFileEntry zf)) s else s).
Proof. reflexivity. Qed.

(** The files of a path that no file entry names are left alone. *)
Lemma files_extracted_other zfs :
  ∀ s q, q ∉ pathsOf EntryKindFile zfs →
         files (extracted zfs s) !! q = files s !! q.
Proof.
  induction zfs as [|zf zfs IH]; intros s q Hq; [done|].
  rewrite pathsOf_cons in Hq. apply not_elem_of_app in Hq as [Hq1 Hq2].
  rewrite extracted_cons, IH by done.
  rewrite files_entryEffect.
  destruct (sameKind _ _); cbn [andb]; [|done].
  destruct (bool_decide_reflect (q = CanonicalPath (zipFileEntry zf)))
    as [->|Hne]; [|done].
  destruct Hq1. by left.
Qed.

Lemma files_preallocated_other zfs :
  ∀ s q, q ∉ pathsOf EntryKindFile zfs →
         files (preallocated zfs s) !! q = files s !! q.
Proof.
  induction zfs as [|zf zfs IH]; intros s q Hq; [done|].
  rewrite pathsOf_cons in Hq. apply not_elem_of_app in Hq as [Hq1 Hq2].
  rewrite preallocated_cons, IH by done.
  rewrite files_preallocate_step.
  destruct (sameKind _ _); cbn [andb]; [|done].
  destruct (bool_decide_reflect (q = CanonicalPath (zipFileEntry zf)))
    as [->|Hne]; [|done].
  destruct Hq1. by left.
Qed.



(** The directories and the links. *)
Lemma dirs_preallocated zfs : ∀ s, dirs (preallocated zfs s) = dirs s.
Proof.
  induction zfs as [|zf zfs IH]; intros s; [done|].
  rewrite preallocated_cons, IH. by destruct (isFileKind _).
Qed.

Lemma links_preallocated zfs : ∀ s, links (preallocated zfs s) = links s.
Proof.
  induction zfs as [|zf zfs IH]; intros s; [done|].
  rewrite preallocated_cons, IH. by destruct (isFileKind _).
Qed.

Lemma dirs_entryEffect zf s :
  dirs (entryEffect zf s)
  = if sameKind EntryKindDir (Kind (zipFileEntry zf))
    then {[CanonicalPath (zipFileEntry zf)]} ∪ dirs s else dirs s.
Proof. unfold entryEffect. by destruct (Kind (zipFileEntry zf)). Qed.

Lemma links_entryEffect zf s :
  links (entryEffect zf s)
  = if sameKind EntryKindSymlink (Kind (zipFileEntry zf))
    then <[CanonicalPath (zipFileEntry zf)
           := string_of_list_byte (zip.Payload zf)]> (links s)
    else links s.
Proof. unfold entryEffect. by destruct (Kind (zipFileEntry zf)). Qed.

Lemma dirs_extracted zfs :
  ∀ s q, q ∈ dirs (extracted zfs s) ↔ q ∈ pathsOf EntryKindDir zfs ∨ q ∈ dirs s.
Proof.
  induction zfs as [|zf zfs IH]; intros s q.
  { cbn. rewrite elem_of_nil. tauto. }
  rewrite extracted_cons, IH, dirs_entryEffect, pathsOf_cons.
  destruct (sameKind _ _); rewrite elem_of_app.
  - rewrite elem_of_union, elem_of_singleton, list_elem_of_singleton. tauto.
  - rewrite elem_of_nil. tauto.
Qed.

Lemma links_extracted_other zfs :
  ∀ s q, q ∉ pathsOf EntryKindSymlink zfs →
         links (extracted zfs s) !! q = links s !! q.
Proof.
  induction zfs as [|zf zfs IH]; intros s q Hq; [done|].
  rewrite pathsOf_cons in Hq. apply not_elem_of_app in Hq as [Hq1 Hq2].
  rewrite extracted_cons, IH, links_entryEffect by done.
  destruct (sameKind _ _); [|done].
  rewrite lookup_insert_ne; [done|]. intros <-. destruct Hq1. by left.
Qed.





(** X7. What a fresh run leaves alone.  When [Resume] over a null
    checkpoint returns a result, a path that no file entry of the archive
    has holds the file it held before, if any; a path that no directory
    entry has is a directory of the sink only if it was one before; and a
    path that no symbolic-link entry has holds the link it held before. *)
Theorem X7_fresh_run_leaves_alone :
  ∀ bufSize ze s r q,
    (Resume bufSize ze None s).1 = Ok r →
    payloadsFit (zr ze) →
    (q ∉ pathsOf EntryKindFile (zr ze) →
     files (sink (Resume bufSize ze None s).2) !! q = files s !! q)
    ∧ (q ∉ pathsOf EntryKindDir (zr ze) →
       q ∈ dirs (sink (Resume bufSize ze None s).2) → q ∈ dirs s)
    ∧ (q ∉ pathsOf EntryKindSymlink (zr ze) →
       links (sink (Resume bufSize ze None s).2) !! q = links s !! q).
Proof.
  intros bufSize ze s r q Hok Hfit.
  pose proof (Resume_fresh_sink bufSize ze s Hfit) as Hsink.
  unfold runOutcome in Hsink. rewrite Hok in Hsink. rewrite Hsink.
  split_and!.
  - intros Hq. by rewrite files_extracted_other, files_preallocated_other.
  - intros Hq Hd. apply dirs_extracted in Hd as [?|Hd]; [done|].
    by rewrite dirs_preallocated in Hd.
  - intros Hq. by rewrite links_extracted_other, links_preallocated.
Qed.

Lemma X7_fresh_run_leaves_alone_witness :
  files (sink (Resume 2 (New [ex_a; ex_b]) None ex_sink).2) !! "other"%string
  = files ex_sink !! "other"%string.
Proof.
  refine (proj1 (X7_fresh_run_leaves_alone 2 (New [ex_a; ex_b]) ex_sink
                   {| Entries := zipFileEntry <$> [ex_a; ex_b] |}
                   "other"%string _ _) _).
  - reflexivity.
  - repeat constructor.
  - vm_compute. intros H. apply list_elem_of_singleton in H. discriminate H.
Defined.

(** ** Entries started from scratch *)

Lemma emits_fresh_ioCopyLoop chs : ∀ w, emits freshEvent (ioCopyLoop chs w).
Proof.
  induction chs as [|c rest IH]; intros w; cbn [ioCopyLoop]; [emits_auto|].
  apply emits_bind; [by apply emits_Write|intros [m w']; apply IH].
Qed.

Lemma emits_fresh_copyLoop w0 total chs :
  ∀ src w,
    emits freshEvent
      (copyLoop (OnSave w0 total) (EmitProgress total) chs src w).
Proof.
  apply emits_copyLoop_gen; try done.
  - intros sc. unfold OnSave, Sync. emits_auto.
  - unfold EmitProgress. emits_auto.
Qed.

Lemma fresh_extractEntry bufSize zf i total st :
  Entry_ (checkpoint st) = None → SourceCheckpoint_ (checkpoint st) = None →
  ∃ evs,
    trace (extractEntry bufSize zf i total st).2 = trace st ++ evs
    ∧ Forall freshEvent evs.
Proof.
  intros He Hsc. rewrite extractEntry_eq.
  unfold enteredEntry. rewrite He, Hsc. cbn [default].
  assert (emits freshEvent
            (entryBody bufSize zf (zipFileEntry zf) None total;;
             modify (countEntry zf))) as Hbody.
  { apply emits_bind; [|intros; emits_auto]. unfold entryBody.
    destruct (Kind _).
    - unfold Mkdir. emits_auto.
    - unfold Symlink, Open. emits_auto.
    - apply emits_bind; [unfold openSource, DataOffset; emits_auto|].
      intros [src|].
      + intros st1.
        rewrite (copyResumable_run bufSize src (zipFileEntry zf) None total
                   st1 0 eq_refl).
        change (WriteOffset (zipFileEntry zf)) with 0. cbn [Z.ltb Z.compare].
        assert (emits freshEvent
                  (src' ← mret (withOffset 0 src);
                   logf (LogResumingFrom (CanonicalPath (zipFileEntry zf)) 0);;
                   writer ← wrap (GetWriter (zipFileEntry zf));
                   wrap (CopierDo bufSize (OnSave writer total)
                           (EmitProgress total) src' writer))) as Hrest.
        { apply emits_ret_bind. emits_step; [emits_auto|].
          emits_step; [unfold GetWriter; emits_auto|].
          apply emits_wrap. unfold CopierDo. apply emits_fresh_copyLoop. }
        destruct (Hrest (withTrace
                           (trace st1 ++ [EvSourceResume None (Some 0)]) st1))
          as (evs & Ht & Hevs).
        exists (EvSourceResume None (Some 0) :: evs).
        rewrite Ht. cbn [trace withTrace]. rewrite <- app_assoc.
        split; [done|]. by constructor.
      + unfold copyFallback, Open, GetWriter, ioCopy.
        repeat first [apply emits_fresh_ioCopyLoop|emits_step]; done. }
  destruct (Hbody (entered zf i st)) as (evs & Ht & Hevs).
  exists (EvLog (LogEntry (zipFileEntry zf)) :: evs).
  rewrite Ht. unfold entered, enteredEntry. rewrite He. cbn [trace default].
  rewrite <- app_assoc. split; [done|]. by constructor.
Qed.

Lemma fresh_entryLoop bufSize files :
  ∀ i total st,
    Entry_ (checkpoint st) = None → SourceCheckpoint_ (checkpoint st) = None →
    ∃ evs,
      trace (entryLoop bufSize files i total st).2 = trace st ++ evs
      ∧ Forall freshEvent evs.
Proof.
  induction files as [|zf rest IH]; intros i total st He Hsc; cbn [entryLoop].
  { exists []. by rewrite app_nil_r. }
  rewrite bind_run. cbn [gets].
  destruct (stopError st); [exists []; by rewrite app_nil_r|].
  rewrite bind_run. cbn [logf emit modify]. rewrite wrap_bind_run.
  match goal with |- context [extractEntry _ _ _ _ ?s1] =>
    destruct (fresh_extractEntry bufSize zf i total s1)
      as (evs1 & Ht1 & Hevs1) end; [done..|].
  cbn [trace withTrace] in Ht1.
  destruct (extractEntry _ _ _ _ _) as [[[]|e|] st1]; cbn [fst snd] in *.
  - rewrite bind_run. cbn [modify].
    match goal with |- context [entryLoop _ _ _ _ ?s2] =>
      destruct (IH (i + 1) total s2) as (evs2 & Ht2 & Hevs2) end;
      [done..|].
    exists (EvLog (LogDoingEntryIndex i) :: evs1 ++ evs2).
    rewrite Ht2. cbn [trace withCheckpoint]. rewrite Ht1, <- !app_assoc.
    split; [done|]. constructor; [done|]. by apply Forall_app.
  - exists (EvLog (LogDoingEntryIndex i) :: evs1).
    rewrite Ht1, <- app_assoc. split; [done|]. by constructor.
  - exists (EvLog (LogDoingEntryIndex i) :: evs1).
    rewrite Ht1, <- app_assoc. split; [done|]. by constructor.
Qed.

(** X8. A fresh run starts every entry from scratch: whatever the archive,
    the sink and the save consumer, a source is only ever resumed with no
    source checkpoint, at offset 0, and [DiscardByRead] is never called.
    Bytes are discarded, and a source checkpoint is used, only by a run
    that is given a checkpoint. *)
Theorem X8_fresh_run_starts_from_scratch :
  ∀ bufSize ze s,
    Forall freshEvent (trace (Resume bufSize ze None s).2).
Proof.
  intros bufSize ze s. rewrite Resume_fresh, bind_run.
  destruct (emits_preallocateAll freshEvent (zr ze)
              ltac:(by intros) (freshState ze s)) as (evs0 & Ht0 & Hevs0).
  pose proof (preallocateAll_run (zr ze) (freshState ze s)) as Hrun.
  destruct (preallocateAll _ _) as [[[]|e|] st1]; cbn [fst snd] in *.
  2, 3: rewrite Ht0; apply Forall_app; split; [|done]; by repeat constructor.
  destruct Hrun as [[e He]|(_ & _ & _ & Hck1)]; [done|].
  rewrite bind_run. cbn [logf emit modify]. rewrite bind_run.
  unfold runEntries. cbn [Z.ltb Z.compare].
  change (Z.to_nat 0) with 0%nat. rewrite drop_0.
  match goal with |- context [entryLoop _ _ _ _ ?s2] =>
    destruct (fresh_entryLoop bufSize (zr ze) 0 (totalBytesOf (zr ze)) s2)
      as (evs & Ht & Hevs) end.
  1, 2: cbn; by rewrite Hck1.
  cbn [trace withTrace] in Ht.
  assert (emits freshEvent (finishResume (zr ze))) as Hfin
    by (unfold finishResume; emits_auto).
  destruct (entryLoop _ _ _ _ _) as [[[]|e|] st2]; cbn [fst snd] in *.
  - destruct (Hfin st2) as (evs' & -> & Hevs'). rewrite Ht, Ht0.
    repeat (apply Forall_app; split); try done; by repeat constructor.
  - rewrite Ht, Ht0.
    repeat (apply Forall_app; split); try done; by repeat constructor.
  - rewrite Ht, Ht0.
    repeat (apply Forall_app; split); try done; by repeat constructor.
Qed.

(** ** The first failed call ends the run *)

Lemma unwrapped_Wrap e : unwrapped (Wrap e) = unwrapped e.
Proof. by destruct e. Qed.

Lemma isFailure_Wrap e : isFailure (Wrap e) = isFailure e.
Proof. unfold isFailure. by rewrite unwrapped_Wrap. Qed.

Lemma failFast_quiet {A} (r : res A) st :
  Forall (λ ev, failureOf ev = None) (trace st) →
  (∀ e, r = Err e → isFailure e = false) → failFast (r, st).
Proof. intros Ht Hr. by left. Qed.

Lemma failsFast_ret {A} (a : A) : failsFast (mret a).
Proof. intros st Ht. by apply failFast_quiet. Qed.

Lemma failsFast_gets {A} (f : State → A) : failsFast (gets f).
Proof. intros st Ht. by apply failFast_quiet. Qed.

Lemma failsFast_panic {A} : failsFast (@panic A).
Proof. intros st Ht. by apply failFast_quiet. Qed.

Lemma failsFast_raise {A} e : isFailure e = false → failsFast (@raise A e).
Proof.
  intros He st Ht. apply failFast_quiet; [done|]. intros e' [= <-]. done.
Qed.

Lemma failsFast_modify (f : State → State) :
  (∀ st, trace (f st) = trace st) → failsFast (modify f).
Proof.
  intros Hf st Ht. apply failFast_quiet; [|done]. by rewrite Hf.
Qed.

Lemma failsFast_emit ev : failureOf ev = None → failsFast (emit ev).
Proof.
  intros Hev st Ht. apply failFast_quiet; [|done].
  cbn. apply Forall_app. split; [done|]. by apply Forall_singleton.
Qed.

Lemma failsFast_logf l : failsFast (logf l).
Proof. by apply failsFast_emit. Qed.

Lemma failsFast_bind {A B} (m : M A) (k : A → M B) :
  failsFast m → (∀ a, failsFast (k a)) → failsFast (m ≫= k).
Proof.
  intros Hm Hk st Ht. rewrite bind_run. specialize (Hm st Ht).
  destruct (m st) as [[a|e|] st1].
  - destruct Hm as [[Ht1 _]|(ev & e & t & _ & _ & _ & e' & [=] & _)].
    by apply Hk.
  - destruct Hm as [[Ht1 He]|(ev & e0 & t & Hev & Htr & Hft & e' & He' & Hu)].
    + left. split; [done|]. intros e' [= <-]. by apply He.
    + right. exists ev, e0, t. cbn in *. split_and!; [done..|].
      injection He' as <-. by exists e.
  - destruct Hm as [[Ht1 _]|(ev & e & t & _ & _ & _ & e' & [=] & _)].
    by apply failFast_quiet.
Qed.

Lemma failsFast_wrap {A} (m : M A) : failsFast m → failsFast (wrap m).
Proof.
  intros Hm st Ht. specialize (Hm st Ht). unfold wrap.
  destruct (m st) as [[a|e|] st1]; [done| |done].
  destruct Hm as [[Ht1 He]|(ev & e0 & t & Hev & Htr & Hft & e' & [= <-] & Hu)].
  - left. split; [done|]. intros e' [= <-].
    rewrite isFailure_Wrap. by apply He.
  - right. exists ev, e0, t. split_and!; [done..|].
    exists (Wrap e). by rewrite unwrapped_Wrap.
Qed.

Lemma failsFast_failing {A} ev e (r : res A) st :
  Forall (λ ev, failureOf ev = None) (trace st) →
  failureOf ev = Some e → r = Err e → unwrapped e = e →
  failFast (r, withTrace (trace st ++ [ev]) st).
Proof.
  intros Ht Hev -> Hu. right. exists ev, e, (trace st).
  split_and!; [done..|]. by exists e.
Qed.

Lemma failsFast_sinkCall c : failsFast (sinkCall c).
Proof.
  intros st Ht. unfold sinkCall. destruct (faulty (sink st) c).
  - by apply (failsFast_failing _ (ErrSink c)).
  - apply failFast_quiet; [|done]. cbn.
    apply Forall_app. split; [done|]. by apply Forall_singleton.
Qed.

Lemma failsFast_ShouldSave n : failsFast (ShouldSave n).
Proof.
  intros st Ht. unfold ShouldSave. apply failFast_quiet; [|done]. cbn.
  apply Forall_app. split; [done|]. by apply Forall_singleton.
Qed.

Lemma failsFast_Save c : failsFast (Save c).
Proof.
  intros st Ht. unfold Save. cbv zeta.
  destruct (default _ _) as [act|] eqn:Ha.
  - apply failFast_quiet; [|done]. cbn.
    apply Forall_app. split; [done|]. by apply Forall_singleton.
  - right. exists (EvSave c SaveFails), ErrSave, (trace st).
    split_and!; [done..|]. by exists ErrSave.
Qed.

Lemma failsFast_refused sc :
  failsFast (emit (EvSourceResume sc None);; @raise (Z * Source) ErrDecode).
Proof.
  intros st Ht. right. exists (EvSourceResume sc None), ErrDecode, (trace st).
  split_and!; [done..|]. by exists ErrDecode.
Qed.

Ltac failsFast_step :=
  match goal with
  | |- failsFast (emit (EvSourceResume _ None);; raise ErrDecode) =>
      apply failsFast_refused
  | |- failsFast (_ ≫= _) => apply failsFast_bind; [|intros]
  | |- failsFast (mret _) => apply failsFast_ret
  | |- failsFast (gets _) => apply failsFast_gets
  | |- failsFast (modify _) => apply failsFast_modify; intros; reflexivity
  | |- failsFast (emit _) => apply failsFast_emit; reflexivity
  | |- failsFast (logf _) => apply failsFast_logf
  | |- failsFast (raise _) => apply failsFast_raise; reflexivity
  | |- failsFast panic => apply failsFast_panic
  | |- failsFast (wrap _) => apply failsFast_wrap
  | |- failsFast (sinkCall _) => apply failsFast_sinkCall
  | |- failsFast (ShouldSave _) => apply failsFast_ShouldSave
  | |- failsFast (Save _) => apply failsFast_Save
  | |- failsFast (match ?x with _ => _ end) => destruct x
  | |- failsFast (let _ := _ in _) => cbv zeta
  end.

Lemma failsFast_OnSave w total sc : failsFast (OnSave w total sc).
Proof.
  unfold OnSave, Sync, computeProgress, currentEntry.
  repeat failsFast_step.
Qed.

Lemma failsFast_copyLoop w0 total chs :
  ∀ src w,
    failsFast (copyLoop (OnSave w0 total) (EmitProgress total) chs src w).
Proof.
  induction chs as [|c rest IH]; intros src w; rewrite copyLoop_eq.
  all: unfold serveSave.
  - repeat first [apply failsFast_OnSave|failsFast_step].
  - apply failsFast_bind; [apply failsFast_gets|intros stop].
    destruct stop; [apply failsFast_ret|].
    apply failsFast_bind;
      [repeat first [apply failsFast_OnSave|failsFast_step]|intros src1].
    apply failsFast_bind; [|intros [src' w']; apply IH].
    unfold copyChunk, Write, EmitProgress, computeProgress, currentEntry.
    repeat failsFast_step.
Qed.

Lemma failsFast_ioCopyLoop chs : ∀ w, failsFast (ioCopyLoop chs w).
Proof.
  induction chs as [|c rest IH]; intros w; cbn [ioCopyLoop];
    [apply failsFast_ret|].
  unfold Write.
  apply failsFast_bind; [repeat failsFast_step|intros [m w']; apply IH].
Qed.

Lemma failsFast_extractEntry bufSize zf i total :
  failsFast (extractEntry bufSize zf i total).
Proof.
  unfold extractEntry, copyResumable, copyFallback, openSource, DataOffset,
    Open, Mkdir, Symlink, GetWriter, SourceResume, DiscardByRead, CopierDo,
    ioCopy, currentEntry.
  repeat first [apply failsFast_copyLoop|apply failsFast_ioCopyLoop
               |failsFast_step].
Qed.

Lemma failsFast_entryLoop bufSize total files :
  ∀ i, failsFast (entryLoop bufSize files i total).
Proof.
  induction files as [|zf rest IH]; intros i; cbn [entryLoop];
    [apply failsFast_ret|].
  apply failsFast_bind; [apply failsFast_gets|intros stop].
  destruct stop; [apply failsFast_ret|].
  apply failsFast_bind; [apply failsFast_logf|intros _].
  apply failsFast_bind;
    [apply failsFast_wrap, failsFast_extractEntry|intros _].
  apply failsFast_bind; [failsFast_step|intros _]. apply IH.
Qed.

Lemma failsFast_preallocateAll files : failsFast (preallocateAll files).
Proof.
  induction files as [|zf rest IH]; cbn [preallocateAll];
    [apply failsFast_ret|].
  cbv zeta. unfold Preallocate.
  apply failsFast_bind; [repeat failsFast_step|intros; apply IH].
Qed.

Lemma failFast_Resume bufSize ze given s :
  failFast (Resume bufSize ze given s).
Proof.
  unfold Resume. cbv zeta.
  match goal with |- failFast (?m ?st) => cut (failsFast m) end.
  { intros H. apply H. constructor. }
  unfold resumeBody, runEntries, finishResume.
  repeat first [apply failsFast_preallocateAll|apply failsFast_entryLoop
               |failsFast_step].
Qed.

(** X9. A call that fails (a sink operation, a Save, or a source that
    refuses its checkpoint) is the last thing a run does, and the run
    returns the error of that call, wrapped. *)
Theorem X9_failed_call_ends_run bufSize ze given s (i : nat) ev e :
  trace (Resume bufSize ze given s).2 !! i = Some ev →
  failureOf ev = Some e →
  (Resume bufSize ze given s).1 = Err (Wrapped e)
  ∧ S i = length (trace (Resume bufSize ze given s).2).
Proof.
  intros Hi Hev.
  destruct (failFast_Resume bufSize ze given s)
    as [[Ht _]|(ev0 & e0 & t & Hev0 & Htr & Hft & e' & He' & Hu)].
  { rewrite Forall_lookup in Ht. specialize (Ht i ev Hi). congruence. }
  rewrite Htr in Hi |- *.
  assert (i = length t) as ->.
  { destruct (decide (i < length t)%nat) as [Hlt|Hge].
    - rewrite lookup_app_l in Hi by done.
      rewrite Forall_lookup in Hft. specialize (Hft i ev Hi). congruence.
    - apply lookup_lt_Some in Hi. rewrite length_app in Hi. cbn in Hi. lia. }
  rewrite list_lookup_middle in Hi by done.
  assert (ev0 = ev) as -> by congruence.
  rewrite length_app. cbn [length]. split; [|lia].
  assert (e0 = e) as -> by congruence.
  destruct (resume_error bufSize ze given s e' He') as [[-> _]|[e1 ->]].
  - cbn in Hu. subst e. by destruct ev as [|? []|? []| | |? []|].
  - cbn in Hu. by subst e1.
Qed.

Lemma X9_failed_call_ends_run_witness :
  (Resume 2 (New [ex_a]) None ex_readOnly).1
  = Err (Wrapped (ErrSink (CallWrite "a.txt" 0 (take 2 (zip.Payload ex_a)))))
  ∧ 10%nat = length (trace (Resume 2 (New [ex_a]) None ex_readOnly).2).
Proof.
  apply (X9_failed_call_ends_run 2 (New [ex_a]) None ex_readOnly 9
           (EvSink (CallWrite "a.txt" 0 (take 2 (zip.Payload ex_a))) false));
    reflexivity.
Defined.

(** X10. The error a run returns tells how it ended.  The error of a sink
    operation, of Save or of a refused source checkpoint comes right after
    the failed call, which is the last event of the run; with any other
    error no call has failed. *)
Theorem X10_error_names_last_call bufSize ze given s e :
  (Resume bufSize ze given s).1 = Err (Wrapped e) →
  match e with
  | ErrSink c =>
      last (trace (Resume bufSize ze given s).2) = Some (EvSink c false)
  | ErrSave =>
      ∃ c, last (trace (Resume bufSize ze given s).2)
           = Some (EvSave c SaveFails)
  | ErrDecode =>
      ∃ sc, last (trace (Resume bufSize ze given s).2)
            = Some (EvSourceResume sc None)
  | _ =>
      Forall (λ ev, failureOf ev = None)
        (trace (Resume bufSize ze given s).2)
  end.
Proof.
  intros Herr.
  destruct (failFast_Resume bufSize ze given s)
    as [[Ht He]|(ev0 & e0 & t & Hev0 & Htr & Hft & e' & He' & Hu)].
  - specialize (He _ Herr). unfold isFailure in He. cbn in He.
    by destruct e.
  - rewrite Herr in He'. injection He' as <-. cbn in Hu. subst e0.
    rewrite Htr, last_snoc.
    destruct ev0 as [|c []|sc []| | |c []|]; cbn in Hev0; try done.
    all: injection Hev0 as <-; eauto.
Qed.

Lemma X10_error_names_last_call_witness :
  last (trace (Resume 2 (New [ex_a]) None ex_readOnly).2)
  = Some (EvSink (CallWrite "a.txt" 0 (take 2 (zip.Payload ex_a))) false).
Proof.
  apply (X10_error_names_last_call 2 (New [ex_a]) None ex_readOnly
           (ErrSink (CallWrite "a.txt" 0 (take 2 (zip.Payload ex_a))))).
  reflexivity.
Defined.

(** ** Paths that a run leaves alone *)

Lemma sameAt_applyCall q s0 c s :
  pathOfCall c ≠ q → sameAt q s0 s → sameAt q s0 (applyCall c s).
Proof.
  intros Hc (Hf & Hd & Hl). unfold sameAt.
  destruct c; cbn [pathOfCall] in Hc; unfold applyCall, withFiles;
    cbn [files dirs links].
  all: rewrite ?lookup_insert_ne by done.
  all: split; [done|split; [|done]].
  all: try done.
  rewrite elem_of_union, elem_of_singleton, Hd.
  split; [intros [?|?]; [congruence|done]|by right].
Qed.

Lemma apart_step s0 q st st' :
  apart s0 q st → sink st' = sink st →
  (∀ e, Entry_ (checkpoint st') = Some e → CanonicalPath e = q →
        ∃ e0, Entry_ (checkpoint st) = Some e0 ∧ CanonicalPath e0 = q) →
  apart s0 q st'.
Proof.
  intros [Hs He] Hsink Hentry. split; [by rewrite Hsink|].
  intros e He' Hq. destruct (Hentry e He' Hq) as (e0 & He0 & Hq0).
  by apply (He e0).
Qed.

Lemma apart_same s0 q st st' :
  apart s0 q st → sink st' = sink st → checkpoint st' = checkpoint st →
  apart s0 q st'.
Proof.
  intros H Hs Hc. apply (apart_step s0 q st st' H Hs). rewrite Hc. eauto.
Qed.

Lemma apart_gets s0 q {A} (f : State → A) : preserves (apart s0 q) (gets f).
Proof. by intros st. Qed.

Lemma apart_raise s0 q {A} e : preserves (apart s0 q) (@raise A e).
Proof. by intros st. Qed.

Lemma apart_panic s0 q {A} : preserves (apart s0 q) (@panic A).
Proof. by intros st. Qed.

Lemma apart_emit s0 q ev : preserves (apart s0 q) (emit ev).
Proof. intros st H. by apply (apart_same s0 q st). Qed.

Lemma apart_logf s0 q l : preserves (apart s0 q) (logf l).
Proof. apply apart_emit. Qed.

Lemma apart_modify s0 q (f : State → State) :
  (∀ st, sink (f st) = sink st) →
  (∀ st e, Entry_ (checkpoint (f st)) = Some e → CanonicalPath e = q →
           ∃ e0, Entry_ (checkpoint st) = Some e0 ∧ CanonicalPath e0 = q) →
  preserves (apart s0 q) (modify f).
Proof. intros Hs He st H. apply (apart_step s0 q st); [done|apply Hs|apply He]. Qed.

Lemma apart_sinkCall s0 q c :
  pathOfCall c ≠ q → preserves (apart s0 q) (sinkCall c).
Proof.
  intros Hc st H. unfold sinkCall. destruct (faulty (sink st) c); cbn.
  - by apply (apart_same s0 q st).
  - destruct H as [Hs He]. split; [|done]. by apply sameAt_applyCall.
Qed.

Lemma apart_ShouldSave s0 q n : preserves (apart s0 q) (ShouldSave n).
Proof. intros st H. by apply (apart_same s0 q st). Qed.

Lemma apart_Save s0 q c : preserves (apart s0 q) (Save c).
Proof.
  intros st H. unfold Save. cbv zeta.
  destruct (default _ _); by apply (apart_same s0 q st).
Qed.

(** The entry read through the checkpoint is not the one of [q]. *)
Lemma apart_currentEntry s0 q {B} (k : Entry → M B) :
  (∀ e, CanonicalPath e ≠ q → preserves (apart s0 q) (k e)) →
  preserves (apart s0 q) (currentEntry ≫= k).
Proof.
  intros Hk st H. unfold currentEntry. rewrite bind_run, bind_run.
  cbn [gets]. destruct (Entry_ (checkpoint st)) as [e|] eqn:He; [|done].
  apply Hk; [|done]. by apply (proj2 H).
Qed.

Ltac apart_entry :=
  let st := fresh "st" in
  let e := fresh "e" in
  let He := fresh "He" in
  let Hq := fresh "Hq" in
  intros st e He Hq; cbn in He;
  first [ discriminate He
        | by eauto
        | by (injection He as <-)
        | destruct (Entry_ (checkpoint st)) as [?e|];
          [injection He as <-; by eauto|discriminate He] ].

Ltac apart_step :=
  match goal with
  | |- preserves _ (currentEntry ≫= _) => apply apart_currentEntry; intros
  | |- preserves _ (_ ≫= _) => apply preserves_bind; [|intros]
  | |- preserves _ (mret _) => apply preserves_ret
  | |- preserves _ (gets _) => apply apart_gets
  | |- preserves _ (modify _) =>
      apply apart_modify; [intros; reflexivity|apart_entry]
  | |- preserves _ (emit _) => apply apart_emit
  | |- preserves _ (logf _) => apply apart_logf
  | |- preserves _ (raise _) => apply apart_raise
  | |- preserves _ panic => apply apart_panic
  | |- preserves _ (wrap _) => apply preserves_wrap
  | |- preserves _ (sinkCall _) => apply apart_sinkCall; by cbn
  | |- preserves _ (ShouldSave _) => apply apart_ShouldSave
  | |- preserves _ (Save _) => apply apart_Save
  | |- preserves _ (match ?x with _ => _ end) => destruct x
  | |- preserves _ (let _ := _ in _) => cbv zeta
  end.

Lemma apart_OnSave s0 q w total sc :
  preserves (apart s0 q) (OnSave w total sc).
Proof.
  unfold OnSave, Sync, computeProgress.
  apply apart_currentEntry. intros entry Hentry.
  apply preserves_bind; [apart_step|intros _].
  apply preserves_bind; [repeat apart_step|intros _].
  apply preserves_bind; [apart_step|intros _].
  apply preserves_bind.
  { apply preserves_wrap. intros st H. unfold sinkCall.
    destruct (faulty _ _); by apply (apart_same s0 q st). }
  intros _. repeat apart_step.
Qed.

Lemma preserves_assoc J {A B C} (m : M A) (k1 : A → M B) (k2 : B → M C) :
  preserves J (m ≫= (λ a, k1 a ≫= k2)) → preserves J ((m ≫= k1) ≫= k2).
Proof. intros H st HJ. rewrite bind_assoc_run. by apply H. Qed.

Lemma preserves_ret_bind J {A B} (v : A) (k : A → M B) :
  preserves J (k v) → preserves J (mret v ≫= k).
Proof. intros H st HJ. by apply H. Qed.

(** A writer works on the path of the entry it was taken for, and stays
    on it. *)
Lemma apart_Write s0 q {B} w c (k : Z * EntryWriter → M B) :
  writerPath w ≠ q →
  (∀ n w', writerPath w' ≠ q → preserves (apart s0 q) (k (n, w'))) →
  preserves (apart s0 q) (Write w c ≫= k).
Proof.
  intros Hw Hk st H. unfold Write. rewrite bind_assoc_run, bind_run.
  pose proof (apart_sinkCall s0 q
                (CallWrite (writerPath w) (writerOffset w) c) Hw st H) as H1.
  destruct (sinkCall _ st) as [[[]|e|] st1]; cbn [fst snd] in *; [|done..].
  by apply Hk.
Qed.

Lemma apart_GetWriter s0 q {B} e (k : EntryWriter → M B) :
  CanonicalPath e ≠ q →
  (∀ w, writerPath w ≠ q → preserves (apart s0 q) (k w)) →
  preserves (apart s0 q) (wrap (GetWriter e) ≫= k).
Proof.
  intros He Hk st H. rewrite wrap_bind_run. unfold GetWriter.
  rewrite bind_run.
  pose proof (apart_sinkCall s0 q (CallGetWriter e) He st H) as H1.
  destruct (sinkCall _ st) as [[[]|e1|] st1]; cbn [fst snd] in *; [|done..].
  by apply Hk.
Qed.

Ltac apart_auto :=
  repeat match goal with
         | |- preserves _ ((_ ≫= _) ≫= _) => apply preserves_assoc
         | |- preserves _ (mret _ ≫= _) => apply preserves_ret_bind
         | |- preserves _ (Write _ _ ≫= _) =>
             apply apart_Write; [done|intros ? ? ?; cbv beta iota]
         | |- preserves _ (wrap (GetWriter _) ≫= _) =>
             apply apart_GetWriter; [done|intros ? ?]
         | |- preserves _ (OnSave _ _ _) => apply apart_OnSave
         | _ => apart_step
         end.

Lemma apart_copyLoop s0 q w0 total chs :
  ∀ src w,
    writerPath w ≠ q →
    preserves (apart s0 q)
      (copyLoop (OnSave w0 total) (EmitProgress total) chs src w).
Proof.
  induction chs as [|c rest IH]; intros src w Hw; rewrite copyLoop_eq;
    unfold serveSave.
  - apart_auto.
  - apply preserves_bind; [apart_step|intros stop].
    destruct stop; [apply preserves_ret|].
    apply preserves_bind; [apart_auto|intros src1].
    unfold copyChunk, EmitProgress, computeProgress.
    apart_auto. by apply IH.
Qed.

Lemma apart_ioCopyLoop s0 q chs :
  ∀ w, writerPath w ≠ q → preserves (apart s0 q) (ioCopyLoop chs w).
Proof.
  induction chs as [|c rest IH]; intros w Hw; cbn [ioCopyLoop];
    [apply preserves_ret|].
  apply apart_Write; [done|]. intros n w' Hw'. by apply IH.
Qed.

Ltac apart_loops :=
  repeat match goal with
         | |- preserves _ (copyLoop _ _ _ _ _) => by apply apart_copyLoop
         | |- preserves _ (ioCopyLoop _ _) => by apply apart_ioCopyLoop
         | _ => progress apart_auto
         end.

Lemma apart_extractEntry s0 q bufSize zf i total :
  CanonicalPath (zipFileEntry zf) ≠ q →
  preserves (apart s0 q) (extractEntry bufSize zf i total).
Proof.
  intros Hzf.
  unfold extractEntry, copyResumable, copyFallback, openSource, DataOffset,
    Open, Mkdir, Symlink, SourceResume, DiscardByRead, CopierDo, ioCopy.
  apart_loops.
Qed.

Lemma apart_entryLoop s0 q bufSize total files :
  Forall (λ zf, CanonicalPath (zipFileEntry zf) ≠ q) files →
  ∀ i, preserves (apart s0 q) (entryLoop bufSize files i total).
Proof.
  induction 1 as [|zf rest Hzf Hrest IH]; intros i; cbn [entryLoop];
    [apply preserves_ret|].
  apply preserves_bind; [apart_step|intros stop].
  destruct stop; [apply preserves_ret|].
  apply preserves_bind; [apart_step|intros _].
  apply preserves_bind;
    [by apply preserves_wrap, apart_extractEntry|intros _].
  apply preserves_bind; [apart_step|intros _]. apply IH.
Qed.

Lemma apart_preallocateAll s0 q files :
  Forall (λ zf, CanonicalPath (zipFileEntry zf) ≠ q) files →
  preserves (apart s0 q) (preallocateAll files).
Proof.
  induction 1 as [|zf rest Hzf Hrest IH]; cbn [preallocateAll];
    [apply preserves_ret|].
  cbv zeta. unfold Preallocate.
  apply preserves_bind; [repeat apart_step|intros; apply IH].
Qed.

Lemma apart_run s0 q bufSize files start total :
  Forall (λ zf, CanonicalPath (zipFileEntry zf) ≠ q)
    (drop (Z.to_nat start) files) →
  preserves (apart s0 q)
    (runEntries bufSize files start total;; finishResume files).
Proof.
  intros Hzfs. unfold runEntries, finishResume.
  apply preserves_bind; [|intros; repeat apart_step].
  destruct (start <? 0); [repeat apart_step|by apply apart_entryLoop].
Qed.

Lemma apart_Resume bufSize ze given s q :
  Forall (λ zf, CanonicalPath (zipFileEntry zf) ≠ q)
    (drop (startIndex given) (zr ze)) →
  (∀ ck e, given = Some ck → Entry_ ck = Some e → CanonicalPath e ≠ q) →
  apart s q (Resume bufSize ze given s).2.
Proof.
  intros Hzfs Hck. destruct given as [ck|]; cbn [startIndex] in Hzfs.
  - rewrite Resume_resumed. apply apart_run; [done|].
    split; [done|]. intros e. by apply Hck.
  - rewrite Resume_fresh.
    assert (preserves (apart s q)
              (preallocateAll (zr ze);;
               logf LogPreallocated;;
               runEntries bufSize (zr ze) 0 (totalBytesOf (zr ze));;
               finishResume (zr ze))) as Hall.
    { apply preserves_bind; [by apply apart_preallocateAll|intros _].
      apply preserves_bind; [apart_step|intros _]. by apply apart_run. }
    apply Hall. by split.
Qed.

(** X11. A run leaves alone every path that is neither the path of an
    entry from its start index on nor the path of the entry of the
    checkpoint it is given: whatever the outcome (a result, an error, a
    stop or a panic), the sink holds there the file, the directory and the
    link it held before. *)
Theorem X11_other_paths_untouched bufSize ze given s q :
  q ∉ (λ zf, CanonicalPath (zipFileEntry zf))
        <$> drop (startIndex given) (zr ze) →
  (∀ ck e, given = Some ck → Entry_ ck = Some e → CanonicalPath e ≠ q) →
  files (sink (Resume bufSize ze given s).2) !! q = files s !! q
  ∧ (q ∈ dirs (sink (Resume bufSize ze given s).2) ↔ q ∈ dirs s)
  ∧ links (sink (Resume bufSize ze given s).2) !! q = links s !! q.
Proof.
  intros Hq Hck.
  apply (apart_Resume bufSize ze given s q); [|done].
  apply Forall_forall. intros zf Hzf Heq. apply Hq.
  apply list_elem_of_fmap. by exists zf.
Qed.

Lemma X11_other_paths_untouched_witness :
  files (sink (Resume 2 ex_stopper (Some ex_ckStop) ex_sink).2)
    !! "other"%string = None.
Proof.
  refine (proj1 (X11_other_paths_untouched 2 ex_stopper (Some ex_ckStop)
                   ex_sink "other" _ _)).
  - vm_compute. intros H. by repeat (apply elem_of_cons in H as [H|H]);
      try apply elem_of_nil in H.
  - intros ck e [= <-] [= <-]. done.
Defined.

(** ** A fresh run with nothing failing around it *)

Lemma safe_ret b {A} (a : A) : safe b (mret a).
Proof. intros st H. split; [done|by exists a]. Qed.

Lemma safe_bind b {A B} (m : M A) (k : A → M B) :
  safe b m → (∀ a, safe b (k a)) → safe b (m ≫= k).
Proof.
  intros Hm Hk st H. rewrite bind_run. destruct (Hm st H) as [H1 [a Ha]].
  destruct (m st) as [r st1]. cbn [fst snd] in *. subst r. by apply Hk.
Qed.

Lemma safe_ret_bind b {A B} (v : A) (k : A → M B) :
  safe b (k v) → safe b (mret v ≫= k).
Proof. intros H st Hst. by apply H. Qed.

Lemma safe_wrap b {A} (m : M A) : safe b m → safe b (wrap m).
Proof.
  intros Hm st H. destruct (Hm st H) as [H1 [a Ha]]. unfold wrap.
  destruct (m st) as [r st1]. cbn [fst snd] in *. subst r.
  split; [done|by exists a].
Qed.

Lemma safe_gets b {A} (f : State → A) : safe b (gets f).
Proof. intros st H. split; [done|by eexists]. Qed.

Lemma safe_modify b (f : State → State) :
  (∀ st, healthy b st → healthy b (f st)) → safe b (modify f).
Proof. intros Hf st H. split; [by apply Hf|by exists tt]. Qed.

Lemma healthy_same b st st' :
  healthy b st → sink st' = sink st →
  saveScript (savior.saveConsumer st') = saveScript (savior.saveConsumer st) →
  (is_Some (Entry_ (checkpoint st)) → is_Some (Entry_ (checkpoint st'))) →
  healthy b st'.
Proof.
  intros (Hf & Hs & He) Hsink Hsave Hentry. split_and!.
  - by rewrite Hsink.
  - by rewrite Hsave.
  - intros Hb. by apply Hentry, He.
Qed.

Lemma safe_emit b ev : safe b (emit ev).
Proof. intros st H. split; [by apply (healthy_same b st)|by exists tt]. Qed.

Lemma safe_logf b l : safe b (logf l).
Proof. apply safe_emit. Qed.

Lemma safe_sinkCall b c : safe b (sinkCall c).
Proof.
  intros st H. unfold sinkCall. rewrite (proj1 H c).
  split; [|by exists tt]. destruct H as (Hf & Hs & He).
  split_and!; [|done..]. intros c'. cbn. by rewrite faulty_applyCall.
Qed.

Lemma safe_ShouldSave b n : safe b (ShouldSave n).
Proof.
  intros st H. split; [by apply (healthy_same b st)|by eexists].
Qed.

Lemma safe_Save b c : safe b (Save c).
Proof.
  intros st (Hf & Hs & He). unfold Save. cbv zeta.
  destruct (saveScript (savior.saveConsumer st)) as [|a rest] eqn:Hscript.
  - cbn. split; [|by eexists]. split_and!; [done| |done].
    cbn. apply not_elem_of_nil.
  - cbn [head default from_option id tail].
    apply not_elem_of_cons in Hs as [Ha Hrest].
    destruct a as [act|]; [|done].
    split; [|by eexists]. by split_and!.
Qed.

Lemma safe_currentEntry : safe true currentEntry.
Proof.
  intros st H. unfold currentEntry. rewrite bind_run. cbn [gets].
  destruct (proj2 (proj2 H) eq_refl) as [e He]. rewrite He.
  split; [done|by exists e].
Qed.

Ltac safe_modify_tac :=
  let st := fresh "st" in
  let H := fresh "H" in
  intros st H; apply (healthy_same _ st); [done|done|done|];
  cbn; intros [? ->]; by eexists.

Ltac safe_step :=
  match goal with
  | |- safe _ (mret _ ≫= _) => apply safe_ret_bind
  | |- safe _ (_ ≫= _) => apply safe_bind; [|intros]
  | |- safe _ (mret _) => apply safe_ret
  | |- safe _ currentEntry => apply safe_currentEntry
  | |- safe _ (gets _) => apply safe_gets
  | |- safe _ (modify _) => apply safe_modify; safe_modify_tac
  | |- safe _ (emit _) => apply safe_emit
  | |- safe _ (logf _) => apply safe_logf
  | |- safe _ (wrap _) => apply safe_wrap
  | |- safe _ (sinkCall _) => apply safe_sinkCall
  | |- safe _ (ShouldSave _) => apply safe_ShouldSave
  | |- safe _ (Save _) => apply safe_Save
  | |- safe _ (match ?x with _ => _ end) => destruct x
  | |- safe _ (let _ := _ in _) => cbv zeta
  end.

Lemma safe_OnSave w total sc : safe true (OnSave w total sc).
Proof. unfold OnSave, Sync, computeProgress. repeat safe_step. Qed.

Lemma safe_copyLoop w0 total chs :
  ∀ src w,
    safe true (copyLoop (OnSave w0 total) (EmitProgress total) chs src w).
Proof.
  induction chs as [|c rest IH]; intros src w; rewrite copyLoop_eq;
    unfold serveSave.
  - repeat first [apply safe_OnSave|safe_step].
  - apply safe_bind; [safe_step|intros stop].
    destruct stop; [apply safe_ret|].
    apply safe_bind; [repeat first [apply safe_OnSave|safe_step]|intros src1].
    apply safe_bind; [|intros [src' w']; apply IH].
    unfold copyChunk, Write, EmitProgress, computeProgress.
    repeat safe_step.
Qed.

Lemma safe_ioCopyLoop b chs : ∀ w, safe b (ioCopyLoop chs w).
Proof.
  induction chs as [|c rest IH]; intros w; cbn [ioCopyLoop];
    [apply safe_ret|].
  unfold Write.
  apply safe_bind; [repeat safe_step|intros [m w']; apply IH].
Qed.

Lemma safe_entryBody bufSize zf total :
  readable zf →
  safe true (entryBody bufSize zf (zipFileEntry zf) None total).
Proof.
  intros [Hopen Hoff]. unfold entryBody. destruct (Kind _).
  - unfold Mkdir. repeat safe_step.
  - unfold Symlink, Open. rewrite Hopen. repeat safe_step.
  - apply safe_bind.
    { intros st H. rewrite openSource_run, Hoff.
      destruct (resumable zf); (split; [done|by eexists]). }
    intros [src|].
    + intros st H.
      rewrite (copyResumable_run bufSize src (zipFileEntry zf) None total
                 st 0 eq_refl).
      change (WriteOffset (zipFileEntry zf)) with 0. cbn [Z.ltb Z.compare].
      assert (safe true
                (src' ← mret (withOffset 0 src);
                 logf (LogResumingFrom (CanonicalPath (zipFileEntry zf)) 0);;
                 writer ← wrap (GetWriter (zipFileEntry zf));
                 wrap (CopierDo bufSize (OnSave writer total)
                         (EmitProgress total) src' writer))) as Hrest.
      { unfold GetWriter, CopierDo.
        repeat first [apply safe_copyLoop|safe_step]. }
      apply Hrest. by apply (healthy_same true st).
    + unfold copyFallback, Open, GetWriter, ioCopy. rewrite Hopen.
      repeat first [apply safe_ioCopyLoop|safe_step].
Qed.

Lemma safe_extractEntry bufSize zf i total st :
  readable zf → healthy false st →
  Entry_ (checkpoint st) = None → SourceCheckpoint_ (checkpoint st) = None →
  healthy false (extractEntry bufSize zf i total st).2
  ∧ (extractEntry bufSize zf i total st).1 = Ok tt.
Proof.
  intros Hzf (Hf & Hs & _) He Hsc. rewrite extractEntry_eq.
  unfold enteredEntry. rewrite He, Hsc. cbn [default from_option id].
  assert (safe true
            (entryBody bufSize zf (zipFileEntry zf) None total;;
             modify (countEntry zf))) as Hbody.
  { apply safe_bind; [by apply safe_entryBody|intros _]. safe_step. }
  destruct (Hbody (entered zf i st)) as [(Hf1 & Hs1 & _) [[] Hr]].
  { split_and!; [done..|]. intros _. by eexists. }
  by split_and!.
Qed.

Lemma safe_entryLoop bufSize total files :
  Forall readable files →
  ∀ i st,
    healthy false st →
    Entry_ (checkpoint st) = None → SourceCheckpoint_ (checkpoint st) = None →
    healthy false (entryLoop bufSize files i total st).2
    ∧ (entryLoop bufSize files i total st).1 = Ok tt.
Proof.
  induction 1 as [|zf rest Hzf Hrest IH]; intros i st H He Hsc;
    cbn [entryLoop]; [done|].
  rewrite bind_run. cbn [gets]. destruct (stopError st); [done|].
  rewrite bind_run. cbn [logf emit modify]. rewrite wrap_bind_run.
  match goal with |- context [extractEntry _ _ _ _ ?s1] =>
    destruct (safe_extractEntry bufSize zf i total s1 Hzf) as [H1 Hr1] end;
    [by apply (healthy_same false st)|done..|].
  destruct (extractEntry _ _ _ _ _) as [r st1]. cbn [fst snd] in *. subst r.
  rewrite bind_run. cbn [modify]. apply IH; [|done..].
  destruct H1 as (Hf1 & Hs1 & _). by split_and!.
Qed.

Lemma safe_preallocateAll files : safe false (preallocateAll files).
Proof.
  induction files as [|zf rest IH]; cbn [preallocateAll];
    [apply safe_ret|].
  cbv zeta. unfold Preallocate.
  apply safe_bind; [repeat safe_step|intros; apply IH].
Qed.

(** X12. A fresh run around which nothing fails (a sink that accepts every
    call, members that the archive can open and locate, a save consumer that
    never answers a Save with an error; the bytes of a member are read from
    memory, so that reading them cannot fail) ends in one of two ways: with
    the result that lists every entry of the archive, or with the stop
    sentinel after a save was answered with the stop verdict.  It neither
    panics nor returns another error. *)
Theorem X12_healthy_fresh_run_completes bufSize ze s :
  (∀ c, faulty s c = false) →
  Forall readable (zr ze) →
  SaveFails ∉ saveScript (saveConsumer ze) →
  (Resume bufSize ze None s).1 = Ok {| Entries := zipFileEntry <$> zr ze |}
  ∨ ((Resume bufSize ze None s).1 = Err ErrStop
     ∧ ∃ c, EvSave c (SaveAction AfterSaveStop)
              ∈ trace (Resume bufSize ze None s).2).
Proof.
  intros Hf Hzfs Hs.
  assert (∃ st, (Resume bufSize ze None s).1
                = (finishResume (zr ze) st).1) as [st Hfin].
  { rewrite Resume_fresh, bind_run.
    destruct (safe_preallocateAll (zr ze) (freshState ze s))
      as [H1 [[] Hr1]]; [by split_and!|].
    pose proof (preallocateAll_run (zr ze) (freshState ze s)) as Hrun.
    destruct (preallocateAll _ _) as [r st1]. cbn [fst snd] in *. subst r.
    destruct Hrun as [[e He]|(_ & _ & _ & Hck1)]; [done|].
    rewrite bind_run. cbn [logf emit modify]. rewrite bind_run.
    unfold runEntries. cbn [Z.ltb Z.compare].
    change (Z.to_nat 0) with 0%nat. rewrite drop_0.
    match goal with |- context [entryLoop _ _ _ _ ?s2] =>
      destruct (safe_entryLoop bufSize (totalBytesOf (zr ze)) (zr ze) Hzfs
                  0 s2) as [H2 Hr2] end.
    { by apply (healthy_same false st1). }
    1, 2: cbn; by rewrite Hck1.
    destruct (entryLoop _ _ _ _ _) as [r st2]. cbn [fst snd] in *. subst r.
    by exists st2. }
  destruct ((Resume bufSize ze None s).1) as [r|e|] eqn:Hres.
  - left. revert Hfin. unfold finishResume. rewrite bind_run. cbn [gets].
    destruct (stopError st); [done|]. rewrite bind_run. by intros ->.
  - right.
    assert (e = ErrStop) as ->.
    { revert Hfin. unfold finishResume. rewrite bind_run. cbn [gets].
      destruct (stopError st); [by intros [= ->]|].
      rewrite bind_run. done. }
    split; [done|].
    destruct (resume_error bufSize ze None s ErrStop Hres)
      as [[_ Hex]|[e' [=]]].
    apply Exists_exists in Hex as (ev & Hev & Hstop).
    destruct ev as [| | | | |c [[]|]|]; try done. by exists c.
  - revert Hfin. unfold finishResume. rewrite bind_run. cbn [gets].
    destruct (stopError st); [done|]. rewrite bind_run. done.
Qed.

Lemma X12_healthy_fresh_run_completes_witness :
  (Resume 2 (New [ex_a; ex_b; ex_c; ex_l]) None ex_sink).1
  = Ok {| Entries := zipFileEntry <$> [ex_a; ex_b; ex_c; ex_l] |}
  ∨ ((Resume 2 (New [ex_a; ex_b; ex_c; ex_l]) None ex_sink).1 = Err ErrStop
     ∧ ∃ c, EvSave c (SaveAction AfterSaveStop)
              ∈ trace (Resume 2 (New [ex_a; ex_b; ex_c; ex_l]) None
                         ex_sink).2).
Proof.
  apply (X12_healthy_fresh_run_completes 2 (New [ex_a; ex_b; ex_c; ex_l])
           ex_sink).
  - reflexivity.
  - by repeat constructor.
  - vm_compute. apply not_elem_of_nil.
Defined.

(** ** The index of the checkpoints offered *)

Lemma savesIndexed_snoc t ev :
  savesIndexed t →
  (∀ c a, ev = EvSave c a → last (doingIndices t) = Some (EntryIndex c)) →
  savesIndexed (t ++ [ev]).
Proof.
  intros Ht Hev i c a Hi.
  destruct (decide (i < length t)%nat) as [Hlt|Hge].
  - rewrite lookup_app_l in Hi by done.
    rewrite take_app_le by lia. by apply (Ht i c a).
  - assert (i = length t) as ->.
    { apply lookup_lt_Some in Hi. rewrite length_app in Hi. cbn in Hi. lia. }
    rewrite list_lookup_middle in Hi by done. injection Hi as ->.
    rewrite take_app_length. by apply (Hev c a).
Qed.

Lemma savesIndexed_app t evs :
  savesIndexed t → Forall (λ ev, isSave ev = false) evs →
  savesIndexed (t ++ evs).
Proof.
  intros Ht Hevs. revert t Ht.
  induction Hevs as [|ev evs Hev _ IH]; intros t Ht.
  - by rewrite app_nil_r.
  - rewrite cons_middle, app_assoc. apply IH.
    apply savesIndexed_snoc; [done|]. by intros c a ->.
Qed.

Lemma inEntryAt_plain i st st' ev :
  inEntryAt i st → trace st' = trace st ++ [ev] →
  isSave ev = false → notDoing ev →
  EntryIndex (checkpoint st') = EntryIndex (checkpoint st) →
  inEntryAt i st'.
Proof.
  intros (Ht & Hi & Hl) Htr Hs Hd Hidx. split_and!.
  - rewrite Htr. apply savesIndexed_snoc; [done|]. by intros c a ->.
  - by rewrite Hidx.
  - rewrite Htr, doingIndices_app.
    rewrite (doingIndices_notDoing [ev]) by (by constructor).
    by rewrite app_nil_r.
Qed.

Lemma inEntryAt_same i st st' :
  inEntryAt i st → trace st' = trace st →
  EntryIndex (checkpoint st') = EntryIndex (checkpoint st) →
  inEntryAt i st'.
Proof.
  intros (Ht & Hi & Hl) Htr Hidx. unfold inEntryAt. by rewrite Htr, Hidx.
Qed.

Lemma at_gets i {A} (f : State → A) : preserves (inEntryAt i) (gets f).
Proof. by intros st. Qed.

Lemma at_raise i {A} e : preserves (inEntryAt i) (@raise A e).
Proof. by intros st. Qed.

Lemma at_panic i {A} : preserves (inEntryAt i) (@panic A).
Proof. by intros st. Qed.

Lemma at_emit i ev :
  isSave ev = false → notDoing ev → preserves (inEntryAt i) (emit ev).
Proof. intros Hs Hd st H. by apply (inEntryAt_plain i st _ ev). Qed.

Lemma at_logf i l : notDoing (EvLog l) → preserves (inEntryAt i) (logf l).
Proof. intros Hl. by apply at_emit. Qed.

Lemma at_modify i (f : State → State) :
  (∀ st, trace (f st) = trace st) →
  (∀ st, EntryIndex (checkpoint (f st)) = EntryIndex (checkpoint st)) →
  preserves (inEntryAt i) (modify f).
Proof.
  intros Ht Hi st H. apply (inEntryAt_same i st); [done|apply Ht|apply Hi].
Qed.

Lemma at_sinkCall i c : preserves (inEntryAt i) (sinkCall c).
Proof.
  intros st H. unfold sinkCall.
  destruct (faulty (sink st) c); by eapply (inEntryAt_plain i st).
Qed.

Lemma at_ShouldSave i n : preserves (inEntryAt i) (ShouldSave n).
Proof. intros st H. by eapply (inEntryAt_plain i st). Qed.

Lemma at_Save i c : EntryIndex c = i → preserves (inEntryAt i) (Save c).
Proof.
  intros Hc st (Ht & Hi & Hl). unfold Save. cbv zeta.
  assert (∀ a, savesIndexed (trace st ++ [EvSave c a])) as Hsnoc.
  { intros a. apply savesIndexed_snoc; [done|].
    intros c' a' [= <- <-]. by rewrite Hc. }
  assert (∀ a, doingIndices (trace st ++ [EvSave c a])
               = doingIndices (trace st)) as Hdoing.
  { intros a. by rewrite doingIndices_app, app_nil_r. }
  destruct (default _ _) as [act|]; cbn; unfold inEntryAt; cbn;
    by rewrite Hdoing.
Qed.

Lemma at_getsCheckpoint i {B} (k : ExtractorCheckpoint → M B) :
  (∀ ck, EntryIndex ck = i → preserves (inEntryAt i) (k ck)) →
  preserves (inEntryAt i) (gets checkpoint ≫= k).
Proof.
  intros Hk st H. rewrite bind_run. cbn [gets].
  apply Hk; [|done]. apply H.
Qed.

Ltac at_step :=
  match goal with
  | |- preserves _ (gets checkpoint ≫= _) => apply at_getsCheckpoint; intros
  | |- preserves _ (_ ≫= _) => apply preserves_bind; [|intros]
  | |- preserves _ (mret _) => apply preserves_ret
  | |- preserves _ (gets _) => apply at_gets
  | |- preserves _ (modify _) => apply at_modify; intros; reflexivity
  | |- preserves _ (emit _) => apply at_emit; done
  | |- preserves _ (logf _) => apply at_logf; done
  | |- preserves _ (raise _) => apply at_raise
  | |- preserves _ panic => apply at_panic
  | |- preserves _ (wrap _) => apply preserves_wrap
  | |- preserves _ (sinkCall _) => apply at_sinkCall
  | |- preserves _ (ShouldSave _) => apply at_ShouldSave
  | |- preserves _ (Save _) => apply at_Save; done
  | |- preserves _ (match ?x with _ => _ end) => destruct x
  | |- preserves _ (let _ := _ in _) => cbv zeta
  end.

Lemma at_OnSave i w total sc : preserves (inEntryAt i) (OnSave w total sc).
Proof.
  unfold OnSave, Sync, computeProgress, currentEntry. repeat at_step.
Qed.

Lemma at_copyLoop i w0 total chs :
  ∀ src w,
    preserves (inEntryAt i)
      (copyLoop (OnSave w0 total) (EmitProgress total) chs src w).
Proof.
  induction chs as [|c rest IH]; intros src w; rewrite copyLoop_eq;
    unfold serveSave.
  - repeat first [apply at_OnSave|at_step].
  - apply preserves_bind; [at_step|intros stop].
    destruct stop; [apply preserves_ret|].
    apply preserves_bind;
      [repeat first [apply at_OnSave|at_step]|intros src1].
    apply preserves_bind; [|intros [src' w']; apply IH].
    unfold copyChunk, Write, EmitProgress, computeProgress, currentEntry.
    repeat at_step.
Qed.

Lemma at_ioCopyLoop i chs : ∀ w, preserves (inEntryAt i) (ioCopyLoop chs w).
Proof.
  induction chs as [|c rest IH]; intros w; cbn [ioCopyLoop];
    [apply preserves_ret|].
  unfold Write.
  apply preserves_bind; [repeat at_step|intros [m w']; apply IH].
Qed.

Lemma indexed_extractEntry bufSize zf i total st :
  savesIndexed (trace st) → last (doingIndices (trace st)) = Some i →
  savesIndexed (trace (extractEntry bufSize zf i total st).2).
Proof.
  intros Ht Hl. unfold extractEntry. rewrite bind_run. cbn [modify].
  match goal with |- savesIndexed (trace (?m ?s).2) =>
    cut (preserves (inEntryAt i) m) end.
  { intros Hm. by apply Hm. }
  unfold copyResumable, copyFallback, openSource, DataOffset, Open, Mkdir,
    Symlink, GetWriter, SourceResume, DiscardByRead, CopierDo, ioCopy,
    currentEntry.
  repeat first [apply at_copyLoop|apply at_ioCopyLoop|at_step].
Qed.

Lemma indexed_entryLoop bufSize total files :
  ∀ i st,
    savesIndexed (trace st) →
    savesIndexed (trace (entryLoop bufSize files i total st).2).
Proof.
  induction files as [|zf rest IH]; intros i st Ht; cbn [entryLoop]; [done|].
  rewrite bind_run. cbn [gets]. destruct (stopError st); [done|].
  rewrite bind_run. cbn [logf emit modify]. rewrite wrap_bind_run.
  match goal with |- context [extractEntry _ _ _ _ ?s1] =>
    pose proof (indexed_extractEntry bufSize zf i total s1) as H1 end.
  cbn [trace withTrace] in H1.
  rewrite doingIndices_app in H1.
  change (doingIndices [EvLog (LogDoingEntryIndex i)]) with [i] in H1.
  rewrite last_snoc in H1.
  assert (savesIndexed (trace st ++ [EvLog (LogDoingEntryIndex i)])) as Ht1.
  { apply savesIndexed_app; [done|]. by constructor. }
  specialize (H1 Ht1 eq_refl).
  destruct (extractEntry _ _ _ _ _) as [[[]|e|] st1]; cbn [fst snd] in *;
    [|done..].
  rewrite bind_run. cbn [modify]. by apply IH.
Qed.

(** X13. Every checkpoint that a run offers to the save consumer carries
    the index of the entry being extracted at that time, that is, the
    index announced last before the save. *)
Theorem X13_checkpoint_names_current_entry bufSize ze given s :
  savesIndexed (trace (Resume bufSize ze given s).2).
Proof.
  assert (∀ start total st,
            savesIndexed (trace st) →
            savesIndexed
              (trace ((runEntries bufSize (zr ze) start total;;
                       finishResume (zr ze)) st).2)) as Hrun.
  { intros start total st Ht. rewrite bind_run.
    assert (savesIndexed
              (trace (runEntries bufSize (zr ze) start total st).2)) as H1.
    { unfold runEntries. destruct (start <? 0); [|by apply indexed_entryLoop].
      rewrite bind_run. cbn. by apply savesIndexed_app; [|constructor]. }
    destruct (runEntries _ _ _ _ _) as [[[]|e|] st1]; cbn [fst snd] in *;
      [|done..].
    assert (emits (λ ev, isSave ev = false) (finishResume (zr ze))) as Hfin
      by (unfold finishResume; emits_auto).
    destruct (Hfin st1) as (evs & -> & Hevs). by apply savesIndexed_app. }
  destruct given as [ck|].
  - rewrite Resume_resumed. apply Hrun. by intros [|i] c a.
  - rewrite Resume_fresh, bind_run.
    destruct (emits_preallocateAll (λ ev, isSave ev = false) (zr ze)
                ltac:(by intros) (freshState ze s)) as (evs0 & Ht0 & Hevs0).
    assert (savesIndexed (trace (preallocateAll (zr ze) (freshState ze s)).2))
      as H0.
    { rewrite Ht0. apply savesIndexed_app; [|done].
      intros [|[|i]] c a; done. }
    destruct (preallocateAll _ _) as [[[]|e|] st1]; cbn [fst snd] in *;
      [|done..].
    rewrite bind_run. cbn [logf emit modify]. apply Hrun.
    by apply savesIndexed_app; [|constructor].
Qed.

(** ** A save consumer that never asks for a save *)

Lemma calmly_same {A} (r : res A) st st' :
  calm st → savior.saveConsumer st' = savior.saveConsumer st →
  stopError st' = stopError st → trace st' = trace st →
  calm (r, st').2 ∧ stopError (r, st').2 = stopError st
  ∧ ∃ evs, trace (r, st').2 = trace st ++ evs
           ∧ Forall (λ ev, isSave ev = false) evs.
Proof.
  intros Hc Hsc Hs Ht. cbn [snd]. unfold calm. rewrite Hsc, Hs, Ht.
  split_and!; [done..|]. exists []. by rewrite app_nil_r.
Qed.

Lemma calmly_ret {A} (a : A) : calmly (mret a).
Proof. intros st Hc. by apply calmly_same. Qed.

Lemma calmly_gets {A} (f : State → A) : calmly (gets f).
Proof. intros st Hc. by apply calmly_same. Qed.

Lemma calmly_raise {A} e : calmly (@raise A e).
Proof. intros st Hc. by apply calmly_same. Qed.

Lemma calmly_panic {A} : calmly (@panic A).
Proof. intros st Hc. by apply calmly_same. Qed.

Lemma calmly_modify (f : State → State) :
  (∀ st, savior.saveConsumer (f st) = savior.saveConsumer st) →
  (∀ st, stopError (f st) = stopError st) →
  (∀ st, trace (f st) = trace st) →
  calmly (modify f).
Proof. intros Hsc Hs Ht st Hc. by apply calmly_same. Qed.

Lemma calmly_emit ev : isSave ev = false → calmly (emit ev).
Proof.
  intros Hev st Hc. split_and!; [done..|]. exists [ev].
  split; [done|]. by constructor.
Qed.

Lemma calmly_logf l : calmly (logf l).
Proof. by apply calmly_emit. Qed.

Lemma calmly_sinkCall c : calmly (sinkCall c).
Proof.
  intros st Hc. unfold sinkCall. destruct (faulty (sink st) c).
  all: split_and!; [done..|]; eexists [_]; split; [done|]; by constructor.
Qed.

Lemma calmly_ShouldSave n : calmly (ShouldSave n).
Proof.
  intros st Hc. unfold ShouldSave. cbv zeta. split_and!; [|done|].
  - unfold calm in *. cbn.
    destruct (shouldSaveScript (savior.saveConsumer st)) as [|b rest];
      [done|]. cbn. by apply Forall_inv_tail in Hc.
  - eexists [_]. split; [done|]. by constructor.
Qed.

Lemma calmly_bind_post {A B} (Q : A → Prop) (m : M A) (k : A → M B) :
  calmly m → (∀ st a, calm st → (m st).1 = Ok a → Q a) →
  (∀ a, Q a → calmly (k a)) → calmly (m ≫= k).
Proof.
  intros Hm HQ Hk st Hc. rewrite bind_run.
  destruct (Hm st Hc) as (Hc1 & Hs1 & evs1 & Ht1 & Hev1).
  specialize (λ a, HQ st a Hc).
  destruct (m st) as [[a|e|] st1]; cbn [fst snd] in *.
  - destruct (Hk a (HQ a eq_refl) st1 Hc1) as (Hc2 & Hs2 & evs2 & Ht2 & Hev2).
    split_and!; [done|congruence|]. exists (evs1 ++ evs2).
    rewrite Ht2, Ht1, app_assoc. split; [done|]. by apply Forall_app.
  - split_and!; [done..|]. by exists evs1.
  - split_and!; [done..|]. by exists evs1.
Qed.

Lemma calmly_bind {A B} (m : M A) (k : A → M B) :
  calmly m → (∀ a, calmly (k a)) → calmly (m ≫= k).
Proof.
  intros Hm Hk. apply (calmly_bind_post (λ _, True)); [done|done|].
  intros a _. apply Hk.
Qed.

Lemma calmly_wrap {A} (m : M A) : calmly m → calmly (wrap m).
Proof.
  intros Hm st Hc. specialize (Hm st Hc). unfold wrap.
  by destruct (m st) as [[a|e|] st1].
Qed.

Ltac calmly_step :=
  match goal with
  | |- calmly (_ ≫= _) => apply calmly_bind; [|intros]
  | |- calmly (mret _) => apply calmly_ret
  | |- calmly (gets _) => apply calmly_gets
  | |- calmly (modify _) => apply calmly_modify; intros; reflexivity
  | |- calmly (emit _) => apply calmly_emit; reflexivity
  | |- calmly (logf _) => apply calmly_logf
  | |- calmly (raise _) => apply calmly_raise
  | |- calmly panic => apply calmly_panic
  | |- calmly (wrap _) => apply calmly_wrap
  | |- calmly (sinkCall _) => apply calmly_sinkCall
  | |- calmly (ShouldSave _) => apply calmly_ShouldSave
  | |- calmly (match ?x with _ => _ end) => destruct x
  | |- calmly (let _ := _ in _) => cbv zeta
  end.

Lemma calmly_copyChunk total c src w :
  calmly (copyChunk (EmitProgress total) c src w).
Proof.
  unfold copyChunk, Write, EmitProgress, computeProgress, currentEntry.
  repeat calmly_step.
Qed.

(** With such a consumer the chunk just copied leaves no save pending. *)
Lemma copyChunk_wantSave total c src w st src' w' :
  calm st → srcWantSave src = false →
  (copyChunk (EmitProgress total) c src w st).1 = Ok (src', w') →
  srcWantSave src' = false.
Proof.
  intros Hc Hsrc. destruct (Entry_ (checkpoint st)) as [e|] eqn:He.
  - rewrite (copyChunk_run total c src w st e He). cbv zeta.
    destruct (faulty _ _); [done|]. cbn [fst]. intros [= <- _].
    cbn. rewrite Hsrc, orb_false_r. unfold calm in Hc.
    destruct (shouldSaveScript (savior.saveConsumer st)) as [|b rest];
      [done|]. cbn. by apply Forall_inv in Hc.
  - unfold copyChunk, Write, EmitProgress, computeProgress, currentEntry.
    rewrite bind_assoc_run, bind_run. unfold sinkCall.
    destruct (faulty _ _); [done|]. munfold. cbn. by rewrite He.
Qed.

Lemma calmly_copyLoop w0 total chs :
  ∀ src w,
    srcWantSave src = false →
    calmly (copyLoop (OnSave w0 total) (EmitProgress total) chs src w).
Proof.
  induction chs as [|c rest IH]; intros src w Hsrc; rewrite copyLoop_eq;
    unfold serveSave; rewrite Hsrc.
  - repeat calmly_step.
  - apply calmly_bind; [calmly_step|intros stop].
    destruct stop; [apply calmly_ret|].
    intros st Hc. rewrite bind_run. cbn [mret M_ret ret].
    revert st Hc.
    apply (calmly_bind_post (λ p, srcWantSave p.1 = false)).
    + apply calmly_copyChunk.
    + intros st [src' w'] Hc Hr. by eapply copyChunk_wantSave.
    + intros [src' w'] Hsrc'. by apply IH.
Qed.

Lemma calmly_ioCopyLoop chs : ∀ w, calmly (ioCopyLoop chs w).
Proof.
  induction chs as [|c rest IH]; intros w; cbn [ioCopyLoop];
    [apply calmly_ret|].
  unfold Write.
  apply calmly_bind; [repeat calmly_step|intros [m w']; apply IH].
Qed.

Lemma calmly_copyResumable bufSize src e sc total :
  srcWantSave src = false →
  calmly (copyResumable bufSize src e sc total).
Proof.
  intros Hsrc. unfold copyResumable.
  apply (calmly_bind_post (λ p, srcWantSave p.2 = false)).
  { unfold SourceResume. repeat calmly_step. }
  { intros st [off src1] _. unfold wrap, SourceResume.
    destruct sc as [c|]; [destruct (validOffset src (Offset c))|];
      cbn; try done; by intros [= _ <-]. }
  intros [off src1] Hsrc1. cbn [snd] in Hsrc1.
  apply (calmly_bind_post (λ src2, srcWantSave src2 = false)).
  { unfold DiscardByRead. repeat calmly_step. }
  { intros st src2 _. destruct (off <? WriteOffset e).
    - cbv zeta. rewrite !bind_run. cbn [logf emit modify].
      unfold wrap, DiscardByRead. cbv zeta.
      destruct (_ <=? _); cbn; try done; by intros [= <-].
    - by intros [= <-]. }
  intros src2 Hsrc2. unfold GetWriter, CopierDo.
  repeat first [by apply calmly_copyLoop|calmly_step].
Qed.

Lemma calmly_extractEntry bufSize zf i total :
  calmly (extractEntry bufSize zf i total).
Proof.
  unfold extractEntry.
  apply calmly_bind; [calmly_step|intros _].
  apply calmly_bind; [calmly_step|intros ck].
  apply calmly_bind; [repeat calmly_step|intros _].
  apply calmly_bind; [unfold currentEntry; repeat calmly_step|intros entry].
  apply calmly_bind; [calmly_step|intros _].
  apply calmly_bind; [|intros _; calmly_step].
  destruct (Kind entry).
  - unfold Mkdir. repeat calmly_step.
  - unfold Symlink, Open. repeat calmly_step.
  - apply (calmly_bind_post
             (λ o, ∀ src, o = Some src → srcWantSave src = false)).
    + unfold openSource, DataOffset. repeat calmly_step.
    + intros st o _. rewrite openSource_run.
      destruct (resumable zf); [destruct (zip.DataOffsetFails zf)|];
        cbn; try done; intros [= <-] src [= <-].
      unfold entrySource. by destruct (_ =? _).
    + intros [src|] Hsrc.
      * apply calmly_copyResumable. by apply Hsrc.
      * unfold copyFallback, Open, GetWriter, ioCopy, currentEntry.
        repeat first [apply calmly_ioCopyLoop|calmly_step].
Qed.

Lemma calmly_entryLoop bufSize total files :
  ∀ i, calmly (entryLoop bufSize files i total).
Proof.
  induction files as [|zf rest IH]; intros i; cbn [entryLoop];
    [apply calmly_ret|].
  apply calmly_bind; [calmly_step|intros stop].
  destruct stop; [apply calmly_ret|].
  apply calmly_bind; [calmly_step|intros _].
  apply calmly_bind; [apply calmly_wrap, calmly_extractEntry|intros _].
  apply calmly_bind; [calmly_step|intros _]. apply IH.
Qed.

Lemma calmly_preallocateAll files : calmly (preallocateAll files).
Proof.
  induction files as [|zf rest IH]; cbn [preallocateAll];
    [apply calmly_ret|].
  cbv zeta. unfold Preallocate.
  apply calmly_bind; [repeat calmly_step|intros; apply IH].
Qed.

(** X14. With a save consumer that never asks for a save, as the one that
    [New] installs, a run offers no checkpoint and is never stopped:
    [Save] is not called and [Resume] does not return the stop sentinel,
    whatever the archive, the checkpoint and the sink. *)
Theorem X14_no_save_unless_asked bufSize ze given s :
  Forall (λ b, b = false) (shouldSaveScript (saveConsumer ze)) →
  Forall (λ ev, isSave ev = false) (trace (Resume bufSize ze given s).2)
  ∧ (Resume bufSize ze given s).1 ≠ Err ErrStop.
Proof.
  intros Hcalm.
  assert (Forall (λ ev, isSave ev = false)
            (trace (Resume bufSize ze given s).2)) as Ht.
  { unfold Resume. cbv zeta.
    match goal with |- Forall _ (trace (?m ?st).2) =>
      cut (calmly m);
        [intros Hm; destruct (Hm st Hcalm) as (_ & _ & evs & -> & Hevs)|]
    end.
    { done. }
    unfold resumeBody, runEntries, finishResume.
    repeat first [apply calmly_preallocateAll|apply calmly_entryLoop
                 |calmly_step]. }
  split; [done|]. intros Herr.
  destruct (resume_error bufSize ze given s ErrStop Herr)
    as [[_ Hex]|[e' [=]]].
  apply Exists_exists in Hex as (ev & Hev & Hstop).
  rewrite Forall_forall in Ht. specialize (Ht ev Hev).
  by destruct ev as [| | | | |c [[]|]|].
Qed.

Lemma X14_no_save_unless_asked_witness :
  (Resume 2 (New [ex_a; ex_b; ex_c; ex_l]) None ex_sink).1 ≠ Err ErrStop.
Proof.
  refine (proj2 (X14_no_save_unless_asked 2 (New [ex_a; ex_b; ex_c; ex_l])
                   None ex_sink _)).
  constructor.
Defined.
